(** * QgisPhotoEditor: the photo editor and viewer widgets, and the file-name codec

    A shallow embedding of
    - [utils/file_parser.py]        (module [FileParser]),
    - [photo_viewer_widget.py]      (module [Viewer]),
    - [photo_editor_widget.py]      (modules [Geometry], [PosixPath], [Editor]),
    followed by the properties of the specification that concern them.

    Conventions of the embedding.
    - Python [str] is [string], the UTF-8 encoding of its code points.
    - Qt coordinates ([qreal], Python [float]) are binary64 numbers, Rocq's
      primitive [float]: every operation rounds as the hardware does.  The
      expressions of the geometry are written once, over any arithmetic, and
      read a second time over the real numbers where a property speaks of
      what they compute in exact arithmetic.
    - [pathlib.Path] is [PurePosixPath]: the host is a POSIX system.
    - Python object identity of graphics items is an item id drawn from a
      counter owned by the scene; the scene is the list of its items in
      insertion order.
    - Methods that mutate [self], write the message log, the disk or the
      layer are computations in a state-and-exception monad. *)

From Stdlib Require Import Reals NArith ZArith QArith Floats Lra Lia String Ascii List Bool.
From stdpp Require Import base gmap strings list.
Import ListNotations.

#[local] Set Warnings "-inexact-float".
#[local] Close Scope Q_scope.

#[local] Open Scope string_scope.
#[local] Open Scope list_scope.
#[local] Arguments String.append !s1 s2 / : simpl nomatch.

(* ------------------------------------------------------------------ *)
(** * Python string primitives *)

Module Str.

(** [s[n:]] *)
Fixpoint drop (n : nat) (s : string) : string :=
  match n, s with
  | O, _ => s
  | S _, EmptyString => EmptyString
  | S n', String _ s' => drop n' s'
  end.

(** [s[:n]] *)
Fixpoint take (n : nat) (s : string) : string :=
  match n, s with
  | O, _ => EmptyString
  | S _, EmptyString => EmptyString
  | S n', String c s' => String c (take n' s')
  end.

(** [c in s] for a one-character string [c] *)
Fixpoint has_char (c : ascii) (s : string) : bool :=
  match s with
  | EmptyString => false
  | String c' s' => if Ascii.eqb c c' then true else has_char c s'
  end.

(** [s.startswith(p)] *)
Fixpoint startswith (p s : string) : bool :=
  match p, s with
  | EmptyString, _ => true
  | String _ _, EmptyString => false
  | String a p', String b s' => if Ascii.eqb a b then startswith p' s' else false
  end.

(** [sub in s] *)
Fixpoint contains (sub s : string) : bool :=
  if startswith sub s then true
  else match s with
       | EmptyString => false
       | String _ s' => contains sub s'
       end.

(** [s.replace(old, new)] for a non-empty [old]: the occurrences of [old]
    are found from left to right and do not overlap.  [skip] counts the
    characters of a matched occurrence that are still to be passed over. *)
Fixpoint replace_from (old new : string) (skip : nat) (s : string) : string :=
  match s with
  | EmptyString => EmptyString
  | String c s' =>
      match skip with
      | S k => replace_from old new k s'
      | O =>
          if startswith old s
          then new +:+ replace_from old new (String.length old - 1) s'
          else String c (replace_from old new O s')
      end
  end.

Definition replace (old new s : string) : string := replace_from old new O s.

(** Length of the longest prefix of [s] that has no [c]. *)
Fixpoint span_not (c : ascii) (s : string) : nat :=
  match s with
  | EmptyString => O
  | String c' s' => if Ascii.eqb c c' then O else S (span_not c s')
  end.

(** [sep.join(parts)] *)
Definition join (sep : string) (parts : list string) : string :=
  String.concat sep parts.

(** [chr(n)], in UTF-8. *)
Definition chr (n : N) : string :=
  let byte (k : N) (rest : string) := String (ascii_of_N k) rest in
  if (n <? 128)%N then byte n ""
  else if (n <? 2048)%N then
    byte (192 + n / 64)%N (byte (128 + n mod 64)%N "")
  else if (n <? 65536)%N then
    byte (224 + n / 4096)%N (byte (128 + (n / 64) mod 64)%N (byte (128 + n mod 64)%N ""))
  else
    byte (240 + n / 262144)%N
         (byte (128 + (n / 4096) mod 64)%N
               (byte (128 + (n / 64) mod 64)%N (byte (128 + n mod 64)%N ""))).

(** The string of the code points [ns]. *)
Definition text (ns : list N) : string := String.concat "" (List.map chr ns).

End Str.

(* ------------------------------------------------------------------ *)
(** * utils/file_parser.py *)

Module FileParser.

(** The fragment of Python's [re] syntax that [FILENAME_PATTERN] uses, as
    the sequence of its tokens.  [^] is implied by [re.match]. *)
Inductive token : Type :=
| TOpen (name : string)      (* (?P<name>    *)
| TClose                     (* )            *)
| TLit (c : ascii)           (* one literal character *)
| TPlusNot (c : ascii)       (* [^c]+ , greedy *)
| TEnd.                      (* $            *)

(** [$] without [re.MULTILINE]: the end of the string, or just before a
    newline that ends the string. *)
Definition at_end (rest : string) : bool :=
  match rest with
  | EmptyString => true
  | String c EmptyString => Ascii.eqb c "010"
  | _ => false
  end.

(** Backtracking matcher.  [rest] is the unread input, [opens] the groups
    entered and not yet left (with the input at their start), [caps] the
    groups captured so far in the order they were closed. *)
Fixpoint run (ts : list token) (rest : string)
    (opens : list (string * string)) (caps : list (string * string))
    : option (list (string * string)) :=
  match ts with
  | [] => Some caps
  | TOpen name :: ts' => run ts' rest ((name, rest) :: opens) caps
  | TClose :: ts' =>
      match opens with
      | [] => None
      | (name, start) :: opens' =>
          let text := Str.take (String.length start - String.length rest) start in
          run ts' rest opens' (caps ++ [(name, text)])
      end
  | TLit c :: ts' =>
      match rest with
      | String c' rest' => if Ascii.eqb c c' then run ts' rest' opens caps else None
      | EmptyString => None
      end
  | TPlusNot c :: ts' =>
      (fix try (k : nat) : option (list (string * string)) :=
         match k with
         | O => None
         | S k' =>
             match run ts' (Str.drop k rest) opens caps with
             | Some r => Some r
             | None => try k'
             end
         end) (Str.span_not c rest)
  | TEnd :: ts' => if at_end rest then run ts' rest opens caps else None
  end.

(** [FILENAME_PATTERN] *)
Definition FILENAME_PATTERN : list token :=
  [ TOpen "build_code"; TPlusNot "-"; TClose; TLit "-";
    TOpen "facility_name"; TPlusNot "_"; TClose; TLit "_";
    TOpen "facility_number"; TPlusNot "."; TClose;
    TOpen "extension"; TLit "."; TPlusNot "."; TClose; TEnd ].

(** [PhotoFileNameParser.parse]: [match.groupdict()] as the list of the
    named groups in pattern order, [None] when the pattern does not match.
    Matching a [str] raises nothing, so the handler is never entered. *)
Definition parse (filename : string) : option (list (string * string)) :=
  run FILENAME_PATTERN filename [] [].

(** [PhotoFileNameParser.build] *)
Definition build (build_code facility_name facility_number extension : string)
    : string :=
  build_code +:+ "-" +:+ facility_name +:+ "_" +:+ facility_number +:+ extension.

(** [PhotoFileNameParser.build_unique_key] *)
Definition build_unique_key (build_code facility_name facility_number : string)
    : string :=
  build_code +:+ facility_name +:+ "_" +:+ facility_number.

(** The dictionary [parse] returns for the four components. *)
Definition components (bc fn num ext : string) : list (string * string) :=
  [ ("build_code", bc); ("facility_name", fn);
    ("facility_number", num); ("extension", ext) ].

(** An extension the pattern accepts: a dot and then one or more characters
    that are not dots. *)
Definition dotted_extension (ext : string) : bool :=
  match ext with
  | String c e => Ascii.eqb c "." && negb (String.eqb e "") && negb (Str.has_char "." e)
  | EmptyString => false
  end.

End FileParser.

(* ------------------------------------------------------------------ *)
(** * pathlib.Path on a POSIX host *)

Module PosixPath.

(** A parsed path: [root] is [""], ["/"] or ["//"], [parts] are the
    segments after the root. *)
Record t : Type := mk { root : string; parts : list string }.

(** [s.split("/")] *)
Fixpoint split (s : string) : list string :=
  match s with
  | EmptyString => [EmptyString]
  | String c s' =>
      if Ascii.eqb c "/" then EmptyString :: split s'
      else match split s' with
           | h :: t => String c h :: t
           | [] => [String c EmptyString]
           end
  end.

(** [splitroot]: exactly two leading slashes are kept, any other number of
    leading slashes collapses to one. *)
Definition splitroot (s : string) : string * string :=
  match s with
  | String "/" (String "/" (String "/" _)) => ("/", Str.drop 1 s)
  | String "/" (String "/" rest) => ("//", rest)
  | String "/" rest => ("/", rest)
  | _ => ("", s)
  end.

Definition keep_segment (x : string) : bool :=
  negb (String.eqb x "") && negb (String.eqb x ".").

(** [Path(s)] *)
Definition of_string (s : string) : t :=
  let (r, rel) := splitroot s in
  mk r (List.filter keep_segment (split rel)).

(** [str(p)] *)
Definition to_string (p : t) : string :=
  let body := Str.join "/" (parts p) in
  match root p, parts p with
  | EmptyString, [] => "."
  | r, _ => r +:+ body
  end.

(** [p.parent] *)
Definition parent (p : t) : t :=
  match parts p with
  | [] => p
  | _ => mk (root p) (removelast (parts p))
  end.

(** [p.name] *)
Definition name (p : t) : string := List.last (parts p) "".

(** [p / other] *)
Definition joinpath (p : t) (other : string) : t :=
  let q := of_string other in
  match root q with
  | EmptyString => mk (root p) (parts p ++ parts q)
  | _ => q
  end.

(** [p.parents], nearest first, followed by [p]'s root alone. *)
Definition parents (p : t) : list t :=
  List.map (fun k => mk (root p) (firstn k (parts p)))
           (List.rev (List.seq 0 (List.length (parts p)))).

End PosixPath.

(* ------------------------------------------------------------------ *)
(** * Arithmetic *)

Module Num.

(** The operations the geometry of the editor is written with. *)
Class Number (F : Type) : Type := mkNumber {
  zero : F;
  half : F;
  add : F -> F -> F;
  sub : F -> F -> F;
  mul : F -> F -> F;
  div : F -> F -> F;
  opp : F -> F;
  ltb : F -> F -> bool
}.

(** The arithmetic of the code: Python [float] and Qt [qreal]. *)
#[global] Instance binary64 : Number float := {|
  zero := 0%float;
  half := 0.5%float;
  add := PrimFloat.add;
  sub := PrimFloat.sub;
  mul := PrimFloat.mul;
  div := PrimFloat.div;
  opp := PrimFloat.opp;
  ltb := PrimFloat.ltb
|}.

(** Exact arithmetic. *)
#[global] Instance exact : Number R := {|
  zero := 0%R;
  half := (1 / 2)%R;
  add := Rplus;
  sub := Rminus;
  mul := Rmult;
  div := Rdiv;
  opp := Ropp;
  ltb := fun x y => if Rlt_dec x y then true else false
|}.

End Num.

Declare Scope num_scope.
Delimit Scope num_scope with num.
Notation "x + y" := (Num.add x y) : num_scope.
Notation "x - y" := (Num.sub x y) : num_scope.
Notation "x * y" := (Num.mul x y) : num_scope.
Notation "x / y" := (Num.div x y) : num_scope.
Notation "- x" := (Num.opp x) : num_scope.
Notation "x <? y" := (Num.ltb x y) : num_scope.

(* ------------------------------------------------------------------ *)
(** * Qt geometry: QPointF, QRectF *)

Module Geometry.

Record QPointF : Type := mkPoint { px : float; py : float }.

(** [QPointF.isNull]: both coordinates are a zero of either sign.  PyQt
    uses it for the truth value of a point. *)
Definition isNull (p : QPointF) : bool :=
  (px p =? 0)%float && (py p =? 0)%float.

(** A rectangle by its top-left corner, width and height. *)
Record QRectF : Type := mkRect { rx : float; ry : float; rw : float; rh : float }.

(** [QRectF(topLeft, bottomRight)] *)
Definition rect_of_points (p q : QPointF) : QRectF :=
  mkRect (px p) (py p) (px q - px p) (py q - py p).

Section Formulas.
Context {F : Type} `{Num.Number F}.
#[local] Open Scope num_scope.

(** One axis of [QRectF.normalized]: a negative width (height) swaps the
    left and right (top and bottom) edges,
    [if (w < 0) { x += w; w = -w; }]. *)
Definition normalized_axis (x w : F) : F * F :=
  if w <? Num.zero then (x + w, - w) else (x, w).

(** The points [p2] and [p3] of [_create_arrow], from the end point, the
    arrow size, the direction and its length. *)
Definition arrow_corners (end_x end_y arrow_size dx dy length : F)
    : (F * F) * (F * F) :=
  let dx := dx / length in
  let dy := dy / length in
  ((end_x - arrow_size * dx + arrow_size * Num.half * dy,
    end_y - arrow_size * dy - arrow_size * Num.half * dx),
   (end_x - arrow_size * dx - arrow_size * Num.half * dy,
    end_y - arrow_size * dy + arrow_size * Num.half * dx)).

End Formulas.

(** [QRectF.normalized] *)
Definition normalized (r : QRectF) : QRectF :=
  let (x, w) := normalized_axis (rx r) (rw r) in
  let (y, h) := normalized_axis (ry r) (rh r) in
  mkRect x y w h.

Definition topLeft (r : QRectF) : QPointF := mkPoint (rx r) (ry r).
Definition bottomRight (r : QRectF) : QPointF :=
  mkPoint (rx r + rw r) (ry r + rh r).

(** The rational number that a finite binary64 number is. *)
Definition to_Q (x : float) : Q :=
  match Prim2SF x with
  | S754_finite s m e => (inject_Z (if s then Zneg m else Zpos m) * Qpower 2 e)%Q
  | _ => 0%Q
  end.

(** The square of the distance between two points, as a rational number. *)
Definition distance2 (a b : QPointF) : Q :=
  ((to_Q (px a) - to_Q (px b)) * (to_Q (px a) - to_Q (px b))
   + (to_Q (py a) - to_Q (py b)) * (to_Q (py a) - to_Q (py b)))%Q.

(** Points of the real plane. *)
Definition RPoint : Type := (R * R)%type.

(** Squared distance between two points. *)
Definition dist2 (a b : RPoint) : R :=
  ((fst a - fst b) * (fst a - fst b) + (snd a - snd b) * (snd a - snd b))%R.

(** Dot product of [b - a] and [d - c]. *)
Definition dot (a b c d : RPoint) : R :=
  ((fst b - fst a) * (fst d - fst c) + (snd b - snd a) * (snd d - snd c))%R.

(** Cross product of [b - a] and [d - c]. *)
Definition cross (a b c d : RPoint) : R :=
  ((fst b - fst a) * (snd d - snd c) - (snd b - snd a) * (fst d - fst c))%R.

Definition midpoint (a b : RPoint) : RPoint :=
  (((fst a + fst b) / 2)%R, ((snd a + snd b) / 2)%R).

End Geometry.

(* ------------------------------------------------------------------ *)
(** * Records of the host application *)

Module Host.

(** An attribute value: the host's [NULL] or a text. *)
Inductive value : Type :=
| VNull
| VStr (s : string).

(** Python truth value of an attribute. *)
Definition truthy (v : value) : bool :=
  match v with
  | VNull => false
  | VStr s => negb (String.eqb s "")
  end.

(** [str(v)] *)
Definition str (v : value) : string :=
  match v with
  | VNull => "NULL"
  | VStr s => s
  end.

(** A feature: [feature[name]] is the lookup in [f_attrs], and
    [feature.fields().names()] its domain. *)
Record Feature : Type := mkFeature {
  f_id : Z;
  f_valid : bool;
  f_attrs : gmap string value
}.

Definition has_field (f : Feature) (name : string) : bool :=
  bool_decide (is_Some (f_attrs f !! name)).

Definition attribute (f : Feature) (name : string) : value :=
  default VNull (f_attrs f !! name).

(** The code points that [str.strip] removes: those for which
    [str.isspace] holds. *)
Definition white_space : list N :=
  [9; 10; 11; 12; 13; 28; 29; 30; 31; 32; 133; 160; 5760;
   8192; 8193; 8194; 8195; 8196; 8197; 8198; 8199; 8200; 8201; 8202;
   8232; 8233; 8239; 8287; 12288]%N.

(** The number of bytes of the white-space character [s] begins with. *)
Definition leading_space (s : string) : option nat :=
  option_map (fun n => String.length (Str.chr n))
             (List.find (fun n => Str.startswith (Str.chr n) s) white_space).

(** [s.lstrip()]; [skip] counts the bytes of a white-space character that
    are still to be passed over. *)
Fixpoint lstrip_from (skip : nat) (s : string) : string :=
  match s with
  | EmptyString => EmptyString
  | String _ s' =>
      match skip with
      | S k => lstrip_from k s'
      | O =>
          match leading_space s with
          | Some n => lstrip_from (n - 1) s'
          | None => s
          end
      end
  end.

Definition lstrip (s : string) : string := lstrip_from 0 s.

(** [s.rstrip()]: the string ends where only white space follows. *)
Fixpoint rstrip (s : string) : string :=
  match s with
  | EmptyString => EmptyString
  | String c s' => if String.eqb (lstrip s) "" then EmptyString else String c (rstrip s')
  end.

(** [s.strip()] *)
Definition strip (s : string) : string := rstrip (lstrip s).

Definition upper_char (c : ascii) : ascii :=
  let n := nat_of_ascii c in
  if ((97 <=? n) && (n <=? 122))%nat then ascii_of_nat (n - 32) else c.

(** The code points outside ASCII whose upper-case form has an ASCII
    letter, with that form. *)
Definition upper_to_ascii : list (N * list N) :=
  [(223, [83; 83]); (305, [73]); (329, [700; 78]); (383, [83]); (496, [74; 780]);
   (7830, [72; 817]); (7831, [84; 776]); (7832, [87; 778]); (7833, [89; 778]);
   (7834, [65; 702]);
   (64256, [70; 70]); (64257, [70; 73]); (64258, [70; 76]); (64259, [70; 70; 73]);
   (64260, [70; 70; 76]); (64261, [83; 84]); (64262, [83; 84])]%N.

(** [s.upper()], exact on ASCII and on the code points of [upper_to_ascii].
    Python maps every other code point to code points outside ASCII; it is
    left as it is here, which a comparison with an ASCII word cannot tell
    apart. *)
Fixpoint upper_from (skip : nat) (s : string) : string :=
  match s with
  | EmptyString => EmptyString
  | String c s' =>
      match skip with
      | S k => upper_from k s'
      | O =>
          match List.find (fun e => Str.startswith (Str.chr (fst e)) s) upper_to_ascii with
          | Some e =>
              Str.text (snd e) +:+ upper_from (String.length (Str.chr (fst e)) - 1) s'
          | None => String (upper_char c) (upper_from 0 s')
          end
      end
  end.

Definition upper (s : string) : string := upper_from 0 s.

End Host.

(* ------------------------------------------------------------------ *)
(** * photo_viewer_widget.py *)

Module Viewer.
Import Host.

(** The test of [load_photo] on the value of one field:
    [path and str(path).strip() and str(path).strip().upper() != 'NULL']. *)
Definition usable (v : value) : bool :=
  truthy v
  && negb (String.eqb (strip (str v)) "")
  && negb (String.eqb (upper (strip (str v))) "NULL").

(** The loop of [load_photo] over the candidate field names; it leaves at
    the first field that passes the test. *)
Fixpoint resolve_from (names : list string) (feature : Feature) : option string :=
  match names with
  | [] => None
  | field_name :: rest =>
      if has_field feature field_name then
        let path := attribute feature field_name in
        if usable path then Some (strip (str path))
        else resolve_from rest feature
      else resolve_from rest feature
  end.

Definition resolve_photo_path (feature : Feature) : option string :=
  resolve_from ["photo_edited_path"; "photo_edited"] feature.

(** What the viewer shows. *)
Inductive Display : Type :=
| NoFeature            (* 編集済み画像: なし *)
| NotSaved             (* 編集済み画像: 未保存 ; the scene is cleared *)
| FileMissing (path : string)
| DecodeFailed (path : string)
| Showing (path : string).

(** [load_photo]; [exists_] and [decodes] stand for [os.path.exists] and a
    non-null [QImage]. *)
Definition load_photo (exists_ decodes : string -> bool)
    (feature : option Feature) : Display :=
  match feature with
  | None => NoFeature
  | Some f =>
      if negb (f_valid f) then NoFeature
      else match resolve_photo_path f with
           | None => NotSaved
           | Some photo_path =>
               if negb (exists_ photo_path) then FileMissing photo_path
               else if negb (decodes photo_path) then DecodeFailed photo_path
               else Showing photo_path
           end
  end.

(** A letter of the word NULL. *)
Definition is_NUL (c : ascii) : bool :=
  Ascii.eqb c "N" || Ascii.eqb c "U" || Ascii.eqb c "L".

(** The word NULL in any letter case. *)
Definition null_word (s : string) : bool :=
  match s with
  | String a (String b (String c (String d EmptyString))) =>
      (Ascii.eqb a "n" || Ascii.eqb a "N") && (Ascii.eqb b "u" || Ascii.eqb b "U")
      && (Ascii.eqb c "l" || Ascii.eqb c "L") && (Ascii.eqb d "l" || Ascii.eqb d "L")
  | _ => false
  end.

(** The contract of the viewer in the words of the specification: a field
    counts when the schema has it and its value is a text that, without the
    white space around it, is neither empty nor the word NULL in any letter
    case; the first of [photo_edited_path], [photo_edited] that counts gives
    the path. *)
Definition field_text (feature : Feature) (name : string) : option string :=
  match f_attrs feature !! name with
  | Some (VStr s) =>
      if String.eqb (strip s) "" || null_word (strip s) then None
      else Some (strip s)
  | _ => None
  end.

Definition first_present (feature : Feature) : option string :=
  match field_text feature "photo_edited_path" with
  | Some p => Some p
  | None => field_text feature "photo_edited"
  end.

Definition set_attribute (name : string) (v : value) (feature : Feature) : Feature :=
  mkFeature (f_id feature) (f_valid feature) (<[name := v]> (f_attrs feature)).

Definition drop_field (name : string) (feature : Feature) : Feature :=
  mkFeature (f_id feature) (f_valid feature) (delete name (f_attrs feature)).

End Viewer.

(* ------------------------------------------------------------------ *)
(** * photo_editor_widget.py: data *)

Module Editor.
Import Geometry Host.

(** [DrawingTool] *)
Inductive DrawingTool : Type :=
| SELECT | PEN | LINE | ARROW | RECT | ELLIPSE | TEXT.

#[global] Instance DrawingTool_eq_dec : EqDecision DrawingTool.
Proof. solve_decision. Defined.

Inductive MouseButton : Type :=
| LeftButton | RightButton | MiddleButton.

#[global] Instance MouseButton_eq_dec : EqDecision MouseButton.
Proof. solve_decision. Defined.

(** A colour by its name, as in [QColor('#FF0000')]. *)
Definition QColor : Type := string.

(** The pen of [_get_pen]; cap and join style are always round. *)
Record QPen : Type := mkPen { pen_color : QColor; pen_width : Z }.

Inductive QBrush : Type :=
| NoBrush
| TransparentBrush
| SolidBrush (color : QColor).

(** The graphics items the editor creates. *)
Inductive Shape : Type :=
| PathItem (path : list QPointF)
| LineItem (p1 p2 : QPointF)
| RectItem (rect : QRectF)
| EllipseItem (rect : QRectF)
| PolygonItem (polygon : list QPointF)
| TextItem (text : string) (point_size : Z) (color : QColor) (editable : bool)
| PixmapItem (width height : Z).

Record Item : Type := mkItem {
  it_shape : Shape;
  it_pen : option QPen;
  it_brush : QBrush;
  it_pos : QPointF;
  it_z : Z;
  it_selectable : bool;
  it_movable : bool;
  it_selected : bool
}.

(** Identity of a graphics item object. *)
Definition ItemId : Type := nat.

(** A pointer event: the button, the position already mapped to the scene
    ([self.mapToScene(event.pos())]), and what Qt's own handler does with the
    event when it is handed to [super()]: the new selection state and the new
    position of each item. *)
Record MouseEvent : Type := mkEvent {
  button : MouseButton;
  scene_pos : QPointF;
  qt_select : ItemId -> bool -> bool;
  qt_move : ItemId -> QPointF -> QPointF
}.

(** ** The message log *)

Inductive Level : Type := Info | Warning | Critical.

(** One constructor per [QgsMessageLog.logMessage] call, with the values the
    message is formatted from. *)
Inductive Message : Type :=
| MsgLine (p q : QPointF)                 (* 直線作成 *)
| MsgArrow (p q : QPointF)                (* 矢印作成 *)
| MsgRect (w h : float)                   (* 四角形作成 *)
| MsgEllipse (w h : float)                (* 楕円作成 *)
| MsgText (p : QPointF)                   (* テキスト追加 *)
| MsgDeleteClicked | MsgClearClicked | MsgSaveClicked | MsgColorClicked
| MsgToolButton (tool : DrawingTool)      (* ツールボタンクリック *)
| MsgToolChanged (tool : DrawingTool)     (* ツール変更 *)
| MsgColorChanged (color : QColor)        (* 色変更 *)
| MsgDeleted                              (* 選択アイテム削除 *)
| MsgCleared (count : nat)                (* 全描画削除 *)
| MsgItemCount (count : nat)              (* シーン内アイテム数 *)
| MsgItemInfo (index : nat) (item : Item)
| MsgSceneRect (w h : Z)                  (* シーン範囲 *)
| MsgRendered (null : bool) (w h : Z)     (* レンダリング完了 *)
| MsgDestination (path : string)          (* 保存先 *)
| MsgSaved (path : string)                (* 画像保存成功 *)
| MsgSaveError (text : string)            (* 画像保存エラー *)
| MsgTraceback (text : string)
| MsgFieldMissing                         (* photo_edited_path フィールドが存在しません *)
| MsgFieldUpdated (path : string)         (* photo_edited_path 更新 *)
| MsgFieldError (text : string)           (* フィールド更新エラー *)
| MsgSetFeature
| MsgLoadStart
| MsgFormFeatureError (text : string)
| MsgPathFound (field path : string)      (* 写真パス取得 *)
| MsgDecoded
| MsgLoaded (w h : Z)                     (* 画像読み込み成功 *)
| MsgLoadError (text : string).

(** ** The host's layer and the disk *)

(** A vector layer, as far as attribute edits go.  Attributes are addressed
    by feature id and field name (the source goes through the field index
    of that name). *)
Record Layer : Type := mkLayer {
  editable : bool;
  edit_buffer : gmap (Z * string) value;
  committed : gmap (Z * string) value
}.

Definition startEditing (l : Layer) : Layer :=
  mkLayer true (edit_buffer l) (committed l).

Definition changeAttributeValue (fid : Z) (field : string) (v : value) (l : Layer)
    : Layer :=
  if editable l then mkLayer true (<[(fid, field) := v]> (edit_buffer l)) (committed l)
  else l.

Definition commitChanges (l : Layer) : Layer :=
  if editable l then mkLayer false ∅ (edit_buffer l ∪ committed l) else l.

(** An image with what was painted on it, bottom first. *)
Record Image : Type := mkImage {
  im_width : Z;
  im_height : Z;
  im_painted : list Item
}.

Inductive File : Type :=
| ImageFile (format : string) (quality : Z) (image : Image)
| OtherFile.

(** ** The state *)

(** [PhotoGraphicsView] *)
Record View : Type := mkView {
  drawing : bool;
  start_point : option QPointF;
  current_item : option ItemId;
  pen_path : option (list QPointF);
  drag_rubber_band : bool
}.

(** [QGraphicsScene], together with the item objects that are alive.  An item
    that [clear()] removed is destroyed and leaves [heap]; one that
    [removeItem] removed stays alive. *)
Record Scene : Type := mkScene {
  heap : gmap ItemId Item;
  next_id : ItemId;
  members : list ItemId;
  scene_rect : option (Z * Z * Z * Z)
}.

Record Status : Type := mkStatus { st_text : string; st_style : string }.

(** [PhotoEditorWidget] *)
Record Widget : Type := mkWidget {
  pixmap_item : option ItemId;
  status_label : Status;
  current_photo_path : option string;
  _current_feature : option Feature;
  current_tool : DrawingTool;
  current_color : QColor;
  line_width : Z
}.

(** What lies outside the widget.  [mkdir_error] and [write_ok] say which
    directory creations fail (and with which message) and which files can be
    written.  [libm_pow] is the [pow] of the C library, which Python calls
    for [**] on floats: its results are close to the exact power but are not
    always the nearest binary64 number, and differ between libraries. *)
Record World : Type := mkWorld {
  disk : gmap string File;
  dirs : gset string;
  layer : option Layer;
  messages : list (Level * Message);
  mkdir_error : string -> option string;
  write_ok : string -> bool;
  libm_pow : float -> float -> float
}.

Record St : Type := mkSt {
  view : View;
  scene : Scene;
  widget : Widget;
  world : World
}.

Definition upd_view (f : View -> View) (st : St) : St :=
  mkSt (f (view st)) (scene st) (widget st) (world st).
Definition upd_scene (f : Scene -> Scene) (st : St) : St :=
  mkSt (view st) (f (scene st)) (widget st) (world st).
Definition upd_widget (f : Widget -> Widget) (st : St) : St :=
  mkSt (view st) (scene st) (f (widget st)) (world st).
Definition upd_world (f : World -> World) (st : St) : St :=
  mkSt (view st) (scene st) (widget st) (f (world st)).

Definition with_drawing (b : bool) (v : View) : View :=
  mkView b (start_point v) (current_item v) (pen_path v) (drag_rubber_band v).
Definition with_start_point (p : option QPointF) (v : View) : View :=
  mkView (drawing v) p (current_item v) (pen_path v) (drag_rubber_band v).
Definition with_current_item (i : option ItemId) (v : View) : View :=
  mkView (drawing v) (start_point v) i (pen_path v) (drag_rubber_band v).
Definition with_pen_path (p : option (list QPointF)) (v : View) : View :=
  mkView (drawing v) (start_point v) (current_item v) p (drag_rubber_band v).
Definition with_drag_mode (b : bool) (v : View) : View :=
  mkView (drawing v) (start_point v) (current_item v) (pen_path v) b.

Definition with_heap (h : gmap ItemId Item) (s : Scene) : Scene :=
  mkScene h (next_id s) (members s) (scene_rect s).
Definition with_members (m : list ItemId) (s : Scene) : Scene :=
  mkScene (heap s) (next_id s) m (scene_rect s).
Definition with_scene_rect (r : option (Z * Z * Z * Z)) (s : Scene) : Scene :=
  mkScene (heap s) (next_id s) (members s) r.

Definition with_pixmap_item (i : option ItemId) (w : Widget) : Widget :=
  mkWidget i (status_label w) (current_photo_path w) (_current_feature w)
           (current_tool w) (current_color w) (line_width w).
Definition with_status (s : Status) (w : Widget) : Widget :=
  mkWidget (pixmap_item w) s (current_photo_path w) (_current_feature w)
           (current_tool w) (current_color w) (line_width w).
Definition with_photo_path (p : option string) (w : Widget) : Widget :=
  mkWidget (pixmap_item w) (status_label w) p (_current_feature w)
           (current_tool w) (current_color w) (line_width w).
Definition with_feature (f : option Feature) (w : Widget) : Widget :=
  mkWidget (pixmap_item w) (status_label w) (current_photo_path w) f
           (current_tool w) (current_color w) (line_width w).
Definition with_tool (t : DrawingTool) (w : Widget) : Widget :=
  mkWidget (pixmap_item w) (status_label w) (current_photo_path w) (_current_feature w)
           t (current_color w) (line_width w).
Definition with_color (c : QColor) (w : Widget) : Widget :=
  mkWidget (pixmap_item w) (status_label w) (current_photo_path w) (_current_feature w)
           (current_tool w) c (line_width w).
Definition with_line_width (n : Z) (w : Widget) : Widget :=
  mkWidget (pixmap_item w) (status_label w) (current_photo_path w) (_current_feature w)
           (current_tool w) (current_color w) n.

Definition with_disk (d : gmap string File) (w : World) : World :=
  mkWorld d (dirs w) (layer w) (messages w) (mkdir_error w) (write_ok w) (libm_pow w).
Definition with_dirs (d : gset string) (w : World) : World :=
  mkWorld (disk w) d (layer w) (messages w) (mkdir_error w) (write_ok w) (libm_pow w).
Definition with_layer (l : option Layer) (w : World) : World :=
  mkWorld (disk w) (dirs w) l (messages w) (mkdir_error w) (write_ok w) (libm_pow w).
Definition with_messages (m : list (Level * Message)) (w : World) : World :=
  mkWorld (disk w) (dirs w) (layer w) m (mkdir_error w) (write_ok w) (libm_pow w).

(** ** Python exceptions and the monad of the methods *)

Inductive Exn : Type :=
| TypeError            (* a [None] where a point is needed, a complex number
                          where a real one is *)
| AttributeError       (* a method the item's class does not have *)
| RuntimeError         (* the wrapped C++ object has been deleted *)
| OverflowError (text : string)
| ZeroDivisionError (text : string)
| OSError (text : string)
| PlainException (text : string).

(** [str(e)] *)
Definition exn_str (e : Exn) : string :=
  match e with
  | TypeError => "TypeError"
  | AttributeError => "AttributeError"
  | RuntimeError => "wrapped C/C++ object has been deleted"
  | OverflowError text => text
  | ZeroDivisionError text => text
  | OSError text => text
  | PlainException text => text
  end.

Inductive Outcome (A : Type) : Type :=
| Ok (a : A) (st : St)
| Raised (e : Exn) (st : St).
Arguments Ok {A} a st.
Arguments Raised {A} e st.

Definition M (A : Type) : Type := St -> Outcome A.

Definition ret {A} (a : A) : M A := fun st => Ok a st.
Definition bind {A B} (m : M A) (k : A -> M B) : M B :=
  fun st => match m st with
            | Ok a st' => k a st'
            | Raised e st' => Raised e st'
            end.
Definition raise {A} (e : Exn) : M A := fun st => Raised e st.
Definition get : M St := fun st => Ok st st.
Definition modify (f : St -> St) : M unit := fun st => Ok tt (f st).

(** [try: body  except Exception as e: handler(e)] *)
Definition try_except {A} (body : M A) (handler : Exn -> M A) : M A :=
  fun st => match body st with
            | Ok a st' => Ok a st'
            | Raised e st' => handler e st'
            end.

Definition final_state {A} (o : Outcome A) : St :=
  match o with Ok _ st => st | Raised _ st => st end.

Declare Scope py_scope.
Delimit Scope py_scope with py.
Notation "x <- c1 ;; c2" := (bind c1 (fun x => c2))
  (at level 100, c1 at next level, c2 at level 200, right associativity) : py_scope.
Notation "c1 ;; c2" := (bind c1 (fun _ => c2))
  (at level 100, c2 at level 200, right associativity) : py_scope.
#[local] Open Scope py_scope.

(** [for x in xs: body(x)] *)
Fixpoint for_each {A} (xs : list A) (body : A -> M unit) : M unit :=
  match xs with
  | [] => ret tt
  | x :: xs' => body x ;; for_each xs' body
  end.

(** [QgsMessageLog.logMessage(msg, "PhotoEditor", level)] *)
Definition logMessage (msg : Message) (level : Level) : M unit :=
  modify (upd_world (fun w => with_messages (messages w ++ [(level, msg)]) w)).

Definition setStatus (text style : string) : M unit :=
  modify (upd_widget (with_status (mkStatus text style))).

(* ------------------------------------------------------------------ *)
(** * photo_editor_widget.py: QGraphicsScene *)

(** A new item object. *)
Definition new_item (it : Item) : M ItemId :=
  fun st =>
    let id := next_id (scene st) in
    Ok id (upd_scene (fun sc =>
             mkScene (<[id := it]> (heap sc)) (S id) (members sc) (scene_rect sc)) st).

(** Any use of an item object goes through its wrapper. *)
Definition wrapped (id : ItemId) : M Item :=
  st <- get ;;
  match heap (scene st) !! id with
  | Some it => ret it
  | None => raise RuntimeError
  end.

Definition in_scene (id : ItemId) (sc : Scene) : bool :=
  existsb (Nat.eqb id) (members sc).

(** [scene.addItem(item)]; adding an item that is already in the scene only
    prints a warning. *)
Definition addItem (id : ItemId) : M unit :=
  _ <- wrapped id ;;
  modify (upd_scene (fun sc =>
    if in_scene id sc then sc else with_members (members sc ++ [id]) sc)).

(** [scene.removeItem(item)]; removing an item that is not in the scene only
    prints a warning. *)
Definition removeItem (id : ItemId) : M unit :=
  _ <- wrapped id ;;
  modify (upd_scene (fun sc =>
    with_members (List.filter (fun x => negb (Nat.eqb x id)) (members sc)) sc)).

(** [scene.clear()]: every item of the scene is removed and destroyed. *)
Definition scene_clear : M unit :=
  modify (upd_scene (fun sc =>
    with_members [] (with_heap (foldr delete (heap sc) (members sc)) sc))).

Definition z_of (h : gmap ItemId Item) (id : ItemId) : Z :=
  match h !! id with Some it => it_z it | None => 0%Z end.

Fixpoint insert_by_z (h : gmap ItemId Item) (id : ItemId) (l : list ItemId)
    : list ItemId :=
  match l with
  | [] => [id]
  | x :: l' => if (z_of h id <? z_of h x)%Z then id :: l else x :: insert_by_z h id l'
  end.

(** The items from the back to the front: by z value, and for equal z values
    in the order they were added. *)
Definition stacking_order (sc : Scene) : list ItemId :=
  fold_left (fun acc id => insert_by_z (heap sc) id acc) (members sc) [].

(** [scene.items()]: front first. *)
Definition scene_items : M (list ItemId) :=
  st <- get ;; ret (List.rev (stacking_order (scene st))).

(** [scene.selectedItems()] *)
Definition selectedItems : M (list ItemId) :=
  st <- get ;;
  ret (List.filter (fun id => match heap (scene st) !! id with
                              | Some it => it_selected it
                              | None => false
                              end) (members (scene st))).

(** [scene.sceneRect()]: the rectangle set by [setSceneRect]; while none has
    been set Qt derives one from the items, which is not modelled. *)
Definition sceneRect : M (Z * Z * Z * Z) :=
  st <- get ;; ret (default (0, 0, 0, 0)%Z (scene_rect (scene st))).

(** [item.setPath(path)], a method of path items only. *)
Definition setPath (id : ItemId) (path : list QPointF) : M unit :=
  it <- wrapped id ;;
  match it_shape it with
  | PathItem _ =>
      modify (upd_scene (fun sc =>
        with_heap (<[id := mkItem (PathItem path) (it_pen it) (it_brush it) (it_pos it)
                              (it_z it) (it_selectable it) (it_movable it)
                              (it_selected it)]> (heap sc)) sc))
  | _ => raise AttributeError
  end.

(** What [super().mouse...Event(event)] does to one item: only a selectable
    item changes its selection, only a movable item its position. *)
Definition qt_update (event : MouseEvent) (id : ItemId) (it : Item) : Item :=
  mkItem (it_shape it) (it_pen it) (it_brush it)
         (if it_movable it then qt_move event id (it_pos it) else it_pos it)
         (it_z it) (it_selectable it) (it_movable it)
         (if it_selectable it then qt_select event id (it_selected it)
          else it_selected it).

Definition super_mouseEvent (event : MouseEvent) : M unit :=
  modify (upd_scene (fun sc =>
    with_heap (foldr (fun id h => alter (qt_update event id) id h)
                     (heap sc) (members sc)) sc)).

(* ------------------------------------------------------------------ *)
(** * photo_editor_widget.py: PhotoGraphicsView *)

Definition origin : QPointF := mkPoint 0 0.

(** An item as the previews and the pen stroke are built: no flag set. *)
Definition plain_item (shape : Shape) (pen : QPen) (brush : QBrush) : Item :=
  mkItem shape (Some pen) brush origin 0 false false false.

(** An item with [ItemIsSelectable] and [ItemIsMovable] set. *)
Definition finished_item (shape : Shape) (pen : QPen) (brush : QBrush) : Item :=
  mkItem shape (Some pen) brush origin 0 true true false.

(** [self.start_point] where a point is required. *)
Definition the_start_point : M QPointF :=
  st <- get ;;
  match start_point (view st) with
  | Some p => ret p
  | None => raise TypeError
  end.

(** [if self.current_item: self.scene().removeItem(self.current_item)] *)
Definition remove_current_item : M unit :=
  st <- get ;;
  match current_item (view st) with
  | Some id => removeItem id
  | None => ret tt
  end.

Definition _get_pen : M QPen :=
  st <- get ;;
  ret (mkPen (current_color (widget st)) (line_width (widget st))).

Definition _start_pen_drawing : M unit :=
  modify (upd_view (with_pen_path (Some []))) ;;
  start <- the_start_point ;;
  modify (upd_view (with_pen_path (Some [start]))) ;;
  pen <- _get_pen ;;
  item <- new_item (plain_item (PathItem [start]) pen NoBrush) ;;
  modify (upd_view (with_current_item (Some item))) ;;
  addItem item.

Definition _continue_pen_drawing (point : QPointF) : M unit :=
  st <- get ;;
  match pen_path (view st), current_item (view st) with
  | Some path, Some id =>
      modify (upd_view (with_pen_path (Some (path ++ [point])%list))) ;;
      setPath id (path ++ [point])%list
  | _, _ => ret tt
  end.

Definition _finish_pen_drawing : M unit :=
  modify (upd_view (with_pen_path None)).

Definition _update_shape_preview (current_point : QPointF) : M unit :=
  remove_current_item ;;
  st <- get ;;
  let tool := current_tool (widget st) in
  pen <- _get_pen ;;
  match tool with
  | LINE | ARROW =>
      start <- the_start_point ;;
      item <- new_item (plain_item (LineItem start current_point) pen NoBrush) ;;
      modify (upd_view (with_current_item (Some item)))
  | RECT =>
      start <- the_start_point ;;
      let rect := normalized (rect_of_points start current_point) in
      item <- new_item (plain_item (RectItem rect) pen TransparentBrush) ;;
      modify (upd_view (with_current_item (Some item)))
  | ELLIPSE =>
      start <- the_start_point ;;
      let rect := normalized (rect_of_points start current_point) in
      item <- new_item (plain_item (EllipseItem rect) pen TransparentBrush) ;;
      modify (upd_view (with_current_item (Some item)))
  | _ => ret tt
  end ;;
  st <- get ;;
  match current_item (view st) with
  | Some id => addItem id
  | None => ret tt
  end.

Definition _create_line (end_point : QPointF) : M unit :=
  remove_current_item ;;
  start <- the_start_point ;;
  pen <- _get_pen ;;
  line <- new_item (finished_item (LineItem start end_point) pen NoBrush) ;;
  addItem line ;;
  logMessage (MsgLine start end_point) Info.

(** [x == floor(x)] *)
Definition is_integer (x : float) : bool :=
  match Prim2SF x with
  | S754_zero _ | S754_infinity _ => true
  | S754_nan => false
  | S754_finite _ m e => (0 <=? e)%Z || (Zpos m mod 2 ^ (- e) =? 0)%Z
  end.

(** [DOUBLE_IS_ODD_INTEGER(x)]: [fmod(fabs(x), 2.0) == 1.0]. *)
Definition is_odd_integer (x : float) : bool :=
  match Prim2SF x with
  | S754_finite _ m e =>
      if (0 <? e)%Z then false
      else (Zpos m mod 2 ^ (- e) =? 0)%Z && Z.odd (Zpos m / 2 ^ (- e))
  | _ => false
  end.

(** The result of [v ** w] on floats. *)
Inductive Power : Type :=
| PowFloat (x : float)
| PowComplex                  (* a negative base with a fractional exponent *)
| PowRaises (e : Exn).

(** [float.__pow__], CPython's [float_pow]: the special cases are sorted out
    first, and the C library's [pow] does the rest, for a finite positive
    base other than 1 and a finite exponent other than 0.  An infinite
    result of the library is an overflow; of the range errors the library
    can report, this is the only one that is kept. *)
Definition float_pow (pow : float -> float -> float) (iv iw : float) : Power :=
  (if iw =? 0 then PowFloat 1
   else if is_nan iv then PowFloat iv
   else if is_nan iw then PowFloat (if iv =? 1 then 1 else iw)
   else if is_infinity iw then
     let iv := abs iv in
     if iv =? 1 then PowFloat 1
     else if Bool.eqb (0 <? iw) (1 <? iv) then PowFloat (abs iw)
     else PowFloat 0
   else if is_infinity iv then
     let iw_is_odd := is_odd_integer iw in
     if 0 <? iw then PowFloat (if iw_is_odd then iv else abs iv)
     else PowFloat (if iw_is_odd then (if iv <? 0 then -0 else 0) else 0)
   else if iv =? 0 then
     let iw_is_odd := is_odd_integer iw in
     if iw <? 0 then
       PowRaises (ZeroDivisionError "0.0 cannot be raised to a negative power")
     else PowFloat (if iw_is_odd then iv else 0)
   else if (iv <? 0) && negb (is_integer iw) then PowComplex
   else
     let negate_result := (iv <? 0) && is_odd_integer iw in
     let iv := if iv <? 0 then - iv else iv in
     if iv =? 1 then PowFloat (if negate_result then -1 else 1)
     else
       let ix := pow iv iw in
       if is_infinity ix then
         PowRaises (OverflowError "(34, 'Numerical result out of range')")
       else PowFloat (if negate_result then - ix else ix))%float.

(** [v ** w] where a real number is expected.  The complex number that a
    negative base gives under a fractional exponent is rejected with a
    TypeError by the comparison [length > 0], the first use of the result;
    nothing happens in between. *)
Definition power (iv iw : float) : M float :=
  st <- get ;;
  match float_pow (libm_pow (world st)) iv iw with
  | PowFloat x => ret x
  | PowComplex => raise TypeError
  | PowRaises e => raise e
  end.

(** The float of an [int]: the nearest binary64 number, ties to even, and
    none when that is out of range. *)
Definition float_of_int (n : Z) : option float :=
  let x := SF2Prim (binary_normalize prec emax n 0 false) in
  if is_infinity x then None else Some x.

(** The conversion of an [int] operand in mixed arithmetic. *)
Definition int_to_float (n : Z) : M float :=
  match float_of_int n with
  | Some x => ret x
  | None => raise (OverflowError "int too large to convert to float")
  end.

Definition _create_arrow (end_point : QPointF) : M unit :=
  remove_current_item ;;
  pen <- _get_pen ;;
  start <- the_start_point ;;
  line <- new_item (finished_item (LineItem start end_point) pen NoBrush) ;;
  addItem line ;;
  st <- get ;;
  let arrow_size := (line_width (widget st) * 4)%Z in
  let dx := (px end_point - px start)%float in
  let dy := (py end_point - py start)%float in
  dx2 <- power dx 2 ;;
  dy2 <- power dy 2 ;;
  length <- power (dx2 + dy2) 0.5 ;;
  (if (0 <? length)%float then
     arrow_size <- int_to_float arrow_size ;;
     let '(c2, c3) :=
       arrow_corners (px end_point) (py end_point) arrow_size dx dy length in
     let p1 := end_point in
     let p2 := mkPoint (fst c2) (snd c2) in
     let p3 := mkPoint (fst c3) (snd c3) in
     arrow_item <- new_item (finished_item (PolygonItem [p1; p2; p3]) pen
                                           (SolidBrush (current_color (widget st)))) ;;
     addItem arrow_item
   else ret tt) ;;
  logMessage (MsgArrow start end_point) Info.

Definition _create_rect (end_point : QPointF) : M unit :=
  remove_current_item ;;
  start <- the_start_point ;;
  let rect := normalized (rect_of_points start end_point) in
  pen <- _get_pen ;;
  rect_item <- new_item (finished_item (RectItem rect) pen TransparentBrush) ;;
  addItem rect_item ;;
  logMessage (MsgRect (rw rect) (rh rect)) Info.

Definition _create_ellipse (end_point : QPointF) : M unit :=
  remove_current_item ;;
  start <- the_start_point ;;
  let rect := normalized (rect_of_points start end_point) in
  pen <- _get_pen ;;
  ellipse_item <- new_item (finished_item (EllipseItem rect) pen TransparentBrush) ;;
  addItem ellipse_item ;;
  logMessage (MsgEllipse (rw rect) (rh rect)) Info.

Definition _add_text : M unit :=
  st <- get ;;
  start <- the_start_point ;;
  let text_item :=
    mkItem (TextItem "テキスト" (line_width (widget st) * 4)
                     (current_color (widget st)) true)
           None NoBrush start 0 true true false in
  id <- new_item text_item ;;
  addItem id ;;
  logMessage (MsgText start) Info.

(** The truth value of [self.start_point]. *)
Definition point_truthy (p : option QPointF) : bool :=
  match p with
  | Some p => negb (isNull p)
  | None => false
  end.

Definition mousePressEvent (event : MouseEvent) : M unit :=
  st <- get ;;
  let tool := current_tool (widget st) in
  if decide (tool = SELECT) then super_mouseEvent event
  else if decide (button event = LeftButton) then
    modify (upd_view (with_drawing true)) ;;
    modify (upd_view (with_start_point (Some (scene_pos event)))) ;;
    match tool with
    | PEN => _start_pen_drawing
    | TEXT => _add_text ;; modify (upd_view (with_drawing false))
    | _ => ret tt
    end
  else ret tt.

Definition mouseMoveEvent (event : MouseEvent) : M unit :=
  st <- get ;;
  let tool := current_tool (widget st) in
  if decide (tool = SELECT) then super_mouseEvent event
  else if drawing (view st) && point_truthy (start_point (view st)) then
    let current_point := scene_pos event in
    match tool with
    | PEN => _continue_pen_drawing current_point
    | LINE | ARROW | RECT | ELLIPSE => _update_shape_preview current_point
    | _ => ret tt
    end
  else ret tt.

Definition mouseReleaseEvent (event : MouseEvent) : M unit :=
  st <- get ;;
  let tool := current_tool (widget st) in
  if decide (tool = SELECT) then super_mouseEvent event
  else if drawing (view st) && bool_decide (button event = LeftButton) then
    let end_point := scene_pos event in
    match tool with
    | PEN => _finish_pen_drawing
    | LINE => _create_line end_point
    | ARROW => _create_arrow end_point
    | RECT => _create_rect end_point
    | ELLIPSE => _create_ellipse end_point
    | _ => ret tt
    end ;;
    modify (upd_view (with_drawing false)) ;;
    modify (upd_view (with_start_point None)) ;;
    modify (upd_view (with_current_item None))
  else ret tt.

(* ------------------------------------------------------------------ *)
(** * photo_editor_widget.py: PhotoEditorWidget *)

Definition _set_tool (tool : DrawingTool) : M unit :=
  modify (upd_widget (with_tool tool)) ;;
  (if decide (tool = SELECT) then modify (upd_view (with_drag_mode true))
   else modify (upd_view (with_drag_mode false))) ;;
  logMessage (MsgToolChanged tool) Info.

(** [button] is the button of [tool] in [self.tool_buttons]. *)
Definition _on_tool_button_clicked (tool : DrawingTool) : M unit :=
  logMessage (MsgToolButton tool) Info ;;
  _set_tool tool.

(** [picked] is the colour the dialog returns, [None] when it is not valid. *)
Definition _choose_color (picked : option QColor) : M unit :=
  match picked with
  | Some color =>
      modify (upd_widget (with_color color)) ;;
      logMessage (MsgColorChanged color) Info
  | None => ret tt
  end.

Definition _set_line_width (width : Z) : M unit :=
  modify (upd_widget (with_line_width width)).

(** [item != self.pixmap_item] *)
Definition is_not_pixmap (st : St) (item : ItemId) : bool :=
  negb (bool_decide (pixmap_item (widget st) = Some item)).

Definition _delete_selected : M unit :=
  selected <- selectedItems ;;
  for_each selected (fun item =>
    st <- get ;;
    if is_not_pixmap st item then removeItem item else ret tt) ;;
  logMessage MsgDeleted Info.

Definition _clear_drawings : M unit :=
  all_items <- scene_items ;;
  st <- get ;;
  let items_to_remove := List.filter (is_not_pixmap st) all_items in
  for_each items_to_remove removeItem ;;
  logMessage (MsgCleared (List.length items_to_remove)) Info.

(** The destination of [_save_image] for the source path
    [self.current_photo_path]. *)
Definition edited_path_of (current_photo_path : string) : PosixPath.t :=
  let original_path := PosixPath.of_string current_photo_path in
  let original_path_str := PosixPath.to_string original_path in
  if Str.contains "/original/" original_path_str then
    let edited_path_str := Str.replace "/original/" "/edited/" original_path_str in
    PosixPath.of_string edited_path_str
  else
    let edited_dir :=
      PosixPath.joinpath (PosixPath.parent (PosixPath.parent original_path)) "edited" in
    PosixPath.joinpath edited_dir (PosixPath.name original_path).

(** [edited_path.parent.mkdir(parents=True, exist_ok=True)] *)
Definition mkdir_parents (dir : PosixPath.t) : M unit :=
  st <- get ;;
  match mkdir_error (world st) (PosixPath.to_string dir) with
  | Some text => raise (OSError text)
  | None =>
      let made := List.map PosixPath.to_string (dir :: PosixPath.parents dir) in
      modify (upd_world (fun w => with_dirs (dirs w ∪ list_to_set made) w))
  end.

Definition image_isNull (image : Image) : bool :=
  (im_width image <=? 0)%Z || (im_height image <=? 0)%Z.

(** [image.save(path, format, quality)] *)
Definition image_save (path format : string) (quality : Z) (image : Image) : M bool :=
  st <- get ;;
  if negb (image_isNull image) && write_ok (world st) path then
    modify (upd_world (fun w =>
      with_disk (<[path := ImageFile format quality image]> (disk w)) w)) ;;
    ret true
  else ret false.

(** [layer] stands for [self.layer()]. *)
Definition _update_edited_path_field (edited_path : string) : M unit :=
  try_except
    (st <- get ;;
     match _current_feature (widget st) with
     | None => ret tt
     | Some feature =>
         match layer (world st) with
         | None => ret tt
         | Some layer0 =>
             if negb (has_field feature "photo_edited_path") then
               logMessage MsgFieldMissing Warning
             else
               let was_editing := editable layer0 in
               let layer1 := if negb was_editing then startEditing layer0 else layer0 in
               let layer2 :=
                 changeAttributeValue (f_id feature) "photo_edited_path"
                                      (VStr edited_path) layer1 in
               let layer3 := if negb was_editing then commitChanges layer2 else layer2 in
               modify (upd_world (with_layer (Some layer3))) ;;
               logMessage (MsgFieldUpdated edited_path) Info
         end
     end)
    (fun e => logMessage (MsgFieldError (exn_str e)) Warning).

Definition _save_image : M unit :=
  st <- get ;;
  match current_photo_path (widget st) with
  | None | Some EmptyString =>
      setStatus "⚠ 保存する画像がありません" "color: #FF9500;"
  | Some photo_path =>
      try_except
        (all_items <- scene_items ;;
         logMessage (MsgItemCount (List.length all_items)) Info ;;
         for_each (List.combine (List.seq 0 (List.length all_items)) all_items)
                  (fun '(i, id) => item <- wrapped id ;;
                                   logMessage (MsgItemInfo i item) Info) ;;
         rect <- sceneRect ;;
         let '(_, _, rect_w, rect_h) := rect in
         logMessage (MsgSceneRect rect_w rect_h) Info ;;
         let width := rect_w in
         let height := rect_h in
         st <- get ;;
         let painted :=
           omap (fun id => heap (scene st) !! id) (stacking_order (scene st)) in
         let pixmap :=
           if (width <=? 0)%Z || (height <=? 0)%Z then mkImage 0 0 []
           else mkImage width height painted in
         logMessage (MsgRendered (image_isNull pixmap) (im_width pixmap) (im_height pixmap))
                    Info ;;
         let edited_path := edited_path_of photo_path in
         mkdir_parents (PosixPath.parent edited_path) ;;
         logMessage (MsgDestination (PosixPath.to_string edited_path)) Info ;;
         let image := pixmap in
         saved <- image_save (PosixPath.to_string edited_path) "JPEG" 90 image ;;
         if saved then
           setStatus ("✓ 保存完了: " +:+ PosixPath.name edited_path) "color: #34C759;" ;;
           logMessage (MsgSaved (PosixPath.to_string edited_path)) Info ;;
           _update_edited_path_field (PosixPath.to_string edited_path)
         else raise (PlainException "画像保存に失敗"))
        (fun e =>
           setStatus ("❌ 保存エラー: " +:+ exn_str e) "color: #FF3B30;" ;;
           logMessage (MsgSaveError (exn_str e)) Critical ;;
           logMessage (MsgTraceback (exn_str e)) Critical)
  end.

Definition _get_photo_path (feature : Feature) : M (option string) :=
  let path_fields := ["photo_original_path"; "photo_path"] in
  (fix loop (names : list string) : M (option string) :=
     match names with
     | [] => ret None
     | field_name :: rest =>
         if has_field feature field_name then
           let path := attribute feature field_name in
           if truthy path && negb (String.eqb (strip (str path)) "") then
             let photo_path := strip (str path) in
             logMessage (MsgPathFound field_name photo_path) Info ;;
             ret (Some photo_path)
           else loop rest
         else loop rest
     end) path_fields.

(** [os.path.exists(path)] *)
Definition path_exists (w : World) (path : string) : bool :=
  bool_decide (is_Some (disk w !! path)) || bool_decide (path ∈ dirs w).

(** [os.path.basename(path)] *)
Definition basename (path : string) : string :=
  List.last (PosixPath.split path) "".

(** The size of the pixmap, [None] for the [None] the source returns. *)
Definition _load_image_as_pixmap (photo_path : string) : M (option (Z * Z)) :=
  st <- get ;;
  match disk (world st) !! photo_path with
  | Some (ImageFile _ _ image) =>
      if image_isNull image then ret None
      else logMessage MsgDecoded Info ;;
           ret (Some (im_width image, im_height image))
  | _ => ret None
  end.

(** What [self.formFeature()] does. *)
Inductive FormFeature : Type :=
| FormFeatureReturns (feature : Feature)
| FormFeatureMissing                       (* AttributeError *)
| FormFeatureFails (text : string).        (* any other exception *)

Definition load_photo (form_feature : FormFeature) : M unit :=
  logMessage MsgLoadStart Info ;;
  try_except
    (feature <-
       match form_feature with
       | FormFeatureReturns f => ret (Some f)
       | FormFeatureMissing => st <- get ;; ret (_current_feature (widget st))
       | FormFeatureFails text =>
           logMessage (MsgFormFeatureError text) Warning ;; ret None
       end ;;
     match feature with
     | Some f =>
         if negb (f_valid f) then
           setStatus "⚠ 地物が選択されていません" "color: #FF9500;"
         else
           found <- _get_photo_path f ;;
           match found with
           | None => setStatus "⚠ 写真パスが取得できません" "color: #FF9500;"
           | Some photo_path =>
               st <- get ;;
               if negb (path_exists (world st) photo_path) then
                 setStatus "❌ ファイルが見つかりません" "color: #FF3B30;"
               else
                 pixmap <- _load_image_as_pixmap photo_path ;;
                 match pixmap with
                 | None => setStatus "❌ 画像の読み込みに失敗" "color: #FF3B30;"
                 | Some (w, h) =>
                     scene_clear ;;
                     id <- new_item (mkItem (PixmapItem w h) None NoBrush origin (-1)
                                            false false false) ;;
                     modify (upd_widget (with_pixmap_item (Some id))) ;;
                     addItem id ;;
                     modify (upd_scene (with_scene_rect (Some (0, 0, w, h)%Z))) ;;
                     modify (upd_widget (with_photo_path (Some photo_path))) ;;
                     setStatus ("✓ " +:+ basename photo_path) "color: #34C759;" ;;
                     logMessage (MsgLoaded w h) Info
                 end
           end
     | None => setStatus "⚠ 地物が選択されていません" "color: #FF9500;"
     end)
    (fun e =>
       setStatus ("❌ エラー: " +:+ exn_str e) "color: #FF3B30;" ;;
       logMessage (MsgLoadError (exn_str e)) Critical).

Definition setFeature (feature : Feature) (form_feature : FormFeature) : M unit :=
  modify (upd_widget (with_feature (Some feature))) ;;
  logMessage MsgSetFeature Info ;;
  load_photo form_feature.

Definition _on_delete_clicked : M unit :=
  logMessage MsgDeleteClicked Info ;; _delete_selected.

Definition _on_clear_clicked : M unit :=
  logMessage MsgClearClicked Info ;; _clear_drawings.

Definition _on_save_clicked : M unit :=
  logMessage MsgSaveClicked Info ;; _save_image.

Definition _on_color_clicked (picked : option QColor) : M unit :=
  logMessage MsgColorClicked Info ;; _choose_color picked.

(** ** The widget as driven by its host and its user *)

Inductive Action : Type :=
| Press (event : MouseEvent)
| Move (event : MouseEvent)
| Release (event : MouseEvent)
| ToolButton (tool : DrawingTool)
| WidthChanged (width : Z)
| ColorClicked (picked : option QColor)
| DeleteClicked
| ClearClicked
| SaveClicked
| FeatureSet (feature : Feature) (form_feature : FormFeature).

Definition handle (a : Action) : M unit :=
  match a with
  | Press e => mousePressEvent e
  | Move e => mouseMoveEvent e
  | Release e => mouseReleaseEvent e
  | ToolButton tool => _on_tool_button_clicked tool
  | WidthChanged width => _set_line_width width
  | ColorClicked picked => _on_color_clicked picked
  | DeleteClicked => _on_delete_clicked
  | ClearClicked => _on_clear_clicked
  | SaveClicked => _on_save_clicked
  | FeatureSet feature form_feature => setFeature feature form_feature
  end.

(** The action is a record being bound, the only one that loads a photo. *)
Definition is_load (a : Action) : bool :=
  match a with
  | FeatureSet _ _ => true
  | _ => false
  end.

(** An exception that leaves a handler is reported by the host; the state
    stays as the handler left it. *)
Definition step (st : St) (a : Action) : St := final_state (handle a st).

Definition run (actions : list Action) (st : St) : St := fold_left step actions st.

(** The widget after [__init__], [createWidget] and [initWidget]. *)
Definition init (w : World) : St :=
  mkSt (mkView false None None None false)
       (mkScene ∅ 0 [] None)
       (mkWidget None (mkStatus "✓ 初期化完了" "color: #666; font-size: 11px;")
                 None None SELECT "#FF0000" 3)
       w.

(** The items of the scene in insertion order. *)
Definition scene_contents (st : St) : list Item :=
  omap (fun id => heap (scene st) !! id) (members (scene st)).

(** ** Sample data *)

Definition sample_feature : Feature :=
  mkFeature 1 true {[ "photo_original_path" := VStr "/data/original/BLD001-girder_01.jpg" ]}.

(** A C library whose [pow] gives the nearest binary64 number for the two
    powers the editor takes, the square and the square root. *)
Definition rounded_pow (x y : float) : float :=
  (if y =? 2 then x * x else if y =? 0.5 then sqrt x else nan)%float.

(** A disk with one 800 x 600 photo; every directory can be made and every
    file written. *)
Definition sample_world : World :=
  mkWorld {[ "/data/original/BLD001-girder_01.jpg" := ImageFile "JPEG" 90 (mkImage 800 600 []) ]}
          ∅ (Some (mkLayer false ∅ ∅)) [] (fun _ => None) (fun _ => true) rounded_pow.

Definition quiet_event (b : MouseButton) (x y : float) : MouseEvent :=
  mkEvent b (mkPoint x y) (fun _ sel => sel) (fun _ p => p).

(** The widget after the sample photo has been loaded. *)
Definition sample_loaded : St :=
  run [FeatureSet sample_feature (FormFeatureReturns sample_feature)] (init sample_world).

(** The arrow tool chosen and the left button pressed at the origin. *)
Definition arrow_drag : St :=
  run [ToolButton ARROW; Press (quiet_event LeftButton 0 0)] sample_loaded.

(** The line tool chosen and the left button pressed at (1, 1). *)
Definition line_drag : St :=
  run [ToolButton LINE; Press (quiet_event LeftButton 1 1)] sample_loaded.

(** The rectangle tool chosen and the left button pressed at (50, 50). *)
Definition rect_drag : St :=
  run [ToolButton RECT; Press (quiet_event LeftButton 50 50)] sample_loaded.

(** The arrow tool chosen, the width set to 1 and the left button pressed
    at the origin. *)
Definition thin_arrow_drag : St :=
  run [ToolButton ARROW; WidthChanged 1; Press (quiet_event LeftButton 0 0)] sample_loaded.

(** The rectangle tool chosen and the left button pressed at (0.4, 0.4). *)
Definition fraction_drag : St :=
  run [ToolButton RECT; Press (quiet_event LeftButton 0.4 0.4)] sample_loaded.

(** The shapes of the scene in insertion order. *)
Definition scene_shapes (st : St) : list Shape :=
  List.map it_shape (scene_contents st).

(** ** Invariants *)

(** The scene without the items [ids]. *)
Definition without (ids : list ItemId) (sc : Scene) : Scene :=
  with_members (List.filter (fun x => negb (existsb (Nat.eqb x) ids)) (members sc)) sc.

(** The item object [id] has not been destroyed. *)
Definition alive (st : St) (id : ItemId) : Prop := is_Some (heap (scene st) !! id).

(** What every state the widget goes through satisfies: the items of the
    scene are alive and distinct, identities are below the counter, and a
    background item, once set, is in the scene and is not the item the view
    is drawing. *)
Record Inv (st : St) : Prop := mkInv {
  inv_members : forall id, In id (members (scene st)) -> alive st id;
  inv_fresh : forall id, alive st id -> id < next_id (scene st);
  inv_nodup : NoDup (members (scene st));
  inv_pixmap : forall b, pixmap_item (widget st) = Some b -> In b (members (scene st));
  inv_current : forall c, current_item (view st) = Some c -> c < next_id (scene st);
  inv_apart : forall b, pixmap_item (widget st) = Some b ->
                        current_item (view st) <> Some b
}.

(** The items [_clear_drawings] removes. *)
Definition cleared (st : St) : list ItemId :=
  List.filter (is_not_pixmap st) (List.rev (stacking_order (scene st))).

(** The items [_delete_selected] removes. *)
Definition deleted (st : St) : list ItemId :=
  List.filter (is_not_pixmap st)
    (List.filter (fun id => match heap (scene st) !! id with
                            | Some it => it_selected it
                            | None => false
                            end) (members (scene st))).

(** The item [id] is selected. *)
Definition is_selected (st : St) (id : ItemId) : bool :=
  match heap (scene st) !! id with
  | Some it => it_selected it
  | None => false
  end.

(** From a state in [Pre], [m] returns in [Post] or raises in [Exc]. *)
Definition triple {A} (Pre : St -> Prop) (m : M A)
    (Post : A -> St -> Prop) (Exc : St -> Prop) : Prop :=
  forall st, Pre st ->
    match m st with
    | Ok a st' => Post a st'
    | Raised _ st' => Exc st'
    end.

(** [m] keeps [P], whether it returns or raises. *)
Definition preserves {A} (P : St -> Prop) (m : M A) : Prop :=
  triple P m (fun _ => P) P.

(** The identity [id] can become the item the view is drawing. *)
Definition drawable (id : ItemId) (st : St) : Prop :=
  id < next_id (scene st) /\ pixmap_item (widget st) <> Some id.

(** [m] returns, and does not raise. *)
Definition returns {A} (m : M A) (st : St) : Prop :=
  exists a st', m st = Ok a st'.

(** ** The scene after the elementary steps *)

(** The scene after [item = ...Item(...)] and [scene.addItem(item)]. *)
Definition added (it : Item) (sc : Scene) : Scene :=
  mkScene (<[next_id sc := it]> (heap sc)) (S (next_id sc))
          (members sc ++ [next_id sc]) (scene_rect sc).

(** The items to remove as the preview: the item the view is drawing. *)
Definition preview_of (st : St) : list ItemId :=
  match current_item (view st) with
  | Some c => [c]
  | None => []
  end.

(** The state with one more line in the message log. *)
Definition logged (msg : Message) (level : Level) (st : St) : St :=
  upd_world (fun w => with_messages (messages w ++ [(level, msg)]) w) st.

(** The item the view is drawing, if any, is alive. *)
Definition preview_alive (st : St) : Prop :=
  forall c, current_item (view st) = Some c -> alive st c.

(** The counter is above every item of the scene. *)
Definition roomy (st : St) : Prop :=
  forall id, In id (members (scene st)) -> id < next_id (scene st).

End Editor.

(* ------------------------------------------------------------------ *)
(** * Paths by their segments *)

Section PathSegments.
Import PosixPath.

(** A segment as [Path] keeps them: not empty, not [.], without a slash. *)
Definition clean (seg : string) : bool :=
  keep_segment seg && negb (Str.has_char "/" seg).

(** The string of the absolute path with the segments [segs]. *)
Definition abs_path (segs : list string) : string := "/" +:+ Str.join "/" segs.

(** Every segment preceded by a slash. *)
Fixpoint slashed (segs : list string) : string :=
  match segs with
  | [] => ""
  | x :: rest => "/" +:+ x +:+ slashed rest
  end.

(** A segment other than the last has the given name. *)
Fixpoint has_dir (name : string) (segs : list string) : bool :=
  match segs with
  | x :: ((_ :: _) as rest) => String.eqb x name || has_dir name rest
  | _ => false
  end.

(** The segments after [str.replace('/original/', '/edited/')]: a directory
    named [original] is renamed, and the segment that follows a renamed one
    is passed over, its leading slash being part of the match. *)
Fixpoint renamed (segs : list string) : list string :=
  match segs with
  | [] => []
  | x :: rest =>
      match rest with
      | [] => [x]
      | y :: more =>
          if String.eqb x "original" then "edited" :: y :: renamed more
          else x :: renamed rest
      end
  end.

(** After the root [r]: the first segment of a relative path has no slash
    before it, so that it is neither found nor renamed. *)
Definition found_in (r : string) (segs : list string) : bool :=
  match r, segs with
  | EmptyString, _ :: rest => has_dir "original" rest
  | _, _ => has_dir "original" segs
  end.

Definition renamed_in (r : string) (segs : list string) : list string :=
  match r, segs with
  | EmptyString, x :: rest => x :: renamed rest
  | _, _ => renamed segs
  end.

(** The name of a segment in the destination. *)
Definition rename (seg : string) : string :=
  if String.eqb seg "original" then "edited" else seg.

(** No two neighbouring segments are both named [name]. *)
Fixpoint apart (name : string) (segs : list string) : bool :=
  match segs with
  | x :: ((y :: _) as rest) =>
      negb (String.eqb x name && String.eqb y name) && apart name rest
  | _ => true
  end.

End PathSegments.

(* ================================================================== *)
(** * Properties *)

(** ** Strings *)

Section StringFacts.

Lemma length_append (a b : string) :
  String.length (a +:+ b) = String.length a + String.length b.
Proof. induction a as [|c a IH]; simpl; [reflexivity | now rewrite IH]. Qed.

Lemma append_assoc (a b c : string) : (a +:+ b) +:+ c = a +:+ (b +:+ c).
Proof. induction a as [|x a IH]; simpl; [reflexivity | now rewrite IH]. Qed.

Lemma append_empty_r (a : string) : a +:+ "" = a.
Proof. induction a as [|x a IH]; simpl; [reflexivity | now rewrite IH]. Qed.

Lemma drop_append (a r : string) : Str.drop (String.length a) (a +:+ r) = r.
Proof. induction a as [|c a IH]; simpl; [now destruct r | exact IH]. Qed.

Lemma take_append (a r : string) :
  Str.take (String.length (a +:+ r) - String.length r) (a +:+ r) = a.
Proof.
  rewrite length_append.
  replace (String.length a + String.length r - String.length r) with (String.length a) by lia.
  induction a as [|c a IH]; simpl; [now destruct r | now rewrite IH].
Qed.

Lemma span_not_append (c : ascii) (a r : string) :
  Str.has_char c a = false ->
  Str.span_not c (a +:+ String c r) = String.length a.
Proof.
  induction a as [|x a IH]; simpl; intros H.
  - now rewrite Ascii.eqb_refl.
  - destruct (Ascii.eqb c x); [discriminate | now rewrite IH].
Qed.

Lemma span_not_all (c : ascii) (a : string) :
  Str.has_char c a = false -> Str.span_not c a = String.length a.
Proof.
  induction a as [|x a IH]; simpl; intros H; [reflexivity|].
  destruct (Ascii.eqb c x); [discriminate | now rewrite IH].
Qed.

Lemma length_nonempty (a : string) : a <> "" -> exists n, String.length a = S n.
Proof. destruct a; [congruence | eauto]. Qed.

End StringFacts.

(** ** The file-name codec *)

Section FileParserFacts.
Import FileParser.

(** The greedy first attempt of [[^c]+] is the one that is kept when the rest
    of the pattern matches after it. *)
Lemma run_plus_first c ts rest opens caps n r :
  Str.span_not c rest = S n ->
  run ts (Str.drop (S n) rest) opens caps = Some r ->
  run (TPlusNot c :: ts) rest opens caps = Some r.
Proof.
  intros Hspan Hrun. cbn [run]. rewrite Hspan. now rewrite Hrun.
Qed.

Lemma run_plus_before c ts a rest opens caps r :
  a <> "" -> Str.has_char c a = false ->
  run ts (String c rest) opens caps = Some r ->
  run (TPlusNot c :: ts) (a +:+ String c rest) opens caps = Some r.
Proof.
  intros Ha Hc Hrun. destruct (length_nonempty a Ha) as [n Hn].
  apply run_plus_first with (n := n).
  - now rewrite span_not_append.
  - now rewrite <- Hn, drop_append.
Qed.

Lemma run_plus_last c ts a opens caps r :
  a <> "" -> Str.has_char c a = false ->
  run ts "" opens caps = Some r ->
  run (TPlusNot c :: ts) a opens caps = Some r.
Proof.
  intros Ha Hc Hrun. destruct (length_nonempty a Ha) as [n Hn].
  apply run_plus_first with (n := n).
  - now rewrite span_not_all.
  - rewrite <- Hn. rewrite <- (append_empty_r a) at 2. now rewrite drop_append.
Qed.

Lemma run_open ts name rest opens caps :
  run (TOpen name :: ts) rest opens caps = run ts rest ((name, rest) :: opens) caps.
Proof. reflexivity. Qed.

Lemma run_close ts name a rest opens caps :
  run (TClose :: ts) rest ((name, a +:+ rest) :: opens) caps
  = run ts rest opens (caps ++ [(name, a)]).
Proof.
  change (run (TClose :: ts) rest ((name, a +:+ rest) :: opens) caps)
    with (run ts rest opens
            (caps ++ [(name, Str.take (String.length (a +:+ rest) - String.length rest)
                                      (a +:+ rest))])).
  now rewrite take_append.
Qed.

Lemma run_close_end ts name a opens caps :
  run (TClose :: ts) "" ((name, a) :: opens) caps
  = run ts "" opens (caps ++ [(name, a)]).
Proof.
  rewrite <- (append_empty_r a) at 1. now rewrite run_close.
Qed.

Lemma run_lit ts c rest opens caps :
  run (TLit c :: ts) (String c rest) opens caps = run ts rest opens caps.
Proof.
  change (run (TLit c :: ts) (String c rest) opens caps)
    with (if Ascii.eqb c c then run ts rest opens caps else None).
  now rewrite Ascii.eqb_refl.
Qed.

Lemma parse_build_dotted (bc fn num e : string) :
  bc <> "" -> Str.has_char "-" bc = false ->
  fn <> "" -> Str.has_char "_" fn = false ->
  num <> "" -> Str.has_char "." num = false ->
  e <> "" -> Str.has_char "." e = false ->
  parse (build bc fn num ("." +:+ e)) = Some (components bc fn num ("." +:+ e)).
Proof.
  intros Hbc1 Hbc2 Hfn1 Hfn2 Hnum1 Hnum2 He1 He2.
  unfold parse, build, FILENAME_PATTERN. cbn [String.append].
  rewrite run_open.
  apply run_plus_before; [assumption..|].
  rewrite run_close, run_lit, run_open.
  apply run_plus_before; [assumption..|].
  rewrite run_close, run_lit, run_open.
  apply run_plus_before; [assumption..|].
  rewrite run_close, run_open, run_lit.
  apply run_plus_last; [assumption..|].
  rewrite run_close_end.
  reflexivity.
Qed.

End FileParserFacts.

(** ** Paths *)

Section PathFacts.
Import PosixPath.

Lemma clean_no_slash seg : clean seg = true -> Str.has_char "/" seg = false.
Proof. unfold clean. intros [_ H]%andb_prop. now apply negb_true_iff in H. Qed.

Lemma clean_keep seg : clean seg = true -> keep_segment seg = true.
Proof. unfold clean. now intros [H _]%andb_prop. Qed.

Lemma clean_nonempty seg : clean seg = true -> seg <> "".
Proof. intros H ->. discriminate H. Qed.

Lemma abs_path_slashed x rest : abs_path (x :: rest) = slashed (x :: rest).
Proof.
  unfold abs_path, Str.join. revert x.
  induction rest as [|y rest IH]; intros x; cbn [String.concat slashed].
  - simpl. now rewrite append_empty_r.
  - simpl. f_equal. f_equal. specialize (IH y). simpl in IH. exact IH.
Qed.

Lemma slashed_shape segs :
  slashed segs = "" \/ exists r, slashed segs = String "/" r.
Proof. destruct segs; simpl; eauto. Qed.

(** *** Splitting and parsing *)

Lemma split_no_slash x : Str.has_char "/" x = false -> split x = [x].
Proof.
  induction x as [|c x IH]; cbn [Str.has_char split]; intros H; [reflexivity|].
  rewrite (Ascii.eqb_sym c). destruct (Ascii.eqb "/" c); [discriminate|].
  now rewrite IH.
Qed.

Lemma split_append x t :
  Str.has_char "/" x = false -> split (x +:+ String "/" t) = x :: split t.
Proof.
  induction x as [|c x IH]; cbn [Str.has_char split String.append]; intros H.
  - now rewrite Ascii.eqb_refl.
  - rewrite (Ascii.eqb_sym c). destruct (Ascii.eqb "/" c); [discriminate|].
    now rewrite IH.
Qed.

Lemma split_join x rest :
  Forall (fun s => clean s = true) (x :: rest) ->
  split (Str.join "/" (x :: rest)) = x :: rest.
Proof.
  unfold Str.join. revert x. induction rest as [|y rest IH]; intros x H.
  - simpl. apply split_no_slash, clean_no_slash. now inversion H.
  - cbn [String.concat]. inversion H as [|? ? Hx Hrest]; subst.
    change ("/" +:+ ?t) with (String "/" t).
    rewrite split_append by now apply clean_no_slash.
    f_equal. now apply IH.
Qed.

Lemma filter_keep segs :
  Forall (fun s => clean s = true) segs -> List.filter keep_segment segs = segs.
Proof.
  induction 1 as [|x l Hx _ IH]; simpl; [reflexivity|].
  now rewrite (clean_keep _ Hx), IH.
Qed.

Lemma splitroot_one s :
  Str.startswith "/" s = false -> splitroot (String "/" s) = ("/", s).
Proof.
  destruct s as [|c s]; [reflexivity|]. cbn [Str.startswith].
  destruct (Ascii.eqb "/" c) eqn:E; [discriminate|]. intros _.
  apply Ascii.eqb_neq in E.
  destruct c as [[] [] [] [] [] [] [] []]; try reflexivity. now elim E.
Qed.

Lemma splitroot_none s :
  Str.startswith "/" s = false -> splitroot s = ("", s).
Proof.
  destruct s as [|c s]; [reflexivity|]. cbn [Str.startswith].
  destruct (Ascii.eqb "/" c) eqn:E; [discriminate|]. intros _.
  apply Ascii.eqb_neq in E.
  destruct c as [[] [] [] [] [] [] [] []]; try reflexivity. now elim E.
Qed.

Lemma clean_no_leading_slash x t :
  clean x = true -> Str.startswith "/" (x +:+ t) = false.
Proof.
  intros H. pose proof (clean_no_slash _ H) as Hs.
  destruct x as [|c x]; [discriminate H|].
  cbn [Str.has_char Str.startswith String.append] in *.
  destruct (Ascii.eqb "/" c); [discriminate | reflexivity].
Qed.

Lemma join_no_leading_slash segs :
  Forall (fun s => clean s = true) segs ->
  Str.startswith "/" (Str.join "/" segs) = false.
Proof.
  destruct 1 as [|x l Hx Hl]; [reflexivity|].
  unfold Str.join. destruct l as [|y l]; cbn [String.concat].
  - rewrite <- (append_empty_r x). now apply clean_no_leading_slash.
  - now apply clean_no_leading_slash.
Qed.

Lemma of_string_abs segs :
  Forall (fun s => clean s = true) segs ->
  of_string (abs_path segs) = mk "/" segs.
Proof.
  intros H. unfold of_string, abs_path.
  change ("/" +:+ ?t) with (String "/" t).
  rewrite splitroot_one by now apply join_no_leading_slash.
  f_equal. destruct segs as [|x rest]; [reflexivity|].
  rewrite split_join by assumption. now apply filter_keep.
Qed.

Lemma of_string_segment x :
  clean x = true -> of_string x = mk "" [x].
Proof.
  intros H. unfold of_string.
  rewrite splitroot_none.
  - rewrite split_no_slash by now apply clean_no_slash.
    simpl. now rewrite (clean_keep _ H).
  - rewrite <- (append_empty_r x). now apply clean_no_leading_slash.
Qed.

Lemma to_string_abs segs : to_string (mk "/" segs) = abs_path segs.
Proof. reflexivity. Qed.

(** *** Searching and replacing [/original/] *)

Lemma startswith_segment w x rest :
  Str.has_char "/" w = false -> Str.has_char "/" x = false ->
  (rest = "" \/ exists r, rest = String "/" r) ->
  Str.startswith (w +:+ "/") (x +:+ rest)
  = String.eqb x w && negb (String.eqb rest "").
Proof.
  revert x. induction w as [|a w IH]; intros x Hw Hx Hrest.
  - destruct x as [|c x].
    + destruct Hrest as [->|[r ->]]; reflexivity.
    + cbn [Str.has_char] in Hx. cbn [String.append Str.startswith String.eqb].
      destruct (Ascii.eqb "/" c); [discriminate | reflexivity].
  - cbn [Str.has_char] in Hw.
    destruct (Ascii.eqb "/" a) eqn:Ea; [discriminate|].
    destruct x as [|c x].
    + destruct Hrest as [->|[r ->]]; cbn [String.append Str.startswith String.eqb].
      * reflexivity.
      * rewrite Ascii.eqb_sym, Ea. reflexivity.
    + cbn [Str.has_char] in Hx.
      destruct (Ascii.eqb "/" c) eqn:Ec; [discriminate|].
      cbn [String.append Str.startswith String.eqb].
      rewrite (Ascii.eqb_sym c a).
      destruct (Ascii.eqb a c); [now apply IH | reflexivity].
Qed.

Lemma startswith_original x rest :
  Str.has_char "/" x = false ->
  (rest = "" \/ exists r, rest = String "/" r) ->
  Str.startswith "/original/" (String "/" (x +:+ rest))
  = String.eqb x "original" && negb (String.eqb rest "").
Proof.
  intros Hx Hrest.
  change (Str.startswith "/original/" (String "/" (x +:+ rest)))
    with (Str.startswith ("original" +:+ "/") (x +:+ rest)).
  now apply startswith_segment.
Qed.

Lemma replace_from_skip old new k s :
  Str.replace_from old new k s = Str.replace_from old new 0 (Str.drop k s).
Proof.
  revert s. induction k as [|k IH]; intros s.
  - now destruct s.
  - destruct s as [|c s]; [reflexivity|]. cbn [Str.replace_from Str.drop]. apply IH.
Qed.

Lemma replace_segment x t :
  Str.has_char "/" x = false ->
  Str.replace_from "/original/" "/edited/" 0 (x +:+ t)
  = x +:+ Str.replace_from "/original/" "/edited/" 0 t.
Proof.
  induction x as [|c x IH]; intros Hx; [reflexivity|].
  cbn [Str.has_char] in Hx. destruct (Ascii.eqb "/" c) eqn:Ec; [discriminate|].
  cbn [String.append Str.replace_from Str.startswith]. rewrite Ec.
  now rewrite IH.
Qed.

Lemma contains_segment x t :
  Str.has_char "/" x = false ->
  Str.contains "/original/" (x +:+ t) = Str.contains "/original/" t.
Proof.
  induction x as [|c x IH]; intros Hx; [reflexivity|].
  cbn [Str.has_char] in Hx. destruct (Ascii.eqb "/" c) eqn:Ec; [discriminate|].
  cbn [String.append Str.contains Str.startswith]. rewrite Ec.
  now apply IH.
Qed.

Lemma contains_cons sub c s :
  Str.contains sub (String c s)
  = if Str.startswith sub (String c s) then true else Str.contains sub s.
Proof. reflexivity. Qed.

Lemma replace_from_cons old new c s :
  Str.replace_from old new 0 (String c s)
  = if Str.startswith old (String c s)
    then new +:+ Str.replace_from old new (String.length old - 1) s
    else String c (Str.replace_from old new 0 s).
Proof. reflexivity. Qed.

Lemma slashed_cons x rest : slashed (x :: rest) = String "/" (x +:+ slashed rest).
Proof. reflexivity. Qed.

Lemma contains_slashed segs :
  Forall (fun s => clean s = true) segs ->
  Str.contains "/original/" (slashed segs) = has_dir "original" segs.
Proof.
  induction 1 as [|x rest Hx Hrest IH]; [reflexivity|].
  pose proof (clean_no_slash _ Hx) as Hs.
  rewrite slashed_cons, contains_cons.
  rewrite startswith_original by (assumption || apply slashed_shape).
  rewrite contains_segment by assumption. rewrite IH.
  destruct rest as [|y more]; cbn [has_dir slashed].
  - now rewrite andb_false_r.
  - rewrite andb_true_r. now destruct (String.eqb x "original").
Qed.

Lemma replace_slashed n : forall segs,
  List.length segs <= n ->
  Forall (fun s => clean s = true) segs ->
  Str.replace "/original/" "/edited/" (slashed segs) = slashed (renamed segs).
Proof.
  unfold Str.replace.
  induction n as [|n IH]; intros segs Hlen Hclean.
  - destruct segs; [reflexivity | simpl in Hlen; lia].
  - destruct segs as [|x rest]; [reflexivity|].
    inversion Hclean as [|? ? Hx Hrest]; subst.
    pose proof (clean_no_slash _ Hx) as Hs.
    rewrite slashed_cons, replace_from_cons.
    rewrite startswith_original by (assumption || apply slashed_shape).
    destruct rest as [|y more].
    + rewrite andb_false_r. rewrite replace_segment by assumption. reflexivity.
    + cbn [renamed]. rewrite (slashed_cons y). cbn [String.eqb negb]. rewrite andb_true_r.
      destruct (String.eqb_spec x "original") as [->|Hne].
      * inversion Hrest as [|? ? Hy Hmore]; subst.
        rewrite replace_from_skip.
        change (Str.drop (String.length "/original/" - 1)
                  ("original" +:+ String "/" (y +:+ slashed more)))
          with (y +:+ slashed more).
        rewrite replace_segment by now apply clean_no_slash.
        rewrite IH; [reflexivity | simpl in *; lia | assumption].
      * rewrite replace_segment by assumption.
        rewrite <- (slashed_cons y).
        rewrite IH; [reflexivity | simpl in *; lia | assumption].
Qed.

(** *** The destination of an absolute source path *)

Lemma renamed_cons x y more :
  renamed (x :: y :: more)
  = if String.eqb x "original" then "edited" :: y :: renamed more
    else x :: renamed (y :: more).
Proof. reflexivity. Qed.

Lemma has_dir_cons name x y more :
  has_dir name (x :: y :: more) = String.eqb x name || has_dir name (y :: more).
Proof. reflexivity. Qed.

Lemma renamed_clean n : forall segs,
  List.length segs <= n ->
  Forall (fun s => clean s = true) segs ->
  Forall (fun s => clean s = true) (renamed segs).
Proof.
  induction n as [|n IH]; intros segs Hlen H.
  - destruct segs; [constructor | simpl in Hlen; lia].
  - destruct segs as [|x [|y more]]; try assumption. rewrite renamed_cons.
    inversion H as [|? ? Hx Hrest]; subst.
    inversion Hrest as [|? ? Hy Hmore]; subst.
    destruct (String.eqb x "original").
    + constructor; [reflexivity|]. constructor; [assumption|].
      apply IH; [simpl in *; lia | assumption].
    + constructor; [assumption|]. apply IH; [simpl in *; lia | assumption].
Qed.

Lemma renamed_nonempty x rest : renamed (x :: rest) <> [].
Proof. destruct rest; cbn [renamed]; [|destruct (String.eqb x "original")]; discriminate. Qed.

Lemma split_segments s :
  Forall (fun x => Str.has_char "/" x = false) (split s).
Proof.
  induction s as [|c s IH]; cbn [split]; [now constructor|].
  destruct (Ascii.eqb c "/") eqn:E.
  - now constructor.
  - destruct (split s) as [|h t]; inversion IH; subst; constructor;
      cbn [Str.has_char]; rewrite ?(Ascii.eqb_sym "/" c), ?E; auto.
Qed.

Lemma of_string_clean src :
  Forall (fun s => clean s = true) (parts (of_string src)).
Proof.
  unfold of_string. destruct (splitroot src) as [r rel]. cbn [parts].
  pose proof (split_segments rel) as H.
  induction H as [|x l Hx _ IH]; cbn [List.filter]; [constructor|].
  destruct (keep_segment x) eqn:K; [|exact IH].
  constructor; [|exact IH]. unfold clean. now rewrite K, Hx.
Qed.

Lemma parent_mk r segs : parent (mk r segs) = mk r (removelast segs).
Proof. now destruct segs. Qed.

Lemma last_clean segs x :
  Forall (fun s => clean s = true) (x :: segs) -> clean (List.last (x :: segs) "") = true.
Proof.
  revert x. induction segs as [|y segs IH]; intros x H; inversion H; subst; [assumption|].
  now apply IH.
Qed.

(** The destination, as a function of the parsed source path. *)
Lemma edited_path_of_parsed src segs :
  PosixPath.of_string src = mk "/" segs ->
  Editor.edited_path_of src
  = if has_dir "original" segs then mk "/" (renamed segs)
    else mk "/" ((removelast (removelast segs) ++ ["edited"])
                 ++ match segs with [] => [] | _ => [List.last segs ""] end).
Proof.
  intros Hsrc. pose proof (of_string_clean src) as Hclean.
  unfold Editor.edited_path_of. rewrite Hsrc in *. cbn [parts] in Hclean.
  rewrite to_string_abs.
  destruct segs as [|x rest]; [reflexivity|].
  rewrite abs_path_slashed, contains_slashed by assumption.
  destruct (has_dir "original" (x :: rest)).
  - rewrite (replace_slashed (List.length (x :: rest))) by (assumption || lia).
    pose proof (renamed_nonempty x rest) as Hne.
    pose proof (renamed_clean _ _ (Nat.le_refl _) Hclean) as Hren.
    destruct (renamed (x :: rest)) as [|x' rest'] eqn:E; [congruence|].
    rewrite <- abs_path_slashed. now apply of_string_abs.
  - rewrite !parent_mk. unfold joinpath, name. cbn [parts root].
    change (of_string "edited") with (mk "" ["edited"]). cbn [parts root].
    rewrite (of_string_segment (List.last (x :: rest) "")) by now apply last_clean.
    reflexivity.
Qed.

Lemma has_dir_middle pre post :
  post <> [] -> has_dir "original" (pre ++ "original" :: post) = true.
Proof.
  intros Hpost. induction pre as [|x pre IH].
  - destruct post; [congruence | reflexivity].
  - cbn [app]. destruct (pre ++ "original" :: post)%list eqn:E.
    + now destruct pre.
    + rewrite has_dir_cons, IH. apply orb_true_r.
Qed.

Lemma has_dir_absent segs :
  ~ In "original" (removelast segs) -> has_dir "original" segs = false.
Proof.
  induction segs as [|x [|y more] IH]; intros H; try reflexivity.
  rewrite has_dir_cons.
  change (removelast (x :: y :: more)) with (x :: removelast (y :: more)) in H.
  cbn [In] in H.
  destruct (String.eqb_spec x "original") as [->|_]; [tauto|].
  apply IH. tauto.
Qed.

Lemma renamed_absent segs : ~ In "original" segs -> renamed segs = segs.
Proof.
  induction segs as [|x [|y more] IH]; intros H; try reflexivity.
  rewrite renamed_cons. cbn [In] in H.
  destruct (String.eqb_spec x "original") as [->|_]; [tauto|].
  f_equal. apply IH. cbn [In]. tauto.
Qed.

Lemma renamed_middle pre y more :
  ~ In "original" pre -> ~ In "original" more ->
  renamed (pre ++ "original" :: y :: more) = pre ++ "edited" :: y :: more.
Proof.
  intros Hpre Hmore. induction pre as [|x pre IH].
  - cbn [app]. rewrite renamed_cons. rewrite String.eqb_refl.
    now rewrite renamed_absent.
  - cbn [app]. cbn [In] in Hpre.
    destruct (pre ++ "original" :: y :: more)%list eqn:E; [now destruct pre|].
    rewrite renamed_cons.
    destruct (String.eqb_spec x "original") as [->|_]; [tauto|].
    rewrite IH by tauto. reflexivity.
Qed.

(** *** The destination of any source path *)

Lemma join_cons x rest : Str.join "/" (x :: rest) = x +:+ slashed rest.
Proof.
  pose proof (abs_path_slashed x rest) as H. rewrite slashed_cons in H.
  unfold abs_path in H. now injection H.
Qed.

Lemma splitroot_cases s :
  let r := fst (splitroot s) in r = "" \/ r = "/" \/ r = "//".
Proof.
  destruct s as [|a s]; [now left|].
  destruct (Ascii.eqb_spec a "/") as [->|Ha].
  - destruct s as [|b s]; [right; now left|].
    destruct (Ascii.eqb_spec b "/") as [->|Hb].
    + destruct s as [|c s]; [right; now right|].
      destruct (Ascii.eqb_spec c "/") as [->|Hc]; [right; now left|].
      right. right. destruct c as [[] [] [] [] [] [] [] []]; try reflexivity. now elim Hc.
    + right. left. destruct b as [[] [] [] [] [] [] [] []]; try reflexivity. now elim Hb.
  - left. destruct a as [[] [] [] [] [] [] [] []]; try reflexivity. now elim Ha.
Qed.

Lemma root_cases src :
  root (of_string src) = "" \/ root (of_string src) = "/" \/ root (of_string src) = "//".
Proof.
  unfold of_string. pose proof (splitroot_cases src) as H.
  destruct (splitroot src) as [r rel]. exact H.
Qed.

Lemma splitroot_two s :
  Str.startswith "/" s = false -> splitroot (String "/" (String "/" s)) = ("//", s).
Proof.
  destruct s as [|c s]; [reflexivity|]. cbn [Str.startswith].
  destruct (Ascii.eqb "/" c) eqn:E; [discriminate|]. intros _.
  apply Ascii.eqb_neq in E.
  destruct c as [[] [] [] [] [] [] [] []]; try reflexivity. now elim E.
Qed.

(** [Path(str(p))] is [p]. *)
Lemma of_string_to_string r segs :
  r = "" \/ r = "/" \/ r = "//" ->
  Forall (fun s => clean s = true) segs ->
  of_string (to_string (mk r segs)) = mk r segs.
Proof.
  intros Hr Hclean. unfold to_string. cbn [root parts].
  destruct Hr as [->|[->| ->]].
  - destruct segs as [|x rest]; [reflexivity|].
    cbn [String.append]. unfold of_string.
    rewrite splitroot_none by now apply join_no_leading_slash.
    rewrite split_join by assumption. now rewrite filter_keep.
  - now apply of_string_abs.
  - unfold of_string. change ("//" +:+ ?t) with (String "/" (String "/" t)).
    rewrite splitroot_two by now apply join_no_leading_slash.
    f_equal. destruct segs as [|x rest]; [reflexivity|].
    rewrite split_join by assumption. now apply filter_keep.
Qed.

Lemma replaced_path r segs :
  r = "" \/ r = "/" \/ r = "//" ->
  Forall (fun s => clean s = true) segs ->
  let text := to_string (mk r segs) in
  Str.contains "/original/" text = found_in r segs
  /\ Str.replace "/original/" "/edited/" text = to_string (mk r (renamed_in r segs)).
Proof.
  intros Hr Hclean. cbv zeta. unfold to_string, found_in, renamed_in. cbn [root parts].
  destruct segs as [|x rest].
  - destruct Hr as [->|[->| ->]]; split; reflexivity.
  - rewrite join_cons.
    inversion Hclean as [|? ? Hx Hrest]; subst.
    pose proof (clean_no_slash _ Hx) as Hs.
    destruct Hr as [->|[->| ->]].
    + cbn [String.append]. split.
      * rewrite contains_segment by assumption. now apply contains_slashed.
      * unfold Str.replace. rewrite replace_segment by assumption.
        fold (Str.replace "/original/" "/edited/" (slashed rest)).
        rewrite (replace_slashed (List.length rest)) by (assumption || lia).
        now rewrite join_cons.
    + change ("/" +:+ (x +:+ slashed rest)) with (slashed (x :: rest)). split.
      * now apply contains_slashed.
      * rewrite (replace_slashed (List.length (x :: rest))) by (assumption || lia).
        pose proof (renamed_nonempty x rest) as Hne.
        destruct (renamed (x :: rest)) as [|x' rest'] eqn:E; [congruence|].
        now rewrite join_cons.
    + change ("//" +:+ (x +:+ slashed rest)) with (String "/" (slashed (x :: rest))). split.
      * rewrite contains_cons.
        change (Str.startswith "/original/" (String "/" (slashed (x :: rest)))) with false.
        cbv iota. now apply contains_slashed.
      * unfold Str.replace. rewrite replace_from_cons.
        change (Str.startswith "/original/" (String "/" (slashed (x :: rest)))) with false.
        cbv iota. fold (Str.replace "/original/" "/edited/" (slashed (x :: rest))).
        rewrite (replace_slashed (List.length (x :: rest))) by (assumption || lia).
        pose proof (renamed_nonempty x rest) as Hne.
        destruct (renamed (x :: rest)) as [|x' rest'] eqn:E; [congruence|].
        now rewrite join_cons.
Qed.

(** The other branch: the directory [edited] beside the parent directory. *)
Lemma sibling_path r segs :
  Forall (fun s => clean s = true) segs ->
  joinpath (joinpath (parent (parent (mk r segs))) "edited") (name (mk r segs))
  = mk r ((removelast (removelast segs) ++ ["edited"])
          ++ match segs with [] => [] | _ => [List.last segs ""] end).
Proof.
  intros Hclean. rewrite !parent_mk. unfold joinpath, name. cbn [parts root].
  change (of_string "edited") with (mk "" ["edited"]). cbn [parts root].
  destruct segs as [|x rest]; [reflexivity|].
  rewrite (of_string_segment (List.last (x :: rest) "")) by now apply last_clean.
  reflexivity.
Qed.

Lemma renamed_in_clean r segs :
  Forall (fun s => clean s = true) segs ->
  Forall (fun s => clean s = true) (renamed_in r segs).
Proof.
  intros Hclean. unfold renamed_in.
  destruct r; [destruct segs as [|x rest]|];
    try (now apply (renamed_clean (List.length segs)));
    try (now constructor).
  inversion Hclean; subst. constructor; [assumption|].
  now apply (renamed_clean (List.length rest)).
Qed.

(** The destination, as a function of the parsed source path. *)
Lemma edited_path_of_any src :
  let p := of_string src in
  Editor.edited_path_of src
  = if found_in (root p) (parts p) then mk (root p) (renamed_in (root p) (parts p))
    else mk (root p)
           ((removelast (removelast (parts p)) ++ ["edited"])
            ++ match parts p with [] => [] | _ => [List.last (parts p) ""] end).
Proof.
  cbv zeta. pose proof (of_string_clean src) as Hclean. pose proof (root_cases src) as Hr.
  unfold Editor.edited_path_of.
  destruct (of_string src) as [r segs] eqn:Hsrc. cbn [root parts] in *.
  destruct (replaced_path r segs Hr Hclean) as [Hc Hrep]. cbv zeta in Hc, Hrep.
  rewrite Hc, Hrep. clear Hc Hrep.
  destruct (found_in r segs).
  - apply of_string_to_string; [exact Hr | now apply renamed_in_clean].
  - now apply sibling_path.
Qed.

Lemma renamed_map n : forall segs,
  List.length segs <= n ->
  apart "original" segs = true -> List.last segs "" <> "original" ->
  renamed segs = List.map rename segs.
Proof.
  induction n as [|n IH]; intros segs Hlen Hap Hlast.
  - destruct segs; [reflexivity | simpl in Hlen; lia].
  - destruct segs as [|x [|y more]]; [reflexivity | |].
    + cbn [renamed List.map]. unfold rename. cbn [List.last] in Hlast.
      destruct (String.eqb_spec x "original"); [contradiction | reflexivity].
    + rewrite renamed_cons. cbn [apart] in Hap.
      apply andb_prop in Hap as [Hxy Hap]. apply negb_true_iff in Hxy.
      change (List.last (x :: y :: more) "") with (List.last (y :: more) "") in Hlast.
      cbn [List.map]. unfold rename at 1.
      destruct (String.eqb x "original") eqn:Ex.
      * cbn [andb] in Hxy. unfold rename at 1. rewrite Hxy. f_equal. f_equal.
        destruct more as [|z more']; [reflexivity|].
        apply IH; [simpl in *; lia | | exact Hlast].
        cbn [apart] in Hap. now apply andb_prop in Hap as [_ Hap].
      * f_equal. apply IH; [simpl in *; lia | exact Hap | exact Hlast].
Qed.

Lemma has_dir_present segs :
  In "original" segs -> List.last segs "" <> "original" -> has_dir "original" segs = true.
Proof.
  induction segs as [|x [|y more] IH]; intros Hin Hlast.
  - destruct Hin.
  - cbn in Hin, Hlast. destruct Hin as [->|[]]. contradiction.
  - rewrite has_dir_cons. destruct (String.eqb_spec x "original") as [->|Hx]; [reflexivity|].
    apply IH; [|exact Hlast]. destruct Hin as [->|Hin]; [contradiction | exact Hin].
Qed.

End PathFacts.

(** ** The viewer *)

Section ViewerFacts.
Import Host Viewer.

Lemma has_field_lookup feature name :
  has_field feature name
  = match f_attrs feature !! name with Some _ => true | None => false end.
Proof.
  unfold has_field. destruct (f_attrs feature !! name) eqn:E.
  - apply bool_decide_eq_true_2. eauto.
  - apply bool_decide_eq_false_2. now intros [? ?].
Qed.

(** *** [upper] and the word NULL *)

(** No upper-case form of [upper_to_ascii] begins with N, U or L. *)
Lemma upper_to_ascii_head e :
  In e upper_to_ascii ->
  exists c r, Str.text (snd e) = String c r /\ is_NUL c = false.
Proof.
  unfold upper_to_ascii. intros H.
  repeat (destruct H as [<-|H]; [vm_compute; eauto|]). destruct H.
Qed.

Lemma upper_from_head c s x r :
  upper_from 0 (String c s) = String x r -> is_NUL x = true ->
  upper_char c = x /\ upper_from 0 s = r.
Proof.
  cbn [upper_from].
  destruct (List.find _ upper_to_ascii) as [e|] eqn:E.
  - apply List.find_some in E as [Hin _].
    destruct (upper_to_ascii_head e Hin) as (c0 & r0 & -> & Hc0).
    cbn [String.append]. intros [= <- _] Hx. congruence.
  - intros [= <- <-] _. now split.
Qed.

Lemma upper_from_empty s : upper_from 0 s = "" -> s = "".
Proof.
  destruct s as [|c s]; [reflexivity|]. cbn [upper_from].
  destruct (List.find _ upper_to_ascii) as [e|] eqn:E; [|discriminate].
  apply List.find_some in E as [Hin _].
  destruct (upper_to_ascii_head e Hin) as (c0 & r0 & -> & _). discriminate.
Qed.

Lemma upper_char_letter c x :
  upper_char c = x -> is_NUL x = true ->
  (Ascii.eqb c x || Ascii.eqb c (ascii_of_nat (nat_of_ascii x + 32))) = true.
Proof.
  intros <-. destruct c as [[] [] [] [] [] [] [] []]; vm_compute; congruence.
Qed.

(** [s.upper() == 'NULL'] says that [s] is the word NULL in some letter
    case. *)
Lemma upper_null_word s : String.eqb (upper s) "NULL" = null_word s.
Proof.
  destruct (null_word s) eqn:N.
  - apply String.eqb_eq.
    destruct s as [|a [|b [|c [|d [|? ?]]]]]; try discriminate N.
    cbn [null_word] in N.
    apply andb_prop in N as [[[Ha Hb]%andb_prop Hc]%andb_prop Hd].
    apply orb_prop in Ha, Hb, Hc, Hd.
    destruct Ha as [->%Ascii.eqb_eq| ->%Ascii.eqb_eq],
             Hb as [->%Ascii.eqb_eq| ->%Ascii.eqb_eq],
             Hc as [->%Ascii.eqb_eq| ->%Ascii.eqb_eq],
             Hd as [->%Ascii.eqb_eq| ->%Ascii.eqb_eq]; vm_compute; reflexivity.
  - destruct (String.eqb_spec (upper s) "NULL") as [H|]; [|reflexivity].
    exfalso. unfold upper in H.
    destruct s as [|a s]; [discriminate H|].
    apply upper_from_head in H as [Ha H]; [|reflexivity].
    destruct s as [|b s]; [discriminate H|].
    apply upper_from_head in H as [Hb H]; [|reflexivity].
    destruct s as [|c s]; [discriminate H|].
    apply upper_from_head in H as [Hc H]; [|reflexivity].
    destruct s as [|d s]; [discriminate H|].
    apply upper_from_head in H as [Hd H]; [|reflexivity].
    apply upper_from_empty in H. subst s.
    apply upper_char_letter in Ha, Hb, Hc, Hd; try reflexivity.
    cbn [null_word] in N.
    rewrite (orb_comm (Ascii.eqb a _)), (orb_comm (Ascii.eqb b _)),
            (orb_comm (Ascii.eqb c _)), (orb_comm (Ascii.eqb d _)) in N.
    change (ascii_of_nat (nat_of_ascii "N" + 32)) with "n"%char in Ha.
    change (ascii_of_nat (nat_of_ascii "U" + 32)) with "u"%char in Hb.
    change (ascii_of_nat (nat_of_ascii "L" + 32)) with "l"%char in Hc, Hd.
    rewrite Ha, Hb, Hc, Hd in N. discriminate N.
Qed.

(** One round of the loop of [load_photo]. *)
Lemma resolve_from_cons name rest feature :
  resolve_from (name :: rest) feature
  = match field_text feature name with
    | Some p => Some p
    | None => resolve_from rest feature
    end.
Proof.
  cbn [resolve_from]. rewrite has_field_lookup.
  unfold attribute, field_text, usable.
  destruct (f_attrs feature !! name) as [[|s]|] eqn:E;
    cbn -[String.eqb strip upper null_word]; try reflexivity.
  rewrite upper_null_word.
  destruct (String.eqb_spec s "") as [->|Hs]; [reflexivity|].
  cbn [negb andb].
  destruct (String.eqb (strip s) ""); [reflexivity|].
  now destruct (null_word (strip s)).
Qed.

(** A field whose text is the word NULL counts like a field the record
    does not have. *)
Lemma field_text_null name s feature n :
  null_word (strip s) = true ->
  field_text (set_attribute name (VStr s) feature) n
  = field_text (drop_field name feature) n.
Proof.
  intros Hs. unfold field_text, set_attribute, drop_field. cbn [f_attrs].
  destruct (decide (name = n)) as [->|Hne].
  - rewrite lookup_insert_eq, lookup_delete_eq. rewrite Hs. now rewrite orb_true_r.
  - now rewrite lookup_insert_ne, lookup_delete_ne.
Qed.

(** The word NULL has no white space around it. *)
Lemma strip_null_word s : null_word s = true -> strip s = s.
Proof.
  intros N.
  destruct s as [|a [|b [|c [|d [|? ?]]]]]; try discriminate N.
  cbn [null_word] in N.
  apply andb_prop in N as [[[Ha Hb]%andb_prop Hc]%andb_prop Hd].
  apply orb_prop in Ha, Hb, Hc, Hd.
  destruct Ha as [->%Ascii.eqb_eq| ->%Ascii.eqb_eq],
           Hb as [->%Ascii.eqb_eq| ->%Ascii.eqb_eq],
           Hc as [->%Ascii.eqb_eq| ->%Ascii.eqb_eq],
           Hd as [->%Ascii.eqb_eq| ->%Ascii.eqb_eq]; vm_compute; reflexivity.
Qed.

End ViewerFacts.

(** ** The editor: the monad *)

Section MonadFacts.
Import Editor.
#[local] Open Scope py_scope.

Lemma triple_bind {A B} Pre (m : M A) Mid (k : A -> M B) Post Exc :
  triple Pre m Mid Exc -> (forall a, triple (Mid a) (k a) Post Exc) ->
  triple Pre (bind m k) Post Exc.
Proof.
  intros Hm Hk st H. unfold bind. specialize (Hm st H).
  destruct (m st) as [a st'|e st']; [now apply Hk | exact Hm].
Qed.

Lemma triple_weaken {A} (Pre Pre' : St -> Prop) (m : M A) (Post Post' : A -> St -> Prop) Exc :
  triple Pre' m Post' Exc ->
  (forall st, Pre st -> Pre' st) -> (forall a st, Post' a st -> Post a st) ->
  triple Pre m Post Exc.
Proof.
  intros Hm Hpre Hpost st H. specialize (Hm st (Hpre st H)).
  destruct (m st); [now apply Hpost | exact Hm].
Qed.

Lemma triple_modify Pre (f : St -> St) (Post : unit -> St -> Prop) Exc :
  (forall st, Pre st -> Post tt (f st)) -> triple Pre (modify f) Post Exc.
Proof. intros Hf st H. now apply Hf. Qed.

Lemma triple_final {A} (P : St -> Prop) (m : M A) st :
  preserves P m -> P st -> P (final_state (m st)).
Proof. intros Hm H. specialize (Hm st H). now destruct (m st). Qed.

Context {P : St -> Prop}.

Lemma preserves_ret {A} (a : A) : preserves P (ret a).
Proof. intros st H. exact H. Qed.

Lemma preserves_raise {A} (e : Exn) : preserves P (@raise A e).
Proof. intros st H. exact H. Qed.

Lemma preserves_get : preserves P get.
Proof. intros st H. exact H. Qed.

Lemma preserves_modify (f : St -> St) :
  (forall st, P st -> P (f st)) -> preserves P (modify f).
Proof. intros Hf. now apply triple_modify. Qed.

Lemma preserves_bind {A B} (m : M A) (k : A -> M B) :
  preserves P m -> (forall a, preserves P (k a)) -> preserves P (bind m k).
Proof. intros Hm Hk. eapply triple_bind; [exact Hm | exact Hk]. Qed.

(** The continuation of [get] may use that the state it is given is the
    current one. *)
Lemma preserves_get_bind {B} (k : St -> M B) :
  (forall st0, P st0 -> triple (fun st => st = st0) (k st0) (fun _ => P) P) ->
  preserves P (bind get k).
Proof. intros Hk st H. unfold bind, get. now apply (Hk st H st). Qed.

Lemma preserves_try {A} (body : M A) (handler : Exn -> M A) :
  preserves P body -> (forall e, preserves P (handler e)) ->
  preserves P (try_except body handler).
Proof.
  intros Hb Hh st H. unfold try_except. specialize (Hb st H).
  destruct (body st) as [a st'|e st']; [exact Hb | now apply Hh].
Qed.

Lemma preserves_for_each {A} (xs : list A) (body : A -> M unit) :
  (forall x, In x xs -> preserves P (body x)) -> preserves P (for_each xs body).
Proof.
  induction xs as [|x xs IH]; intros Hb; cbn [for_each].
  - apply preserves_ret.
  - apply preserves_bind; [apply Hb; now left | intros _].
    apply IH. intros y Hy. apply Hb. now right.
Qed.

End MonadFacts.

(** ** The editor: the scene invariant *)

Section SceneFacts.
Import Geometry Editor.
#[local] Open Scope py_scope.

(** [Inv] only reads the items, the counter, the scene membership, the
    background item and the item being drawn. *)
Lemma Inv_same st st' :
  heap (scene st') = heap (scene st) ->
  next_id (scene st') = next_id (scene st) ->
  members (scene st') = members (scene st) ->
  pixmap_item (widget st') = pixmap_item (widget st) ->
  current_item (view st') = current_item (view st) ->
  Inv st -> Inv st'.
Proof.
  intros Hh Hn Hm Hp Hc [I1 I2 I3 I4 I5 I6].
  constructor; unfold alive in *; rewrite ?Hh, ?Hn, ?Hm, ?Hp, ?Hc; assumption.
Qed.

Lemma Inv_upd_world f st : Inv st -> Inv (upd_world f st).
Proof. now apply Inv_same. Qed.

Lemma Inv_new_item it :
  triple Inv (new_item it) (fun id st' => Inv st' /\ drawable id st') Inv.
Proof.
  intros st [I1 I2 I3 I4 I5 I6]. unfold new_item, drawable. cbn.
  assert (Hp : pixmap_item (widget st) <> Some (next_id (scene st))).
  { intros Hb. apply I4, I1, I2 in Hb. lia. }
  split; [constructor; unfold alive in *; cbn | split; [lia | exact Hp]].
  - intros id Hid. rewrite lookup_insert_is_Some. destruct (decide (next_id (scene st) = id)); auto.
  - intros id Hid. apply lookup_insert_is_Some in Hid as [<-|[_ Hid]]; [lia|].
    apply I2 in Hid. lia.
  - exact I3.
  - exact I4.
  - intros c Hc. apply I5 in Hc. lia.
  - exact I6.
Qed.

Lemma Inv_set_current id :
  triple (fun st => Inv st /\ drawable id st)
         (modify (upd_view (with_current_item (Some id)))) (fun _ => Inv) Inv.
Proof.
  apply triple_modify. intros st [[I1 I2 I3 I4 I5 I6] [Hlt Hp]].
  constructor; cbn; try assumption.
  - intros c [= <-]. exact Hlt.
  - intros b Hb [= <-]. now apply Hp.
Qed.

Lemma Inv_clear_current : preserves Inv (modify (upd_view (with_current_item None))).
Proof.
  apply triple_modify. intros st [I1 I2 I3 I4 I5 I6].
  constructor; cbn; try assumption; discriminate.
Qed.

Lemma Inv_upd_view f st :
  (forall v, current_item (f v) = current_item v) -> Inv st -> Inv (upd_view f st).
Proof. intros Hf. apply Inv_same; cbn; auto. Qed.

Lemma Inv_upd_widget f st :
  (forall w, pixmap_item (f w) = pixmap_item w) -> Inv st -> Inv (upd_widget f st).
Proof. intros Hf. apply Inv_same; cbn; auto. Qed.

Lemma in_scene_In id sc : in_scene id sc = true <-> In id (members sc).
Proof.
  unfold in_scene. rewrite existsb_exists. split.
  - intros [x [Hx E]]. apply Nat.eqb_eq in E. now subst.
  - intros H. exists id. split; [assumption | apply Nat.eqb_refl].
Qed.

Lemma Inv_addItem id : preserves Inv (addItem id).
Proof.
  intros st H. unfold addItem, wrapped, bind, get, ret, raise, modify.
  destruct (heap (scene st) !! id) as [it|] eqn:E; [|exact H].
  destruct (in_scene id (scene st)) eqn:Hin.
  - revert H. apply Inv_same; cbn; now rewrite ?Hin.
  - destruct H as [I1 I2 I3 I4 I5 I6].
    assert (Hnot : ~ In id (members (scene st))).
    { rewrite <- in_scene_In. congruence. }
    constructor; unfold alive in *; cbn; rewrite ?Hin; cbn; try assumption.
    + intros x [Hx|Hx]%in_app_or; [now apply I1|].
      destruct Hx as [<-|[]]. now rewrite E.
    + apply NoDup_app. split; [exact I3|].
      split; [|apply NoDup_singleton].
      intros x Hx Hx'. apply list_elem_of_In in Hx.
      apply list_elem_of_singleton in Hx'. now subst.
    + intros b Hb. apply in_or_app. left. now apply I4.
Qed.

Lemma Inv_removeItem id :
  triple (fun st => Inv st /\ pixmap_item (widget st) <> Some id)
         (removeItem id) (fun _ => Inv) Inv.
Proof.
  intros st [H Hp]. unfold removeItem, wrapped, bind, get, ret, raise, modify.
  destruct (heap (scene st) !! id) as [it|] eqn:E; [|exact H].
  destruct H as [I1 I2 I3 I4 I5 I6].
  constructor; unfold alive in *; cbn; try assumption.
  - intros x [Hx _]%filter_In. now apply I1.
  - apply NoDup_ListNoDup, List.NoDup_filter, NoDup_ListNoDup, I3.
  - intros b Hb. apply filter_In. split; [now apply I4|].
    apply negb_true_iff, Nat.eqb_neq. congruence.
Qed.

Lemma Inv_remove_current_item : preserves Inv remove_current_item.
Proof.
  apply preserves_get_bind. intros st0 H0.
  destruct (current_item (view st0)) as [id|] eqn:E.
  - eapply triple_weaken; [apply (Inv_removeItem id) | | auto].
    intros st ->. split; [exact H0|]. intros Hb. now apply (inv_apart _ H0 id).
  - intros st ->. exact H0.
Qed.

Lemma Inv_setPath id path : preserves Inv (setPath id path).
Proof.
  intros st H. unfold setPath, wrapped, bind, get, ret, raise, modify.
  destruct (heap (scene st) !! id) as [it|] eqn:E; [|exact H].
  destruct (it_shape it); try exact H.
  destruct H as [I1 I2 I3 I4 I5 I6].
  constructor; unfold alive in *; cbn; try assumption.
  - intros x Hx. apply lookup_insert_is_Some'. right. now apply I1.
  - intros x Hx. apply lookup_insert_is_Some' in Hx as [<-|Hx]; apply I2; [now rewrite E | exact Hx].
Qed.

Lemma alive_alter_all (f : ItemId -> Item -> Item) (h : gmap ItemId Item) l x :
  is_Some (foldr (fun id h => alter (f id) id h) h l !! x) <-> is_Some (h !! x).
Proof.
  induction l as [|y l IH]; cbn [foldr]; [reflexivity|].
  now rewrite lookup_alter_is_Some.
Qed.

Lemma Inv_super_mouseEvent event : preserves Inv (super_mouseEvent event).
Proof.
  apply triple_modify. intros st [I1 I2 I3 I4 I5 I6].
  constructor; unfold alive in *; cbn; try assumption.
  - intros x Hx. apply alive_alter_all. now apply I1.
  - intros x Hx. apply alive_alter_all in Hx. now apply I2.
Qed.

Lemma Inv_the_start_point : preserves Inv the_start_point.
Proof.
  intros st H. unfold the_start_point, bind, get, ret, raise.
  now destruct (start_point (view st)).
Qed.

Lemma Inv_get_pen : preserves Inv _get_pen.
Proof. intros st H. exact H. Qed.

Lemma Inv_logMessage msg level : preserves Inv (logMessage msg level).
Proof. apply triple_modify. intros st. apply Inv_upd_world. Qed.

Lemma Inv_setStatus text style : preserves Inv (setStatus text style).
Proof. apply triple_modify. intros st. now apply Inv_upd_widget. Qed.

Lemma Inv_view_field f :
  (forall v, current_item (f v) = current_item v) ->
  preserves Inv (modify (upd_view f)).
Proof. intros Hf. apply triple_modify. intros st. now apply Inv_upd_view. Qed.

Lemma Inv_widget_field f :
  (forall w, pixmap_item (f w) = pixmap_item w) ->
  preserves Inv (modify (upd_widget f)).
Proof. intros Hf. apply triple_modify. intros st. now apply Inv_upd_widget. Qed.

Lemma Inv_world_field f : preserves Inv (modify (upd_world f)).
Proof. apply triple_modify. intros st. apply Inv_upd_world. Qed.

(** A new item that becomes the item being drawn. *)
Lemma Inv_new_current it :
  preserves Inv (item <- new_item it ;; modify (upd_view (with_current_item (Some item)))).
Proof.
  eapply triple_bind; [apply Inv_new_item|]. intros id. apply Inv_set_current.
Qed.

(** A new item that is added to the scene. *)
Lemma Inv_new_added it (k : M unit) :
  preserves Inv k -> preserves Inv (item <- new_item it ;; addItem item ;; k).
Proof.
  intros Hk. eapply triple_bind; [apply Inv_new_item|]. intros id.
  eapply triple_weaken with (Pre' := Inv) (Post' := fun _ => Inv); [|tauto|auto].
  apply preserves_bind; [apply Inv_addItem | intros _; exact Hk].
Qed.

End SceneFacts.

(** ** The editor: the handlers keep the scene invariant *)

Section HandlerFacts.
Import Geometry Host Editor.
#[local] Open Scope py_scope.

Lemma Inv_new_current_then it (k : ItemId -> M unit) :
  (forall id, preserves Inv (k id)) ->
  preserves Inv (item <- new_item it ;;
                 modify (upd_view (with_current_item (Some item))) ;; k item).
Proof.
  intros Hk. eapply triple_bind; [apply Inv_new_item|]. intros id.
  eapply triple_bind; [apply Inv_set_current|]. intros u. apply Hk.
Qed.

Lemma Inv_new_item_only it : preserves Inv (new_item it).
Proof. eapply triple_weaken; [apply Inv_new_item | auto | now intros ? ? [? ?]]. Qed.

Ltac pres_step :=
  lazymatch goal with
  | |- preserves _ (bind (new_item _) _) =>
      first [ apply Inv_new_current
            | apply Inv_new_current_then; intros ?
            | apply preserves_bind; [apply Inv_new_item_only | intros ?] ]
  | |- preserves _ (bind _ _) => apply preserves_bind; [|intros ?]
  | |- preserves _ (ret _) => apply preserves_ret
  | |- preserves _ (raise _) => apply preserves_raise
  | |- preserves _ get => apply preserves_get
  | |- preserves _ (try_except _ _) => apply preserves_try; [|intros ?]
  | |- preserves _ (logMessage _ _) => apply Inv_logMessage
  | |- preserves _ (setStatus _ _) => apply Inv_setStatus
  | |- preserves _ (addItem _) => apply Inv_addItem
  | |- preserves _ (setPath _ _) => apply Inv_setPath
  | |- preserves _ (super_mouseEvent _) => apply Inv_super_mouseEvent
  | |- preserves _ remove_current_item => apply Inv_remove_current_item
  | |- preserves _ the_start_point => apply Inv_the_start_point
  | |- preserves _ _get_pen => apply Inv_get_pen
  | |- preserves _ (modify (upd_view (with_current_item None))) => apply Inv_clear_current
  | |- preserves _ (modify (upd_view _)) => apply Inv_view_field; reflexivity
  | |- preserves _ (modify (upd_widget _)) => apply Inv_widget_field; reflexivity
  | |- preserves _ (modify (upd_world _)) => apply Inv_world_field
  | |- preserves _ (match ?x with _ => _ end) => destruct x
  end.

Ltac pres := cbv zeta; repeat pres_step.

Lemma Inv_start_pen_drawing : preserves Inv _start_pen_drawing.
Proof. unfold _start_pen_drawing. pres. Qed.

Lemma Inv_continue_pen_drawing point : preserves Inv (_continue_pen_drawing point).
Proof. unfold _continue_pen_drawing. pres. Qed.

Lemma Inv_finish_pen_drawing : preserves Inv _finish_pen_drawing.
Proof. unfold _finish_pen_drawing. pres. Qed.

Lemma Inv_update_shape_preview point : preserves Inv (_update_shape_preview point).
Proof. unfold _update_shape_preview. pres. Qed.

Lemma Inv_create_line point : preserves Inv (_create_line point).
Proof. unfold _create_line. pres. Qed.

Lemma Inv_power iv iw : preserves Inv (power iv iw).
Proof. unfold power. pres. Qed.

Lemma Inv_int_to_float n : preserves Inv (int_to_float n).
Proof. unfold int_to_float. pres. Qed.

Lemma Inv_create_arrow point : preserves Inv (_create_arrow point).
Proof.
  unfold _create_arrow. pres;
    lazymatch goal with
    | |- preserves _ (power _ _) => apply Inv_power
    | |- preserves _ (int_to_float _) => apply Inv_int_to_float
    end.
Qed.

Lemma Inv_create_rect point : preserves Inv (_create_rect point).
Proof. unfold _create_rect. pres. Qed.

Lemma Inv_create_ellipse point : preserves Inv (_create_ellipse point).
Proof. unfold _create_ellipse. pres. Qed.

Lemma Inv_add_text : preserves Inv _add_text.
Proof. unfold _add_text. pres. Qed.

Lemma Inv_mousePressEvent event : preserves Inv (mousePressEvent event).
Proof.
  unfold mousePressEvent. pres;
    first [apply Inv_start_pen_drawing | apply Inv_add_text | idtac].
Qed.

Lemma Inv_mouseMoveEvent event : preserves Inv (mouseMoveEvent event).
Proof.
  unfold mouseMoveEvent. pres;
    first [apply Inv_continue_pen_drawing | apply Inv_update_shape_preview | idtac].
Qed.

Lemma Inv_mouseReleaseEvent event : preserves Inv (mouseReleaseEvent event).
Proof.
  unfold mouseReleaseEvent. pres;
    lazymatch goal with
    | |- preserves _ _finish_pen_drawing => apply Inv_finish_pen_drawing
    | |- preserves _ (_create_line _) => apply Inv_create_line
    | |- preserves _ (_create_arrow _) => apply Inv_create_arrow
    | |- preserves _ (_create_rect _) => apply Inv_create_rect
    | |- preserves _ (_create_ellipse _) => apply Inv_create_ellipse
    | |- _ => idtac
    end.
Qed.

(** *** Removing items in a loop *)

Lemma In_insert_by_z h id l x : In x (insert_by_z h id l) <-> x = id \/ In x l.
Proof.
  induction l as [|y l IH]; cbn [insert_by_z].
  - cbn. intuition.
  - destruct (z_of h id <? z_of h y)%Z; cbn [In]; [intuition|].
    rewrite IH. intuition.
Qed.

Lemma In_stacking_order sc x : In x (stacking_order sc) <-> In x (members sc).
Proof.
  unfold stacking_order.
  assert (G : forall l acc, In x (fold_left (fun acc id => insert_by_z (heap sc) id acc) l acc)
                            <-> In x l \/ In x acc).
  { induction l as [|y l IH]; intros acc; cbn [fold_left In]; [intuition|].
    rewrite IH, In_insert_by_z. intuition. }
  rewrite G. cbn. intuition.
Qed.

Lemma filter_twice {A} (p q : A -> bool) l :
  List.filter p (List.filter q l) = List.filter (fun x => q x && p x) l.
Proof.
  induction l as [|x l IH]; cbn [List.filter]; [reflexivity|].
  destruct (q x); cbn [List.filter andb]; [destruct (p x)|]; now rewrite IH.
Qed.

Lemma without_nil st : upd_scene (without []) st = st.
Proof.
  destruct st as [v [h n m r] w wo]. unfold upd_scene, without, with_members. cbn.
  do 2 f_equal. induction m as [|x m IH]; cbn; [reflexivity | now rewrite IH].
Qed.

Lemma without_cons x ids st :
  upd_scene (without ids)
    (upd_scene (fun sc => with_members
                  (List.filter (fun y => negb (Nat.eqb y x)) (members sc)) sc) st)
  = upd_scene (without (x :: ids)) st.
Proof.
  destruct st as [v [h n m r] w wo]. unfold upd_scene, without, with_members. cbn.
  do 2 f_equal. rewrite filter_twice. apply filter_ext. intros y.
  now rewrite negb_orb.
Qed.

Lemma removeItem_alive id st :
  alive st id ->
  removeItem id st
  = Ok tt (upd_scene (fun sc => with_members
             (List.filter (fun y => negb (Nat.eqb y id)) (members sc)) sc) st).
Proof.
  intros [it E]. unfold removeItem, wrapped, bind, get, ret, modify. now rewrite E.
Qed.

Lemma for_each_removeItem ids : forall st,
  (forall id, In id ids -> alive st id) ->
  for_each ids removeItem st = Ok tt (upd_scene (without ids) st).
Proof.
  induction ids as [|x ids IH]; intros st Halive; cbn [for_each].
  - unfold ret. now rewrite without_nil.
  - unfold bind. rewrite removeItem_alive by (apply Halive; now left).
    rewrite IH; [now rewrite without_cons|].
    intros id Hid. apply Halive. now right.
Qed.

(** The loop of [_delete_selected]. *)
Lemma for_each_guarded ids : forall st,
  (forall id, In id ids -> alive st id) ->
  for_each ids (fun item => st <- get ;;
                            if is_not_pixmap st item then removeItem item else ret tt) st
  = Ok tt (upd_scene (without (List.filter (is_not_pixmap st) ids)) st).
Proof.
  induction ids as [|x ids IH]; intros st Halive; cbn [for_each List.filter].
  - unfold ret. now rewrite without_nil.
  - unfold bind at 1. unfold bind at 1. unfold get at 1.
    destruct (is_not_pixmap st x) eqn:E.
    + rewrite removeItem_alive by (apply Halive; now left).
      rewrite IH; [now rewrite without_cons|].
      intros id Hid. apply Halive. now right.
    + unfold ret at 1. apply IH. intros id Hid. apply Halive. now right.
Qed.

Lemma filter_only b (l : list ItemId) :
  NoDup l -> In b l -> List.filter (Nat.eqb b) l = [b].
Proof.
  induction 1 as [|x l Hx Hl IH]; cbn [In List.filter]; [tauto|].
  intros [->|Hb].
  - rewrite Nat.eqb_refl. f_equal.
    apply list_elem_of_In in Hx || rewrite list_elem_of_In in Hx.
    clear -Hx. induction l as [|y l IH]; cbn [List.filter]; [reflexivity|].
    destruct (Nat.eqb_spec b y) as [->|_]; [exfalso; apply Hx; now left|].
    apply IH. intros H. apply Hx. now right.
  - destruct (Nat.eqb_spec b x) as [->|_].
    + exfalso. apply Hx. now apply list_elem_of_In.
    + now apply IH.
Qed.

Lemma Inv_without ids st :
  Inv st -> (forall b, pixmap_item (widget st) = Some b -> ~ In b ids) ->
  Inv (upd_scene (without ids) st).
Proof.
  intros [I1 I2 I3 I4 I5 I6] Hb.
  constructor; unfold alive in *; cbn; try assumption.
  - intros x [Hx _]%filter_In. now apply I1.
  - apply NoDup_ListNoDup, List.NoDup_filter, NoDup_ListNoDup, I3.
  - intros b Hp. apply filter_In. split; [now apply I4|].
    apply negb_true_iff. apply not_true_is_false. intros [y [Hy E]]%existsb_exists.
    apply Nat.eqb_eq in E. subst y. now apply (Hb b).
Qed.

Lemma not_pixmap_spec st id :
  is_not_pixmap st id = true <-> pixmap_item (widget st) <> Some id.
Proof.
  unfold is_not_pixmap. rewrite negb_true_iff, bool_decide_eq_false. reflexivity.
Qed.

Lemma In_cleared st id :
  In id (cleared st) <-> In id (members (scene st)) /\ pixmap_item (widget st) <> Some id.
Proof.
  unfold cleared. now rewrite filter_In, <- in_rev, In_stacking_order, not_pixmap_spec.
Qed.

Lemma clear_drawings_eval st :
  Inv st ->
  _clear_drawings st
  = Ok tt (upd_world (fun w => with_messages
                        (messages w ++ [(Info, MsgCleared (List.length (cleared st)))]) w)
                     (upd_scene (without (cleared st)) st)).
Proof.
  intros H. unfold _clear_drawings, scene_items.
  unfold bind at 1. unfold bind at 1. unfold get at 1. unfold ret at 1.
  unfold bind at 1. unfold get at 1. fold (cleared st).
  unfold bind. rewrite for_each_removeItem; [reflexivity|].
  intros id [Hid _]%In_cleared. now apply (inv_members _ H).
Qed.

Lemma members_cleared st b :
  Inv st -> pixmap_item (widget st) = Some b ->
  members (scene (upd_scene (without (cleared st)) st)) = [b].
Proof.
  intros H Hb. cbn. rewrite <- (filter_only b (members (scene st)));
    [|apply (inv_nodup _ H) | now apply (inv_pixmap _ H)].
  apply filter_ext_in. intros x Hx.
  destruct (Nat.eqb_spec b x) as [<-|Hne].
  - apply negb_true_iff, not_true_is_false.
    intros [y [[_ Hy]%In_cleared E]]%existsb_exists.
    apply Nat.eqb_eq in E. subst y. now apply Hy.
  - apply negb_false_iff, existsb_exists. exists x. split; [|apply Nat.eqb_refl].
    apply In_cleared. split; [assumption|congruence].
Qed.

Lemma Inv_clear_drawings : preserves Inv _clear_drawings.
Proof.
  intros st H. rewrite clear_drawings_eval by assumption.
  apply Inv_upd_world, Inv_without; [assumption|].
  intros b Hb [_ Hn]%In_cleared. now apply Hn.
Qed.

Lemma delete_selected_eval st :
  Inv st ->
  _delete_selected st
  = Ok tt (upd_world (fun w => with_messages (messages w ++ [(Info, MsgDeleted)]) w)
                     (upd_scene (without (deleted st)) st)).
Proof.
  intros H. unfold _delete_selected, selectedItems.
  unfold bind at 1. unfold bind at 1. unfold get at 1. unfold ret at 1.
  unfold bind. rewrite for_each_guarded; [reflexivity|].
  intros id [Hid _]%filter_In. now apply (inv_members _ H).
Qed.

Lemma Inv_delete_selected : preserves Inv _delete_selected.
Proof.
  intros st H. rewrite delete_selected_eval by assumption.
  apply Inv_upd_world, Inv_without; [assumption|].
  intros b Hb [_ Hn]%filter_In. apply not_pixmap_spec in Hn. now apply Hn.
Qed.

(** *** The widget's own methods *)

Lemma Inv_set_tool tool : preserves Inv (_set_tool tool).
Proof. unfold _set_tool. pres. Qed.

Lemma Inv_update_edited_path_field path : preserves Inv (_update_edited_path_field path).
Proof. unfold _update_edited_path_field. pres. Qed.

Lemma Inv_save_image : preserves Inv _save_image.
Proof.
  unfold _save_image, scene_items, sceneRect, mkdir_parents, image_save, wrapped.
  pres; try apply Inv_update_edited_path_field.
  all: apply preserves_for_each; intros [i id] _; pres.
Qed.

Lemma alive_delete_all (h : gmap ItemId Item) l x :
  is_Some (foldr delete h l !! x) -> is_Some (h !! x).
Proof.
  induction l as [|y l IH]; cbn [foldr]; [auto|].
  rewrite lookup_delete_is_Some. intros [_ H]. now apply IH.
Qed.

(** The part of [load_photo] that replaces the content of the scene. *)
Lemma Inv_load_scene w h (k : M unit) :
  preserves Inv k ->
  preserves Inv
    (scene_clear ;;
     id <- new_item (mkItem (PixmapItem w h) None NoBrush origin (-1) false false false) ;;
     modify (upd_widget (with_pixmap_item (Some id))) ;;
     addItem id ;; k).
Proof.
  intros Hk st H. unfold scene_clear, new_item, addItem, wrapped.
  unfold bind at 1. unfold modify at 1. unfold bind at 1. unfold bind at 1.
  unfold modify at 1. unfold bind at 1. unfold bind at 1. unfold bind at 1.
  unfold get at 1. cbn. rewrite lookup_insert_eq. cbn. apply Hk.
  destruct H as [I1 I2 I3 I4 I5 I6].
  constructor; unfold alive in *; cbn.
  - intros id [<-|[]]. rewrite lookup_insert_eq. eauto.
  - intros id [<-|[_ Hid]]%lookup_insert_is_Some; [lia|].
    apply alive_delete_all, I2 in Hid. lia.
  - apply NoDup_singleton.
  - intros b [= <-]. now left.
  - intros c Hc. apply I5 in Hc. lia.
  - intros b [= <-] Hc. apply I5 in Hc. lia.
Qed.

Lemma Inv_get_photo_path feature : preserves Inv (_get_photo_path feature).
Proof.
  unfold _get_photo_path.
  generalize ["photo_original_path"; "photo_path"]. intros l.
  induction l as [|name rest IH]; pres; exact IH.
Qed.

Lemma Inv_load_image_as_pixmap path : preserves Inv (_load_image_as_pixmap path).
Proof. unfold _load_image_as_pixmap. pres. Qed.

Lemma Inv_load_photo form_feature : preserves Inv (load_photo form_feature).
Proof.
  unfold load_photo.
  apply preserves_bind; [apply Inv_logMessage | intros _].
  apply preserves_try; [|intros e; pres].
  apply preserves_bind; [pres | intros feature].
  destruct feature as [f|]; [|pres].
  destruct (negb (f_valid f)); [pres|].
  apply preserves_bind; [apply Inv_get_photo_path | intros found].
  destruct found as [photo_path|]; [|pres].
  apply preserves_bind; [apply preserves_get | intros st].
  destruct (negb (path_exists (world st) photo_path)); [pres|].
  apply preserves_bind; [apply Inv_load_image_as_pixmap | intros pixmap].
  destruct pixmap as [[w h]|]; [|pres].
  apply Inv_load_scene.
  apply preserves_bind; [|intros _; pres].
  apply triple_modify. intros st'. now apply Inv_same.
Qed.

Lemma Inv_handle a : preserves Inv (handle a).
Proof.
  destruct a; cbn [handle].
  - apply Inv_mousePressEvent.
  - apply Inv_mouseMoveEvent.
  - apply Inv_mouseReleaseEvent.
  - unfold _on_tool_button_clicked. pres. apply Inv_set_tool.
  - unfold _set_line_width. pres.
  - unfold _on_color_clicked, _choose_color. pres.
  - unfold _on_delete_clicked. pres. apply Inv_delete_selected.
  - unfold _on_clear_clicked. pres. apply Inv_clear_drawings.
  - unfold _on_save_clicked. pres. apply Inv_save_image.
  - unfold setFeature. pres. apply Inv_load_photo.
Qed.

Lemma Inv_step st a : Inv st -> Inv (step st a).
Proof. intros H. unfold step. now apply triple_final; [apply Inv_handle|]. Qed.

Lemma Inv_run actions : forall st, Inv st -> Inv (run actions st).
Proof.
  unfold run. induction actions as [|a actions IH]; intros st H; cbn [fold_left];
    [assumption|]. now apply IH, Inv_step.
Qed.

Lemma Inv_init w : Inv (init w).
Proof.
  constructor; unfold alive; cbn; try discriminate; try tauto.
  - intros id [? H]. now rewrite lookup_empty in H.
  - apply NoDup_nil_2.
Qed.

End HandlerFacts.

(* ================================================================== *)

(** * The claims of the specification *)

Section CodecClaims.
Import FileParser.

(** C6 (as amended).  For every non-empty build code without a hyphen,
    non-empty facility name without an underscore, non-empty facility number
    without a dot, and every extension made of a dot followed by one or more
    characters other than a dot, parsing the file name that [build] composes
    succeeds and returns exactly the four components. *)
Theorem filename_roundtrip (bc fn num ext : string) :
  bc <> "" -> Str.has_char "-" bc = false ->
  fn <> "" -> Str.has_char "_" fn = false ->
  num <> "" -> Str.has_char "." num = false ->
  dotted_extension ext = true ->
  parse (build bc fn num ext) = Some (components bc fn num ext).
Proof.
  intros Hbc1 Hbc2 Hfn1 Hfn2 Hnum1 Hnum2 Hext.
  destruct ext as [|c e]; [discriminate|]. cbn [dotted_extension] in Hext.
  apply andb_prop in Hext as [[Hc He1]%andb_prop He2].
  apply Ascii.eqb_eq in Hc. subst c.
  apply negb_true_iff in He1, He2.
  apply (parse_build_dotted bc fn num e); try assumption.
  intros ->. discriminate He1.
Qed.

Lemma filename_roundtrip_witness :
  parse (build "BLD001" "girder" "01" ".jpg")
  = Some (components "BLD001" "girder" "01" ".jpg").
Proof.
  apply (filename_roundtrip "BLD001" "girder" "01" ".jpg");
    first [discriminate | reflexivity].
Defined.

(** C6 as stated fails: the components satisfy the three conditions, the
    extension is arbitrary, and the composed name does not parse. *)
Lemma filename_roundtrip_any_extension_fails :
  Str.has_char "-" "BLD001" = false /\
  Str.has_char "_" "girder" = false /\
  Str.has_char "." "01" = false /\
  build "BLD001" "girder" "01" ".tar.gz" = "BLD001-girder_01.tar.gz" /\
  parse (build "BLD001" "girder" "01" ".tar.gz") = None /\
  parse (build "BLD001" "girder" "01" "") = None /\
  parse (build "BLD001" "girder" "01" "jpg") = None.
Proof. repeat split; reflexivity. Qed.

End CodecClaims.

Section PathClaims.
Import PosixPath Editor.

Lemma In_removelast_In {A} (x : A) l : In x (removelast l) -> In x l.
Proof.
  induction l as [|y [|z l] IH]; cbn [removelast In]; [tauto | tauto |].
  intros [->|H]; [now left | right; now apply IH].
Qed.

Lemma last_tail {A} (x : A) rest d : rest <> [] -> List.last (x :: rest) d = List.last rest d.
Proof. destruct rest; [congruence | reflexivity]. Qed.

(** C2 (as amended).  On a POSIX host, for every source path, with the root
    and the segments [Path] gives it.  When a segment is named [original]:
    if the last segment is not named so, the first segment of a relative path
    is not named so, and no two neighbouring segments are both named so, the
    destination is the same path with every segment named [original]
    replaced by [edited].  When no segment is named [original]: a path of two
    segments or more has as its destination the directory [edited] beside its
    parent directory, joined with the file name; a path of one segment or
    none has the directory [edited] under its root, joined with the segment. *)
Theorem destination_remapping (src : string) :
  let p := of_string src in
  (In "original" (parts p) ->
   List.last (parts p) "" <> "original" ->
   (root p = "" -> List.hd "" (parts p) <> "original") ->
   apart "original" (parts p) = true ->
   edited_path_of src = mk (root p) (List.map rename (parts p)))
  /\
  (~ In "original" (parts p) ->
   (forall dirs d f,
       parts p = dirs ++ [d; f] ->
       edited_path_of src = mk (root p) (dirs ++ ["edited"; f]))
   /\
   (List.length (parts p) <= 1 ->
    edited_path_of src = mk (root p) ("edited" :: parts p))).
Proof.
  cbv zeta. rewrite (edited_path_of_any src). cbv zeta.
  destruct (of_string src) as [r segs]. cbn [root parts]. split.
  - intros Hin Hlast Hhead Hap.
    assert (Hfound : found_in r segs = true
                     /\ renamed_in r segs = List.map rename segs).
    { unfold found_in, renamed_in.
      destruct r as [|c r].
      - destruct segs as [|x rest]; [destruct Hin|].
        specialize (Hhead eq_refl). cbn [List.hd] in Hhead.
        destruct Hin as [->|Hin]; [contradiction|].
        assert (Hrest : rest <> []) by (intros ->; destruct Hin).
        rewrite (last_tail _ _ _ Hrest) in Hlast.
        split; [now apply has_dir_present|].
        cbn [List.map]. unfold rename at 1.
        destruct (String.eqb_spec x "original"); [contradiction|]. f_equal.
        apply (renamed_map (List.length rest)); [lia | | exact Hlast].
        destruct rest as [|y more]; [reflexivity|]. cbn [apart] in Hap.
        now apply andb_prop in Hap as [_ Hap].
      - split; [now apply has_dir_present|].
        now apply (renamed_map (List.length segs)). }
    destruct Hfound as [-> ->]. reflexivity.
  - intros Hno.
    assert (Hfound : found_in r segs = false).
    { unfold found_in. destruct r as [|c r]; [destruct segs as [|x rest]|];
        apply has_dir_absent; intros H%In_removelast_In; apply Hno;
        try exact H. now right. }
    rewrite Hfound. split.
    + intros dirs d f ->.
      replace (dirs ++ [d; f]) with ((dirs ++ [d]) ++ [f]) by now rewrite <- app_assoc.
      rewrite removelast_last, removelast_last, last_last.
      destruct ((dirs ++ [d]) ++ [f]) eqn:E; [now destruct dirs|].
      now rewrite <- app_assoc.
    + intros Hlen. destruct segs as [|x [|y more]]; [reflexivity | reflexivity |].
      simpl in Hlen. lia.
Qed.

Lemma destination_remapping_witness :
  edited_path_of "photos/original/sub/img.jpg"
  = mk "" ["photos"; "edited"; "sub"; "img.jpg"]
  /\ edited_path_of "/data/photos/img.jpg" = mk "/" ["data"; "edited"; "img.jpg"]
  /\ edited_path_of "img.jpg" = mk "" ["edited"; "img.jpg"].
Proof.
  split; [|split].
  - apply (proj1 (destination_remapping "photos/original/sub/img.jpg"));
      [cbn; tauto | discriminate | discriminate | reflexivity].
  - apply (proj1 (proj2 (destination_remapping "/data/photos/img.jpg")
                    ltac:(cbn; intuition discriminate)) ["data"] "photos" "img.jpg").
    reflexivity.
  - apply (proj2 (proj2 (destination_remapping "img.jpg")
                    ltac:(cbn; intuition discriminate))).
    cbn. lia.
Defined.

(** C2 as stated fails.  A relative path whose first segment is named
    [original] keeps that segment, a file that is itself named [original]
    is not renamed, and of two neighbouring segments named [original] only
    the first is replaced. *)
Lemma destination_remapping_fails :
  In "original" (parts (of_string "original/sub/img.jpg")) /\
  to_string (edited_path_of "original/sub/img.jpg") = "original/edited/img.jpg" /\
  to_string (edited_path_of "original/sub/img.jpg") <> "edited/sub/img.jpg" /\
  In "original" (parts (of_string "/data/original")) /\
  to_string (edited_path_of "/data/original") = "/edited/original" /\
  to_string (edited_path_of "/data/original") <> "/data/edited" /\
  to_string (edited_path_of "/a/original/original/x.jpg") = "/a/edited/original/x.jpg".
Proof.
  repeat split; try reflexivity; try discriminate; cbn; tauto.
Qed.

(** The same rule with the root [//] and with more than one directory to
    rename. *)
Example destination_of_other_paths :
  to_string (edited_path_of "//srv/original/x.jpg") = "//srv/edited/x.jpg"
  /\ to_string (edited_path_of "/a/original/b/original/x.jpg") = "/a/edited/b/edited/x.jpg"
  /\ to_string (edited_path_of "photos/img.jpg") = "edited/img.jpg"
  /\ to_string (edited_path_of "/img.jpg") = "/edited/img.jpg".
Proof. repeat split; reflexivity. Qed.

End PathClaims.

Section ViewerClaims.
Import Host Viewer.

Lemma resolve_first_present feature :
  resolve_photo_path feature = first_present feature.
Proof.
  unfold resolve_photo_path, first_present. rewrite !resolve_from_cons.
  cbn [resolve_from]. destruct (field_text feature "photo_edited_path"); [reflexivity|].
  now destruct (field_text feature "photo_edited").
Qed.

(** C8.  For every record the viewer takes the photo path from the first of
    the fields [photo_edited_path], [photo_edited] that is present with a
    text; a field whose text, without the white space around it, is the word
    NULL in any of its sixteen letter cases counts as a field the record does
    not have, so that the next field decides; and what the viewer shows is
    decided by the path so found: that no edited photo is saved when there is
    none, and otherwise that the file is missing, cannot be read, or the
    photo itself. *)
Theorem viewer_field_resolution (feature : Feature) :
  resolve_photo_path feature = first_present feature
  /\ (forall name s, null_word (strip s) = true ->
        resolve_photo_path (set_attribute name (VStr s) feature)
        = resolve_photo_path (drop_field name feature))
  /\ (forall exists_ decodes,
        f_valid feature = true ->
        load_photo exists_ decodes (Some feature)
        = match first_present feature with
          | None => NotSaved
          | Some photo_path =>
              if exists_ photo_path then
                if decodes photo_path then Showing photo_path
                else DecodeFailed photo_path
              else FileMissing photo_path
          end).
Proof.
  split; [apply resolve_first_present | split].
  - intros name s Hs. rewrite !resolve_first_present. unfold first_present.
    now rewrite !(field_text_null name s feature _ Hs).
  - intros ex dec Hv. unfold load_photo. rewrite Hv. cbn [negb].
    rewrite resolve_first_present.
    destruct (first_present feature) as [p|]; [|reflexivity].
    destruct (ex p); [|reflexivity]. now destruct (dec p).
Qed.

(** A record whose first field holds an ideographic space and the word
    null, and whose second field holds a path between spaces. *)
Lemma viewer_field_resolution_witness :
  let second := mkFeature 7 true {[ "photo_edited" := VStr " /data/edited/img.jpg " ]} in
  let feature := set_attribute "photo_edited_path" (VStr (Str.chr 12288 +:+ "nUlL")) second in
  resolve_photo_path feature = resolve_photo_path (drop_field "photo_edited_path" second)
  /\ resolve_photo_path feature = Some "/data/edited/img.jpg"
  /\ load_photo (fun _ => true) (fun _ => true) (Some feature) = Showing "/data/edited/img.jpg".
Proof.
  cbv zeta.
  pose proof (viewer_field_resolution
                (mkFeature 7 true {[ "photo_edited" := VStr " /data/edited/img.jpg " ]}))
    as [_ [H _]].
  specialize (H "photo_edited_path" (Str.chr 12288 +:+ "nUlL") eq_refl).
  split; [exact H|]. split; [reflexivity|].
  pose proof (viewer_field_resolution
                (set_attribute "photo_edited_path" (VStr (Str.chr 12288 +:+ "nUlL"))
                   (mkFeature 7 true {[ "photo_edited" := VStr " /data/edited/img.jpg " ]})))
    as [_ [_ L]].
  rewrite (L (fun _ => true) (fun _ => true) eq_refl). reflexivity.
Defined.

Example viewer_skips_null :
  resolve_photo_path
    (mkFeature 7 true {[ "photo_edited_path" := VStr "nUlL";
                         "photo_edited" := VStr " /data/edited/img.jpg " ]})
  = Some "/data/edited/img.jpg".
Proof. reflexivity. Qed.

Example viewer_first_field_wins :
  resolve_photo_path
    (mkFeature 7 true {[ "photo_edited_path" := VStr "/a.jpg";
                         "photo_edited" := VStr "/b.jpg" ]})
  = Some "/a.jpg".
Proof. reflexivity. Qed.

End ViewerClaims.

Section SceneClaims.
Import Geometry Host Editor.

(** C3.  From any state of the widget and after any sequence of actions,
    once a background photo item is set: clearing the annotations returns
    and leaves exactly one item in the scene, the background photo item; and
    deleting the selected items returns and leaves the background photo item
    in the scene, whatever is selected. *)
Theorem deletion_invariant (st : St) (actions : list Action) (b : ItemId) :
  Inv st ->
  pixmap_item (widget (run actions st)) = Some b ->
  (exists st', _clear_drawings (run actions st) = Ok tt st'
               /\ members (scene st') = [b]
               /\ pixmap_item (widget st') = Some b)
  /\
  (exists st', _delete_selected (run actions st) = Ok tt st'
               /\ In b (members (scene st'))
               /\ pixmap_item (widget st') = Some b).
Proof.
  intros H Hb. pose proof (Inv_run actions st H) as Hrun. split.
  - eexists. split; [now apply clear_drawings_eval|].
    split; [|exact Hb]. now apply (members_cleared _ b Hrun).
  - eexists. split; [now apply delete_selected_eval|]. split; [|exact Hb].
    assert (Hinv : Inv (final_state (_delete_selected (run actions st)))).
    { now apply triple_final; [apply Inv_delete_selected|]. }
    rewrite delete_selected_eval in Hinv by assumption.
    now apply (inv_pixmap _ Hinv).
Qed.

End SceneClaims.

(** ** The editor: what the drawing steps compute *)

(** ** Binary64 numbers *)

Section FloatFacts.
Import Editor.
#[local] Open Scope float_scope.

Lemma ltb_opp (w : float) : (w <? 0) = true -> (- w <? 0) = false.
Proof.
  rewrite !FloatAxioms.ltb_spec, FloatAxioms.opp_spec. change (Prim2SF 0) with (S754_zero false).
  destruct (Prim2SF w) as [s|s| |s m e]; cbn; try discriminate;
    destruct s; cbn; congruence.
Qed.

Lemma abs_opp (w : float) : abs (- w) = abs w.
Proof.
  apply Prim2SF_inj. rewrite !FloatAxioms.abs_spec, FloatAxioms.opp_spec.
  now destruct (Prim2SF w).
Qed.

Lemma is_finite_spec (x : float) :
  is_finite x = true ->
  (exists s, Prim2SF x = S754_zero s) \/ (exists s m e, Prim2SF x = S754_finite s m e).
Proof.
  unfold is_finite, is_nan, is_infinity. rewrite !FloatAxioms.eqb_spec, FloatAxioms.abs_spec.
  change (Prim2SF infinity) with (S754_infinity false).
  destruct (Prim2SF x) as [s|s| |s m e]; cbn; try discriminate; eauto.
  rewrite orb_true_r. discriminate.
Qed.

(** A finite number minus itself is the positive zero. *)
Lemma sub_diag (x : float) : is_finite x = true -> x - x = 0.
Proof.
  intros H. apply Prim2SF_inj. rewrite FloatAxioms.sub_spec.
  change (Prim2SF 0) with (S754_zero false).
  destruct (is_finite_spec x H) as [[s ->]|(s & m & e & ->)].
  - now destruct s.
  - unfold SF64sub, SFsub. rewrite Z.min_id, Z.sub_diag. reflexivity.
Qed.

(** The powers of zero need no C library. *)
Lemma float_pow_zero pow :
  float_pow pow 0 2 = PowFloat 0 /\ float_pow pow (0 + 0) 0.5 = PowFloat 0.
Proof. split; reflexivity. Qed.

End FloatFacts.

Section DrawingFacts.
Import Geometry Host Editor.
#[local] Open Scope py_scope.

Lemma bind_ok {A B} (m : M A) (k : A -> M B) st a st' :
  m st = Ok a st' -> bind m k st = k a st'.
Proof. intros H. unfold bind. now rewrite H. Qed.

Lemma remove_current_item_eval st :
  preview_alive st ->
  remove_current_item st = Ok tt (upd_scene (without (preview_of st)) st).
Proof.
  intros Ha. unfold remove_current_item, preview_of, bind, get.
  destruct (current_item (view st)) as [c|] eqn:E.
  - rewrite removeItem_alive by (apply Ha; exact E).
    f_equal. unfold upd_scene. f_equal. unfold without, with_members. f_equal.
    apply filter_ext. intros y. cbn. now rewrite orb_false_r.
  - unfold ret. now rewrite without_nil.
Qed.

Lemma roomy_Inv st : Inv st -> roomy st.
Proof. intros H id Hid. now apply (inv_fresh _ H), (inv_members _ H). Qed.

Lemma roomy_without ids st : roomy st -> roomy (upd_scene (without ids) st).
Proof. intros H id [Hid _]%filter_In. now apply H. Qed.

Lemma roomy_added it st : roomy st -> roomy (upd_scene (added it) st).
Proof.
  intros H id. cbn. intros [Hid|[<-|[]]]%in_app_or; [apply H in Hid|]; lia.
Qed.

Lemma new_added_eval {B} it (k : M B) st :
  roomy st ->
  (item <- new_item it ;; addItem item ;; k) st = k (upd_scene (added it) st).
Proof.
  intros Hr. unfold new_item, addItem, wrapped.
  unfold bind at 1. cbn beta iota. unfold bind at 1. unfold bind at 1.
  unfold bind at 1. unfold get at 1. cbn [scene upd_scene heap].
  rewrite lookup_insert_eq. unfold ret at 1. unfold modify at 1.
  f_equal. unfold upd_scene, added, in_scene. cbn.
  destruct (existsb (Nat.eqb (next_id (scene st))) (members (scene st))) eqn:E;
    [|reflexivity].
  apply existsb_exists in E as [x [Hx E]]. apply Nat.eqb_eq in E. subst x.
  apply Hr in Hx. lia.
Qed.

Lemma new_added_last {B} it (k : unit -> M B) st :
  roomy st ->
  bind (item <- new_item it ;; addItem item) k st = k tt (upd_scene (added it) st).
Proof.
  intros Hr. unfold bind at 1.
  pose proof (new_added_eval it (ret tt) st Hr) as H.
  assert (E : (item <- new_item it ;; addItem item) st = Ok tt (upd_scene (added it) st)).
  { transitivity ((item <- new_item it ;; addItem item ;; ret tt) st); [|exact H].
    unfold bind. destruct (new_item it st) as [a s1|]; [|reflexivity].
    now destruct (addItem a s1) as [[] ?|]. }
  now rewrite E.
Qed.

Lemma new_added_ok it st :
  roomy st ->
  (item <- new_item it ;; addItem item) st = Ok tt (upd_scene (added it) st).
Proof.
  intros Hr. pose proof (new_added_eval it (ret tt) st Hr) as H.
  transitivity ((item <- new_item it ;; addItem item ;; ret tt) st); [|exact H].
  unfold bind. destruct (new_item it st) as [a s1|]; [|reflexivity].
  now destruct (addItem a s1) as [[] ?|].
Qed.

Lemma bind_start_point {B} (k : QPointF -> M B) st p :
  start_point (view st) = Some p -> bind the_start_point k st = k p st.
Proof. intros H. unfold the_start_point, bind, get, ret. now rewrite H. Qed.

(** *** The arrow *)

Lemma power_eval iv iw st x :
  float_pow (libm_pow (world st)) iv iw = PowFloat x -> power iv iw st = Ok x st.
Proof. intros H. unfold power, bind, get. now rewrite H. Qed.

Lemma create_arrow_eval st start tip dx2 dy2 length :
  roomy st -> preview_alive st -> start_point (view st) = Some start ->
  let pen := mkPen (current_color (widget st)) (line_width (widget st)) in
  let body :=
    upd_scene (added (finished_item (LineItem start tip) pen NoBrush))
              (upd_scene (without (preview_of st)) st) in
  let dx := (px tip - px start)%float in
  let dy := (py tip - py start)%float in
  float_pow (libm_pow (world st)) dx 2 = PowFloat dx2 ->
  float_pow (libm_pow (world st)) dy 2 = PowFloat dy2 ->
  float_pow (libm_pow (world st)) (dx2 + dy2) 0.5 = PowFloat length ->
  _create_arrow tip st
  = if (0 <? length)%float then
      match float_of_int (line_width (widget st) * 4) with
      | Some arrow_size =>
          let '(c2, c3) := arrow_corners (px tip) (py tip) arrow_size dx dy length in
          Ok tt (logged (MsgArrow start tip) Info
                   (upd_scene
                      (added (finished_item
                                (PolygonItem [tip; mkPoint (fst c2) (snd c2);
                                              mkPoint (fst c3) (snd c3)])
                                pen (SolidBrush (current_color (widget st)))))
                      body))
      | None => Raised (OverflowError "int too large to convert to float") body
      end
    else Ok tt (logged (MsgArrow start tip) Info body).
Proof.
  intros Hr Ha Hs pen body dx dy H1 H2 H3. unfold _create_arrow.
  rewrite (bind_ok _ _ _ _ _ (remove_current_item_eval st Ha)).
  unfold _get_pen. unfold bind at 1. unfold bind at 1. unfold get at 1. unfold ret at 1.
  rewrite (bind_start_point _ _ start) by exact Hs.
  rewrite new_added_eval by now apply roomy_without.
  unfold bind at 1. unfold get at 1. cbv zeta.
  cbn [widget world upd_scene].
  fold pen. fold body.
  unfold bind at 1. rewrite (power_eval _ _ body dx2) by exact H1.
  unfold bind at 1. rewrite (power_eval _ _ body dy2) by exact H2.
  unfold bind at 1. unfold bind at 1.
  rewrite (power_eval _ _ body length) by exact H3.
  destruct (0 <? length)%float; [|reflexivity].
  unfold int_to_float. unfold bind at 1.
  destruct (float_of_int (line_width (widget st) * 4)) as [arrow_size|]; [|reflexivity].
  unfold ret at 1. subst dx dy.
  destruct (arrow_corners (px tip) (py tip) arrow_size
              (px tip - px start)%float (py tip - py start)%float length) as [c2 c3].
  rewrite new_added_ok by now apply roomy_added, roomy_without.
  reflexivity.
Qed.

Lemma create_arrow_degenerate st start :
  roomy st -> preview_alive st -> start_point (view st) = Some start ->
  is_finite (px start) = true -> is_finite (py start) = true ->
  _create_arrow start st
  = Ok tt (logged (MsgArrow start start) Info
             (upd_scene (added (finished_item (LineItem start start)
                                   (mkPen (current_color (widget st)) (line_width (widget st)))
                                   NoBrush))
                        (upd_scene (without (preview_of st)) st))).
Proof.
  intros Hr Ha Hs Hx Hy.
  destruct (float_pow_zero (libm_pow (world st))) as [Z2 Zh].
  rewrite (create_arrow_eval st start start 0 0 0 Hr Ha Hs);
    rewrite ?(sub_diag _ Hx), ?(sub_diag _ Hy); [reflexivity | exact Z2 | exact Z2 | exact Zh].
Qed.

End DrawingFacts.

Section ArrowClaims.
Import Geometry Host Editor.

Lemma sqrt_sum_squares_pos (dx dy : R) :
  (dx <> 0 \/ dy <> 0)%R -> (0 < R_sqrt.sqrt (dx * dx + dy * dy))%R.
Proof. intros H. apply sqrt_lt_R0. nra. Qed.

Lemma unit_direction (dx dy len : R) :
  (len * len = dx * dx + dy * dy -> len <> 0 ->
   (dx / len) * (dx / len) + (dy / len) * (dy / len) = 1)%R.
Proof. intros H Hl. field_simplify_eq; [|exact Hl]. nra. Qed.

(** The corners of the arrowhead in exact arithmetic. *)
Lemma arrow_corners_exact (sx sy ex ey w : R) :
  (sx, sy) <> (ex, ey) ->
  let start : RPoint := (sx, sy) in
  let tip : RPoint := (ex, ey) in
  let dx := (ex - sx)%R in
  let dy := (ey - sy)%R in
  let length := R_sqrt.sqrt (dx * dx + dy * dy) in
  let '(p2, p3) := arrow_corners (F:=R) ex ey (4 * w)%R dx dy length in
  (dist2 p2 tip = dist2 p3 tip
   /\ dist2 p2 tip = (4 * w) * (4 * w) + (2 * w) * (2 * w)
   /\ cross start tip tip (midpoint p2 p3) = 0
   /\ dist2 (midpoint p2 p3) tip = (4 * w) * (4 * w)
   /\ dot start tip p2 p3 = 0
   /\ dist2 p2 p3 = (4 * w) * (4 * w)
   /\ (0 < w -> 0 < dot start tip (midpoint p2 p3) tip))%R.
Proof.
  intros Hne. cbv zeta.
  assert (Hd : (ex - sx <> 0 \/ ey - sy <> 0)%R).
  { destruct (Req_dec (ex - sx) 0) as [Ex|]; [|now left].
    destruct (Req_dec (ey - sy) 0) as [Ey|]; [|now right].
    exfalso. apply Hne. apply f_equal2; lra. }
  pose proof (sqrt_sum_squares_pos _ _ Hd) as Hpos.
  assert (Hsq : (R_sqrt.sqrt ((ex - sx) * (ex - sx) + (ey - sy) * (ey - sy))
                 * R_sqrt.sqrt ((ex - sx) * (ex - sx) + (ey - sy) * (ey - sy))
                 = (ex - sx) * (ex - sx) + (ey - sy) * (ey - sy))%R).
  { apply sqrt_sqrt. apply Rplus_le_le_0_compat; apply Rle_0_sqr. }
  set (len := R_sqrt.sqrt _) in *.
  set (dx := (ex - sx)%R) in *. set (dy := (ey - sy)%R) in *.
  assert (Hl : len <> 0%R) by lra.
  pose proof (unit_direction dx dy len Hsq Hl) as Hu.
  unfold arrow_corners, dist2, cross, dot, midpoint.
  cbn [Num.add Num.sub Num.mul Num.div Num.half Num.exact fst snd].
  fold dx dy.
  set (ux := (dx / len)%R) in *. set (uy := (dy / len)%R) in *.
  repeat split.
  - ring.
  - transitivity (20 * w * w * (ux * ux + uy * uy))%R; [field | rewrite Hu; ring].
  - unfold ux, uy. field. exact Hl.
  - transitivity (16 * w * w * (ux * ux + uy * uy))%R; [field | rewrite Hu; ring].
  - unfold ux, uy. field. exact Hl.
  - transitivity (16 * w * w * (ux * ux + uy * uy))%R; [field | rewrite Hu; ring].
  - intros Hw.
    match goal with |- (0 < ?e)%R => replace e with (4 * w * len)%R end.
    + nra.
    + unfold ux, uy. field_simplify_eq; [|exact Hl]. nra.
Qed.

(** C1 (as amended).  Coordinates are binary64 numbers.  For every state in
    which a drag is open from [start] and every end point [tip], finishing
    the arrow adds the line from [start] to [tip], selectable and movable.
    - When [start] and [tip] are the same point, of finite coordinates,
      nothing else is added.
    - When the three powers of [length = (dx**2 + dy**2)**0.5] are floats:
      if [length > 0] does not hold nothing else is added; if it holds and
      the arrow size (four times the width) has a float, the polygon of
      [tip] and the two corners is added as well, filled with the current
      colour, selectable and movable, the corners being the expressions of
      the code evaluated in binary64.
    - Evaluated in exact arithmetic, for [start] other than [tip] and a
      stroke width [w], the same expressions place the corners at the same
      distance from the tip, their midpoint on the axis [4 w] behind the
      tip, and the segment between them perpendicular to the axis and [4 w]
      long: an isosceles triangle of size [4 w]. *)
Theorem arrowhead_geometry (st : St) (start tip : QPointF) :
  Inv st -> preview_alive st -> start_point (view st) = Some start ->
  let pen := mkPen (current_color (widget st)) (line_width (widget st)) in
  let line := mkItem (LineItem start tip) (Some pen) NoBrush (mkPoint 0 0) 0
                     true true false in
  let body := upd_scene (added line) (upd_scene (without (preview_of st)) st) in
  let dx := (px tip - px start)%float in
  let dy := (py tip - py start)%float in
  (is_finite (px start) = true -> is_finite (py start) = true -> start = tip ->
   _create_arrow tip st = Ok tt (logged (MsgArrow start tip) Info body))
  /\
  (forall dx2 dy2 length,
      float_pow (libm_pow (world st)) dx 2 = PowFloat dx2 ->
      float_pow (libm_pow (world st)) dy 2 = PowFloat dy2 ->
      float_pow (libm_pow (world st)) (dx2 + dy2) 0.5 = PowFloat length ->
      ((0 <? length)%float = false ->
       _create_arrow tip st = Ok tt (logged (MsgArrow start tip) Info body))
      /\
      ((0 <? length)%float = true ->
       forall arrow_size,
         float_of_int (line_width (widget st) * 4) = Some arrow_size ->
         let '(c2, c3) := arrow_corners (px tip) (py tip) arrow_size dx dy length in
         let head :=
           mkItem (PolygonItem [tip; mkPoint (fst c2) (snd c2); mkPoint (fst c3) (snd c3)])
                  (Some pen) (SolidBrush (current_color (widget st))) (mkPoint 0 0) 0
                  true true false in
         _create_arrow tip st
         = Ok tt (logged (MsgArrow start tip) Info (upd_scene (added head) body))))
  /\
  (forall sx sy ex ey w : R,
      (sx, sy) <> (ex, ey) ->
      let a : RPoint := (sx, sy) in
      let b : RPoint := (ex, ey) in
      let dx := (ex - sx)%R in
      let dy := (ey - sy)%R in
      let '(p2, p3) := arrow_corners (F:=R) ex ey (4 * w)%R dx dy (R_sqrt.sqrt (dx * dx + dy * dy)) in
      (dist2 p2 b = dist2 p3 b
       /\ dist2 p2 b = (4 * w) * (4 * w) + (2 * w) * (2 * w)
       /\ cross a b b (midpoint p2 p3) = 0
       /\ dist2 (midpoint p2 p3) b = (4 * w) * (4 * w)
       /\ dot a b p2 p3 = 0
       /\ dist2 p2 p3 = (4 * w) * (4 * w)
       /\ (0 < w -> 0 < dot a b (midpoint p2 p3) b))%R).
Proof.
  intros Hinv Halive Hstart pen line body dx dy.
  pose proof (roomy_Inv _ Hinv) as Hr.
  split; [|split].
  - intros Hx Hy <-. now apply create_arrow_degenerate.
  - intros dx2 dy2 length H1 H2 H3.
    pose proof (create_arrow_eval st start tip dx2 dy2 length Hr Halive Hstart H1 H2 H3) as E.
    cbv zeta in E. split.
    + intros Hl. now rewrite Hl in E.
    + intros Hl arrow_size Hsize. rewrite Hl, Hsize in E.
      fold dx dy in E.
      destruct (arrow_corners (px tip) (py tip) arrow_size dx dy length) as [c2 c3].
      exact E.
  - intros sx sy ex ey w Hne. exact (arrow_corners_exact sx sy ex ey w Hne).
Qed.

Lemma Inv_sample_loaded : Inv sample_loaded.
Proof. apply Inv_run, Inv_init. Qed.

Lemma arrowhead_geometry_witness :
  (exists st',
      _create_arrow (mkPoint 3 4) arrow_drag = Ok tt st'
      /\ scene_shapes st'
         = [PixmapItem 800 600;
            LineItem (mkPoint 0 0) (mkPoint 3 4);
            PolygonItem [mkPoint 3 4;
                         mkPoint 0.60000000000000142 (-9.2000000000000011);
                         mkPoint (-9) (-2.0000000000000018)]])
  /\ (exists st',
      _create_arrow (mkPoint 0 0) arrow_drag = Ok tt st'
      /\ scene_shapes st'
         = [PixmapItem 800 600; LineItem (mkPoint 0 0) (mkPoint 0 0)]).
Proof.
  assert (Hinv : Inv arrow_drag) by apply Inv_run, Inv_sample_loaded.
  assert (Halive : preview_alive arrow_drag) by (intros c Hc; discriminate Hc).
  split.
  - destruct (arrowhead_geometry arrow_drag (mkPoint 0 0) (mkPoint 3 4) Hinv Halive eq_refl)
      as [_ [H _]].
    destruct (H 9%float 16%float 5%float eq_refl eq_refl eq_refl) as [_ H'].
    specialize (H' eq_refl 12%float eq_refl).
    eexists. split; [exact H'|]. vm_compute. reflexivity.
  - destruct (arrowhead_geometry arrow_drag (mkPoint 0 0) (mkPoint 0 0) Hinv Halive eq_refl)
      as [H _].
    eexists. split; [exact (H eq_refl eq_refl eq_refl)|]. vm_compute. reflexivity.
Defined.

(** C1 as stated fails.  With the width 1, the arrow from (0, 0) to (1, 2)
    gets the corners (1, -2.472135954999579) and (-2.5777087639996634,
    -0.6832815729997476): the squares of their distances to the tip are
    different numbers.  And the arrow from (0, 0) to (1e-200, 0), two
    different points, gets no arrowhead, its length being rounded to zero. *)
Lemma arrowhead_not_isosceles :
  let tip := mkPoint 1 2 in
  let p2 := mkPoint 1 (-2.4721359549995792) in
  let p3 := mkPoint (-2.5777087639996634) (-0.68328157299974757) in
  (exists st',
      _create_arrow tip thin_arrow_drag = Ok tt st'
      /\ scene_shapes st'
         = [PixmapItem 800 600; LineItem (mkPoint 0 0) tip; PolygonItem [tip; p2; p3]])
  /\ Qeq_bool (distance2 p2 tip) (distance2 p3 tip) = false
  /\ mkPoint 0 0 <> mkPoint 1e-200 0
  /\ (exists st',
      _create_arrow (mkPoint 1e-200 0) thin_arrow_drag = Ok tt st'
      /\ scene_shapes st'
         = [PixmapItem 800 600; LineItem (mkPoint 0 0) (mkPoint 1e-200 0)]).
Proof.
  cbv zeta. split; [|split; [|split]].
  - eexists. split; vm_compute; reflexivity.
  - vm_compute. reflexivity.
  - discriminate.
  - eexists. split; vm_compute; reflexivity.
Qed.

End ArrowClaims.

Section BoxClaims.
Import Geometry Host Editor.
#[local] Open Scope py_scope.

Lemma deletion_invariant_witness :
  (exists st', _clear_drawings
                 (run [ToolButton TEXT; Press (quiet_event LeftButton 10 20)] sample_loaded)
               = Ok tt st'
               /\ members (scene st') = [0]
               /\ pixmap_item (widget st') = Some 0)
  /\
  (exists st', _delete_selected
                 (run [ToolButton TEXT; Press (quiet_event LeftButton 10 20)] sample_loaded)
               = Ok tt st'
               /\ In 0 (members (scene st'))
               /\ pixmap_item (widget st') = Some 0).
Proof.
  apply (deletion_invariant sample_loaded
           [ToolButton TEXT; Press (quiet_event LeftButton 10 20)] 0).
  - apply Inv_run, Inv_init.
  - reflexivity.
Defined.

(** One axis of the box in binary64: the extent is never negative, and
    it is the difference of the two coordinates up to its sign. *)
Lemma normalized_axis_float (x w : float) :
  let '(x', w') := normalized_axis x w in
  (w' <? 0)%float = false
  /\ abs w' = abs w
  /\ x' = (if w <? 0 then x + w else x)%float.
Proof.
  unfold normalized_axis. cbn [Num.ltb Num.zero Num.add Num.opp Num.binary64].
  destruct (w <? 0)%float eqn:E.
  - split; [now apply ltb_opp | split; [apply abs_opp | reflexivity]].
  - now repeat split.
Qed.

(** One axis of the box in exact arithmetic: from [a] to [b], the edge is
    the smaller of the two, the extent their distance, and the far edge the
    larger of the two. *)
Lemma normalized_axis_exact (a b : R) :
  let '(x, e) := normalized_axis (F:=R) a (b - a)%R in
  (x = Rmin a b /\ e = Rabs (b - a) /\ 0 <= e /\ x + e = Rmax a b)%R.
Proof.
  unfold normalized_axis. cbn [Num.ltb Num.zero Num.add Num.opp Num.exact].
  unfold Rmin, Rmax, Rabs.
  destruct (Rlt_dec (b - a) 0), (Rle_dec a b), (Rcase_abs (b - a));
    repeat split; lra.
Qed.

(** The preview of a shape tool. *)
Lemma update_shape_preview_eval st start point shape brush :
  roomy st -> preview_alive st -> start_point (view st) = Some start ->
  match current_tool (widget st) with
  | LINE | ARROW => shape = LineItem start point /\ brush = NoBrush
  | RECT => shape = RectItem (normalized (rect_of_points start point))
            /\ brush = TransparentBrush
  | ELLIPSE => shape = EllipseItem (normalized (rect_of_points start point))
               /\ brush = TransparentBrush
  | _ => False
  end ->
  _update_shape_preview point st
  = Ok tt (upd_view (with_current_item (Some (next_id (scene st))))
             (upd_scene (added (plain_item shape
                                  (mkPen (current_color (widget st)) (line_width (widget st)))
                                  brush))
                        (upd_scene (without (preview_of st)) st))).
Proof.
  intros Hr Ha Hs Htool. unfold _update_shape_preview.
  rewrite (bind_ok _ _ _ _ _ (remove_current_item_eval st Ha)).
  unfold bind at 1. unfold get at 1. cbv zeta.
  unfold _get_pen. unfold bind at 1. unfold bind at 1. unfold get at 1. unfold ret at 1.
  assert (Hroom : roomy (upd_scene (without (preview_of st)) st)) by now apply roomy_without.
  assert (Hfresh : in_scene (next_id (scene st)) (scene (upd_scene (without (preview_of st)) st))
                   = false).
  { apply not_true_is_false. intros Hin%in_scene_In. apply Hroom in Hin. cbn in Hin. lia. }
  cbn [widget upd_scene].
  destruct (current_tool (widget st)); try contradiction;
    destruct Htool as [-> ->];
    unfold bind at 1;
    rewrite (bind_start_point _ _ start) by exact Hs;
    unfold new_item, addItem, wrapped, bind, get, ret, modify;
    cbn [view scene upd_view upd_scene current_item with_current_item heap next_id];
    rewrite lookup_insert_eq;
    unfold in_scene, upd_scene, upd_view, added, without, with_members in Hfresh |- *;
    cbn [view scene widget world members next_id heap scene_rect] in Hfresh |- *;
    rewrite Hfresh; reflexivity.
Qed.

Lemma create_rect_eval st start point :
  roomy st -> preview_alive st -> start_point (view st) = Some start ->
  _create_rect point st
  = Ok tt (logged (MsgRect (rw (normalized (rect_of_points start point)))
                           (rh (normalized (rect_of_points start point)))) Info
             (upd_scene (added (finished_item
                                  (RectItem (normalized (rect_of_points start point)))
                                  (mkPen (current_color (widget st)) (line_width (widget st)))
                                  TransparentBrush))
                        (upd_scene (without (preview_of st)) st))).
Proof.
  intros Hr Ha Hs. unfold _create_rect.
  rewrite (bind_ok _ _ _ _ _ (remove_current_item_eval st Ha)).
  rewrite (bind_start_point _ _ start) by exact Hs. cbv zeta.
  unfold _get_pen. unfold bind at 1. unfold bind at 1. unfold get at 1. unfold ret at 1.
  rewrite new_added_eval by now apply roomy_without. reflexivity.
Qed.

Lemma create_ellipse_eval st start point :
  roomy st -> preview_alive st -> start_point (view st) = Some start ->
  _create_ellipse point st
  = Ok tt (logged (MsgEllipse (rw (normalized (rect_of_points start point)))
                              (rh (normalized (rect_of_points start point)))) Info
             (upd_scene (added (finished_item
                                  (EllipseItem (normalized (rect_of_points start point)))
                                  (mkPen (current_color (widget st)) (line_width (widget st)))
                                  TransparentBrush))
                        (upd_scene (without (preview_of st)) st))).
Proof.
  intros Hr Ha Hs. unfold _create_ellipse.
  rewrite (bind_ok _ _ _ _ _ (remove_current_item_eval st Ha)).
  rewrite (bind_start_point _ _ start) by exact Hs. cbv zeta.
  unfold _get_pen. unfold bind at 1. unfold bind at 1. unfold get at 1. unfold ret at 1.
  rewrite new_added_eval by now apply roomy_without. reflexivity.
Qed.

(** C5 (as amended).  Coordinates are binary64 numbers.  For every pair
    of drag points [p] and [q], the box of the rectangle or ellipse built
    from them has a width and a height that are never negative, and are the
    differences [q.x - p.x] and [q.y - p.y] up to their sign; its left (top)
    edge is that of [p] where the difference is not negative, and
    [p.x + (q.x - p.x)] (resp. [y]) where it is, each operation rounded.  In
    exact arithmetic these expressions give the corner (min, min), the
    corner (max, max) and the distances of the coordinates.  It is this box
    that the preview and the finished shape carry, the preview with no flag
    set, the finished shape selectable and movable, both with the pen of the
    widget and a transparent brush. *)
Theorem bounding_box_normalization (st : St) (p q : QPointF) :
  Inv st -> preview_alive st -> start_point (view st) = Some p ->
  let box := normalized (rect_of_points p q) in
  let w := (px q - px p)%float in
  let h := (py q - py p)%float in
  let pen := mkPen (current_color (widget st)) (line_width (widget st)) in
  let cleared_preview := upd_scene (without (preview_of st)) st in
  let preview shape :=
    mkItem shape (Some pen) TransparentBrush (mkPoint 0 0) 0 false false false in
  let finished shape :=
    mkItem shape (Some pen) TransparentBrush (mkPoint 0 0) 0 true true false in
  ((rw box <? 0)%float = false /\ (rh box <? 0)%float = false
   /\ abs (rw box) = abs w /\ abs (rh box) = abs h
   /\ rx box = (if w <? 0 then px p + w else px p)%float
   /\ ry box = (if h <? 0 then py p + h else py p)%float)
  /\ (forall a b : R,
        let '(x, e) := normalized_axis (F:=R) a (b - a)%R in
        (x = Rmin a b /\ e = Rabs (b - a) /\ 0 <= e /\ x + e = Rmax a b)%R)
  /\ (current_tool (widget st) = RECT ->
      _update_shape_preview q st
      = Ok tt (upd_view (with_current_item (Some (next_id (scene st))))
                 (upd_scene (added (preview (RectItem box))) cleared_preview)))
  /\ (current_tool (widget st) = ELLIPSE ->
      _update_shape_preview q st
      = Ok tt (upd_view (with_current_item (Some (next_id (scene st))))
                 (upd_scene (added (preview (EllipseItem box))) cleared_preview)))
  /\ _create_rect q st
     = Ok tt (logged (MsgRect (rw box) (rh box)) Info
                (upd_scene (added (finished (RectItem box))) cleared_preview))
  /\ _create_ellipse q st
     = Ok tt (logged (MsgEllipse (rw box) (rh box)) Info
                (upd_scene (added (finished (EllipseItem box))) cleared_preview)).
Proof.
  intros Hinv Ha Hs box w h pen cleared_preview preview finished.
  pose proof (roomy_Inv _ Hinv) as Hr.
  split; [|split; [exact normalized_axis_exact|]].
  - pose proof (normalized_axis_float (px p) w) as Hx.
    pose proof (normalized_axis_float (py p) h) as Hy.
    subst box. unfold normalized, rect_of_points. cbn [rx ry rw rh]. fold w h.
    destruct (normalized_axis (px p) w) as [x' w'].
    destruct (normalized_axis (py p) h) as [y' h'].
    cbn [rx ry rw rh]. tauto.
  - split; [|split; [|split]].
    + intros Ht. apply (update_shape_preview_eval st p q _ _ Hr Ha Hs). now rewrite Ht.
    + intros Ht. apply (update_shape_preview_eval st p q _ _ Hr Ha Hs). now rewrite Ht.
    + now apply create_rect_eval.
    + now apply create_ellipse_eval.
Qed.

(** The example of the specification: dragging a rectangle from (50, 50)
    to (10, 10). *)
Lemma bounding_box_normalization_witness :
  normalized (rect_of_points (mkPoint 50 50) (mkPoint 10 10)) = mkRect 10 10 40 40
  /\ exists st',
       _create_rect (mkPoint 10 10) rect_drag = Ok tt st'
       /\ scene_shapes st' = [PixmapItem 800 600; RectItem (mkRect 10 10 40 40)].
Proof.
  assert (Hinv : Inv rect_drag) by apply Inv_run, Inv_sample_loaded.
  assert (Ha : preview_alive rect_drag) by (intros c Hc; discriminate Hc).
  destruct (bounding_box_normalization rect_drag (mkPoint 50 50) (mkPoint 10 10)
              Hinv Ha eq_refl) as (_ & _ & _ & _ & E & _).
  split; [reflexivity|].
  eexists. split; [exact E|]. vm_compute. reflexivity.
Defined.

(** C5 as stated fails.  Dragging a rectangle from (0.4, 0.4) to (0.1, 0.1)
    gives a box whose top-left corner is not (0.1, 0.1), the corner of the
    smaller coordinates, but (0.09999999999999998, 0.09999999999999998). *)
Lemma bounding_box_rounds :
  let p := mkPoint 0.4 0.4 in
  let q := mkPoint 0.1 0.1 in
  let box := mkRect 0.099999999999999978 0.099999999999999978
                    0.30000000000000004 0.30000000000000004 in
  normalized (rect_of_points p q) = box
  /\ topLeft box <> q
  /\ Qeq_bool (to_Q (rx box)) (to_Q (px q)) = false
  /\ exists st',
       _create_rect q fraction_drag = Ok tt st'
       /\ scene_shapes st' = [PixmapItem 800 600; RectItem box].
Proof.
  cbv zeta. split; [reflexivity|]. split; [discriminate|].
  split; [vm_compute; reflexivity|].
  eexists. split; vm_compute; reflexivity.
Qed.

End BoxClaims.

Section ToolSwitchClaims.
Import Geometry Host Editor.
#[local] Open Scope py_scope.

Lemma isNull_false (p : QPointF) : (px p =? 0)%float = false -> isNull p = false.
Proof. intros H. unfold isNull. now rewrite H. Qed.

(** A pointer move during a drag with a shape tool replaces the preview. *)
Lemma mouseMoveEvent_preview st event start shape brush :
  roomy st -> preview_alive st ->
  drawing (view st) = true -> start_point (view st) = Some start ->
  isNull start = false ->
  match current_tool (widget st) with
  | LINE | ARROW => shape = LineItem start (scene_pos event) /\ brush = NoBrush
  | RECT => shape = RectItem (normalized (rect_of_points start (scene_pos event)))
            /\ brush = TransparentBrush
  | ELLIPSE => shape = EllipseItem (normalized (rect_of_points start (scene_pos event)))
               /\ brush = TransparentBrush
  | _ => False
  end ->
  mouseMoveEvent event st
  = Ok tt (upd_view (with_current_item (Some (next_id (scene st))))
             (upd_scene (added (plain_item shape
                                  (mkPen (current_color (widget st)) (line_width (widget st)))
                                  brush))
                        (upd_scene (without (preview_of st)) st))).
Proof.
  intros Hr Ha Hd Hs Hnull Htool.
  rewrite <- (update_shape_preview_eval st start (scene_pos event) shape brush Hr Ha Hs Htool).
  unfold mouseMoveEvent. unfold bind at 1. unfold get at 1. cbv zeta.
  rewrite Hd, Hs. cbn [point_truthy andb]. rewrite Hnull. cbn [negb].
  destruct (current_tool (widget st)); try contradiction;
    (destruct (decide _) as [?|_]; [discriminate | reflexivity]).
Qed.

Lemma shape_alter_all (f : ItemId -> Item -> Item) (h : gmap ItemId Item) l x :
  (forall id it, it_shape (f id it) = it_shape it) ->
  it_shape <$> (foldr (fun id h => alter (f id) id h) h l !! x) = it_shape <$> (h !! x).
Proof.
  intros Hf. induction l as [|y l IH]; cbn [foldr]; [reflexivity|].
  rewrite lookup_alter. destruct (decide (y = x)) as [->|_]; [|exact IH].
  rewrite <- IH. destruct (foldr _ h l !! x); cbn; [now rewrite Hf | reflexivity].
Qed.

(** With the select tool every pointer event is Qt's own. *)
Lemma select_event_eval st a event :
  current_tool (widget st) = SELECT ->
  a = Press event \/ a = Move event \/ a = Release event ->
  handle a st = super_mouseEvent event st.
Proof.
  intros Ht [->|[->| ->]]; cbn [handle];
    unfold mousePressEvent, mouseMoveEvent, mouseReleaseEvent;
    unfold bind at 1; unfold get at 1; cbv zeta; rewrite Ht;
    now destruct (decide (SELECT = SELECT)).
Qed.

(** C4 (as amended).  When the active tool is [select] while a drag session
    with a preview shape is open, the next pointer event, whichever it is,
    is handed to Qt's own handler: it returns, the preview shape stays in
    the scene with its shape, and the drag session (drawing flag, start
    point, current item) is left as it was. *)
Theorem select_tool_keeps_preview (st : St) (event : MouseEvent) (c : ItemId)
    (a : Action) :
  current_tool (widget st) = SELECT ->
  current_item (view st) = Some c -> In c (members (scene st)) ->
  a = Press event \/ a = Move event \/ a = Release event ->
  exists st',
    handle a st = Ok tt st'
    /\ view st' = view st
    /\ widget st' = widget st
    /\ members (scene st') = members (scene st)
    /\ In c (members (scene st'))
    /\ it_shape <$> (heap (scene st') !! c) = it_shape <$> (heap (scene st) !! c).
Proof.
  intros Ht Hc Hin Ha. rewrite (select_event_eval st a event Ht Ha).
  eexists. split; [reflexivity|]. cbn. repeat split; try assumption.
  now apply shape_alter_all.
Qed.

Lemma line_drag_moved :
  step line_drag (Move (quiet_event LeftButton 5 5))
  = upd_view (with_current_item (Some 1))
      (upd_scene (added (plain_item (LineItem (mkPoint 1 1) (mkPoint 5 5))
                           (mkPen "#FF0000" 3) NoBrush))
                 line_drag).
Proof.
  unfold step. cbn [handle].
  rewrite (mouseMoveEvent_preview line_drag _ (mkPoint 1 1)
             (LineItem (mkPoint 1 1) (mkPoint 5 5)) NoBrush).
  - cbn [final_state]. vm_compute. reflexivity.
  - apply roomy_Inv, Inv_run, Inv_sample_loaded.
  - intros c Hc. discriminate Hc.
  - reflexivity.
  - reflexivity.
  - apply isNull_false. reflexivity.
  - split; reflexivity.
Qed.

(** C4 as stated fails: a line is dragged from (1, 1) to (5, 5), the tool is
    switched to [select], and the pointer is released; the preview line,
    item 1, is still in the scene, neither selectable nor movable, and the
    view still holds it as its current item with the drag flag set. *)
Lemma tool_switch_leaves_preview :
  let dragged := step line_drag (Move (quiet_event LeftButton 5 5)) in
  let after := run [ToolButton SELECT; Release (quiet_event LeftButton 5 5)] dragged in
  current_tool (widget line_drag) = LINE
  /\ current_item (view dragged) = Some 1
  /\ members (scene dragged) = [0; 1]
  /\ current_tool (widget after) = SELECT
  /\ members (scene after) = [0; 1]
  /\ heap (scene after) !! 1
     = Some (plain_item (LineItem (mkPoint 1 1) (mkPoint 5 5)) (mkPen "#FF0000" 3) NoBrush)
  /\ drawing (view after) = true
  /\ current_item (view after) = Some 1.
Proof.
  cbv zeta. rewrite line_drag_moved. repeat split; vm_compute; reflexivity.
Qed.

Lemma select_tool_keeps_preview_witness :
  let dragged :=
    run [ToolButton SELECT] (step line_drag (Move (quiet_event LeftButton 5 5))) in
  exists st',
    handle (Release (quiet_event LeftButton 5 5)) dragged = Ok tt st'
    /\ view st' = view dragged
    /\ widget st' = widget dragged
    /\ members (scene st') = members (scene dragged)
    /\ In 1 (members (scene st'))
    /\ it_shape <$> (heap (scene st') !! 1) = it_shape <$> (heap (scene dragged) !! 1).
Proof.
  cbv zeta. rewrite line_drag_moved.
  apply (select_tool_keeps_preview _ (quiet_event LeftButton 5 5) 1).
  - vm_compute. reflexivity.
  - vm_compute. reflexivity.
  - vm_compute. tauto.
  - right. right. reflexivity.
Defined.

End ToolSwitchClaims.

(** ** The editor: saving *)

Section SaveFacts.
Import Geometry Host Editor.
#[local] Open Scope py_scope.

(** The loop of [_save_image] that logs every item only writes the log. *)
Lemma log_items_eval (l : list (nat * ItemId)) : forall st,
  (forall i id, In (i, id) l -> alive st id) ->
  exists more,
    for_each l (fun '(i, id) => item <- wrapped id ;; logMessage (MsgItemInfo i item) Info) st
    = Ok tt (upd_world (fun w => with_messages (messages w ++ more) w) st).
Proof.
  induction l as [|[i id] l IH]; intros st Halive.
  - exists []. cbn [for_each]. unfold ret. f_equal.
    destruct st as [v sc wi [d ds ly ms me wo]]. unfold upd_world, with_messages. cbn.
    now rewrite app_nil_r.
  - destruct (Halive i id (or_introl eq_refl)) as [it E].
    cbn [for_each]. unfold bind at 1. unfold wrapped at 1.
    unfold bind at 1. unfold bind at 1. unfold get at 1. rewrite E.
    unfold ret at 1. unfold logMessage at 1. unfold modify at 1.
    destruct (IH (upd_world (fun w => with_messages
                               (messages w ++ [(Info, MsgItemInfo i it)]) w) st))
      as [more Hmore].
    { intros j x Hx. apply (Halive j x). now right. }
    exists ((Info, MsgItemInfo i it) :: more). rewrite Hmore. f_equal.
    destruct st as [v sc wi [d ds ly ms me wo]]. unfold upd_world, with_messages. cbn.
    now rewrite <- app_assoc.
Qed.

(** Steps that only touch fields a property does not read keep it. *)
Ltac keep_step :=
  lazymatch goal with
  | |- preserves _ (bind _ _) => apply preserves_bind; [|intros ?]
  | |- preserves _ (ret _) => apply preserves_ret
  | |- preserves _ (raise _) => apply preserves_raise
  | |- preserves _ get => apply preserves_get
  | |- preserves _ (try_except _ _) => apply preserves_try; [|intros ?]
  | |- preserves _ (for_each _ _) => apply preserves_for_each; intros ? _
  | |- preserves _ (modify _) =>
      let H := fresh in apply preserves_modify; intros ? H; exact H
  | |- preserves _ (new_item _) => let H := fresh in intros ? H; exact H
  | |- preserves _ (match ?x with _ => _ end) => destruct x
  | |- preserves _ (?f _ _ _ _) => unfold f
  | |- preserves _ (?f _ _ _) => unfold f
  | |- preserves _ (?f _ _) => unfold f
  | |- preserves _ (?f _) => unfold f
  | |- preserves _ ?f => unfold f
  end.

Ltac keeps := cbv zeta; repeat (keep_step; cbv zeta).

Lemma photo_path_kept a c :
  is_load a = false ->
  preserves (fun st => current_photo_path (widget st) = c) (handle a).
Proof.
  destruct a; cbn [is_load handle]; intros Hl; try discriminate; keeps.
Qed.

Lemma photo_path_never_set w actions :
  forallb (fun a => negb (is_load a)) actions = true ->
  current_photo_path (widget (run actions (init w))) = None.
Proof.
  unfold run. generalize (init w), (eq_refl : current_photo_path (widget (init w)) = None).
  induction actions as [|a actions IH]; intros st Hst Hacts; cbn [fold_left]; [exact Hst|].
  cbn [forallb] in Hacts. apply andb_prop in Hacts as [Ha Hacts].
  apply IH; [|exact Hacts]. unfold step.
  apply (triple_final (fun st => current_photo_path (widget st) = None));
    [apply photo_path_kept; now apply negb_true_iff | exact Hst].
Qed.

Lemma update_field_missing edited_path st feature ly :
  _current_feature (widget st) = Some feature ->
  layer (world st) = Some ly ->
  has_field feature "photo_edited_path" = false ->
  _update_edited_path_field edited_path st = Ok tt (logged MsgFieldMissing Warning st).
Proof.
  intros Hf Hl Hm. unfold _update_edited_path_field, try_except.
  unfold bind at 1. unfold get at 1. now rewrite Hf, Hl, Hm.
Qed.

Lemma update_field_present edited_path st feature ly :
  _current_feature (widget st) = Some feature ->
  layer (world st) = Some ly ->
  has_field feature "photo_edited_path" = true ->
  _update_edited_path_field edited_path st
  = Ok tt (logged (MsgFieldUpdated edited_path) Info
             (upd_world (with_layer
                (Some (if editable ly
                       then changeAttributeValue (f_id feature) "photo_edited_path"
                              (VStr edited_path) ly
                       else commitChanges
                              (changeAttributeValue (f_id feature) "photo_edited_path"
                                 (VStr edited_path) (startEditing ly))))) st)).
Proof.
  intros Hf Hl Hm. unfold _update_edited_path_field, try_except.
  unfold bind at 1. unfold get at 1. rewrite Hf, Hl, Hm. cbn [negb].
  now destruct (editable ly).
Qed.

Lemma update_field_unbound edited_path st :
  _current_feature (widget st) = None \/ layer (world st) = None ->
  _update_edited_path_field edited_path st = Ok tt st.
Proof.
  intros H. unfold _update_edited_path_field, try_except.
  unfold bind at 1. unfold get at 1.
  destruct (_current_feature (widget st)); [|reflexivity].
  destruct H as [H|H]; [discriminate | now rewrite H].
Qed.

(** [_save_image] up to the write of the file, when nothing fails. *)
Lemma save_image_written st photo_path x y w h :
  Inv st ->
  current_photo_path (widget st) = Some photo_path -> photo_path <> "" ->
  scene_rect (scene st) = Some (x, y, w, h) -> (0 < w)%Z -> (0 < h)%Z ->
  mkdir_error (world st)
    (PosixPath.to_string (PosixPath.parent (edited_path_of photo_path))) = None ->
  write_ok (world st) (PosixPath.to_string (edited_path_of photo_path)) = true ->
  exists st1,
    _save_image st
    = try_except (_update_edited_path_field
                    (PosixPath.to_string (edited_path_of photo_path)))
        (fun e =>
           setStatus ("❌ 保存エラー: " +:+ exn_str e) "color: #FF3B30;" ;;
           logMessage (MsgSaveError (exn_str e)) Critical ;;
           logMessage (MsgTraceback (exn_str e)) Critical) st1
    /\ view st1 = view st /\ scene st1 = scene st
    /\ widget st1
       = with_status (mkStatus ("✓ 保存完了: " +:+ PosixPath.name (edited_path_of photo_path))
                               "color: #34C759;") (widget st)
    /\ disk (world st1)
       = <[PosixPath.to_string (edited_path_of photo_path) :=
             ImageFile "JPEG" 90
               (mkImage w h (omap (fun id => heap (scene st) !! id)
                                  (stacking_order (scene st))))]> (disk (world st))
    /\ layer (world st1) = layer (world st).
Proof.
  intros Hinv Hp Hne Hrect Hw Hh Hmk Hwr.
  destruct photo_path as [|c0 s0]; [congruence|].
  unfold _save_image. unfold bind at 1. unfold get at 1. rewrite Hp.
  unfold try_except at 1.
  unfold scene_items. unfold bind at 1. unfold bind at 1. unfold get at 1. unfold ret at 1.
  unfold bind at 1. unfold logMessage at 1. unfold modify at 1.
  unfold bind at 1.
  destruct (log_items_eval
              (combine (seq 0 (List.length (rev (stacking_order (scene st)))))
                       (rev (stacking_order (scene st))))
              (upd_world (fun w0 => with_messages
                 (messages w0 ++ [(Info, MsgItemCount
                                     (List.length (rev (stacking_order (scene st)))))]) w0) st))
    as [more Hloop].
  { intros i id Hin. apply in_combine_r in Hin. apply in_rev, In_stacking_order in Hin.
    now apply (inv_members _ Hinv). }
  rewrite Hloop. clear Hloop.
  unfold sceneRect. unfold bind at 1. unfold bind at 1. unfold get at 1. unfold ret at 1.
  cbn [scene upd_world]. rewrite Hrect. cbn [default]. unfold Datatypes.id.
  lazy beta iota zeta.
  assert (Hpos : ((w <=? 0)%Z || (h <=? 0)%Z) = false).
  { apply orb_false_iff. split; apply Z.leb_gt; assumption. }
  rewrite Hpos.
  unfold bind at 1. unfold logMessage at 1. unfold modify at 1.
  unfold bind at 1. unfold get at 1.
  unfold bind at 1. unfold logMessage at 1. unfold modify at 1.
  unfold mkdir_parents. unfold bind at 1. unfold bind at 1. unfold get at 1.
  cbn [world upd_world mkdir_error with_messages]. rewrite Hmk.
  unfold modify at 1.
  unfold bind at 1. unfold logMessage at 1. unfold modify at 1.
  unfold image_save. unfold bind at 1. unfold bind at 1. unfold get at 1.
  unfold image_isNull. cbn [im_width im_height]. rewrite Hpos.
  cbn [world upd_world write_ok with_messages with_dirs negb andb]. rewrite Hwr.
  unfold bind at 1. unfold modify at 1. unfold ret at 1.
  unfold bind at 1. unfold setStatus at 1. unfold modify at 1.
  unfold bind at 1. unfold logMessage at 1. unfold modify at 1.
  eexists. split; [reflexivity|].
  cbn. repeat split; reflexivity.
Qed.

(** Writing the record back never raises and leaves everything but the
    layer and the log alone. *)
Lemma update_field_frame edited_path st :
  exists st',
    _update_edited_path_field edited_path st = Ok tt st'
    /\ view st' = view st /\ scene st' = scene st /\ widget st' = widget st
    /\ disk (world st') = disk (world st) /\ dirs (world st') = dirs (world st).
Proof.
  destruct (_current_feature (widget st)) as [feature|] eqn:Hf;
    [|eexists; split; [apply update_field_unbound; now left | repeat split]].
  destruct (layer (world st)) as [ly|] eqn:Hl;
    [|eexists; split; [apply update_field_unbound; now right | repeat split]].
  destruct (has_field feature "photo_edited_path") eqn:Hm.
  - eexists. split; [now apply (update_field_present _ st feature ly)|]. repeat split.
  - eexists. split; [now apply (update_field_missing _ st feature ly)|]. repeat split.
Qed.

(** A save in which nothing fails. *)
Lemma save_image_success st photo_path x y w h :
  Inv st ->
  current_photo_path (widget st) = Some photo_path -> photo_path <> "" ->
  scene_rect (scene st) = Some (x, y, w, h) -> (0 < w)%Z -> (0 < h)%Z ->
  mkdir_error (world st)
    (PosixPath.to_string (PosixPath.parent (edited_path_of photo_path))) = None ->
  write_ok (world st) (PosixPath.to_string (edited_path_of photo_path)) = true ->
  exists st',
    _save_image st = Ok tt st'
    /\ view st' = view st /\ scene st' = scene st
    /\ widget st'
       = with_status (mkStatus ("✓ 保存完了: " +:+ PosixPath.name (edited_path_of photo_path))
                               "color: #34C759;") (widget st)
    /\ disk (world st')
       = <[PosixPath.to_string (edited_path_of photo_path) :=
             ImageFile "JPEG" 90
               (mkImage w h (omap (fun id => heap (scene st) !! id)
                                  (stacking_order (scene st))))]> (disk (world st)).
Proof.
  intros Hinv Hp Hne Hrect Hw Hh Hmk Hwr.
  destruct (save_image_written st photo_path x y w h Hinv Hp Hne Hrect Hw Hh Hmk Hwr)
    as (st1 & E & Hv & Hs & Hwi & Hd & _).
  destruct (update_field_frame (PosixPath.to_string (edited_path_of photo_path)) st1)
    as (st' & E' & Hv' & Hs' & Hwi' & Hd' & _).
  exists st'. rewrite E. unfold try_except. rewrite E'.
  split; [reflexivity|]. now rewrite Hv', Hs', Hwi', Hd'.
Qed.

End SaveFacts.

Section SaveClaims.
Import Geometry Host Editor.
#[local] Open Scope py_scope.

(** C7.  Whenever save is requested while no photo path is held, which is
    the case after any sequence of actions none of which binds a record:
    the request returns without raising, the status area shows the warning
    that there is no image to save, and nothing else changes but one line of
    the message log; no file is written, no directory made, and the layer
    with its records is as before. *)
Theorem save_before_load (st : St) :
  current_photo_path (widget st) = None ->
  (exists st',
      _on_save_clicked st = Ok tt st'
      /\ status_label (widget st') = mkStatus "⚠ 保存する画像がありません" "color: #FF9500;"
      /\ disk (world st') = disk (world st)
      /\ dirs (world st') = dirs (world st)
      /\ layer (world st') = layer (world st)
      /\ scene st' = scene st
      /\ messages (world st') = messages (world st) ++ [(Info, MsgSaveClicked)])
  /\ (forall w actions,
        forallb (fun a => negb (is_load a)) actions = true ->
        current_photo_path (widget (run actions (init w))) = None).
Proof.
  intros Hp. split; [|apply photo_path_never_set].
  eexists. split.
  - unfold _on_save_clicked, _save_image. unfold bind at 1. unfold logMessage at 1.
    unfold modify at 1. unfold bind at 1. unfold get at 1.
    cbn [widget upd_world]. rewrite Hp. reflexivity.
  - repeat split.
Qed.

Lemma save_before_load_witness :
  exists st',
    _on_save_clicked (init sample_world) = Ok tt st'
    /\ status_label (widget st') = mkStatus "⚠ 保存する画像がありません" "color: #FF9500;"
    /\ disk (world st') = disk sample_world
    /\ layer (world st') = layer sample_world.
Proof.
  destruct (proj1 (save_before_load (init sample_world) eq_refl))
    as (st' & E & Hs & Hd & _ & Hl & _).
  exists st'. repeat split; assumption.
Defined.

(** C9.  For every bound record whose schema has no [photo_edited_path]
    field, a save in which the directory can be made and the file written
    returns without raising, reports success in the status area, writes the
    image, logs the warning that the field does not exist, and leaves the
    layer, and so the record, exactly as it was. *)
Theorem missing_output_field_is_not_fatal
    (st : St) (photo_path : string) (x y w h : Z) (feature : Feature) (ly : Layer) :
  Inv st ->
  current_photo_path (widget st) = Some photo_path -> photo_path <> "" ->
  scene_rect (scene st) = Some (x, y, w, h) -> (0 < w)%Z -> (0 < h)%Z ->
  mkdir_error (world st)
    (PosixPath.to_string (PosixPath.parent (edited_path_of photo_path))) = None ->
  write_ok (world st) (PosixPath.to_string (edited_path_of photo_path)) = true ->
  _current_feature (widget st) = Some feature ->
  layer (world st) = Some ly ->
  has_field feature "photo_edited_path" = false ->
  exists st',
    _save_image st = Ok tt st'
    /\ status_label (widget st')
       = mkStatus ("✓ 保存完了: " +:+ PosixPath.name (edited_path_of photo_path))
                  "color: #34C759;"
    /\ layer (world st') = Some ly
    /\ _current_feature (widget st') = Some feature
    /\ last (messages (world st')) = Some (Warning, MsgFieldMissing)
    /\ disk (world st')
       = <[PosixPath.to_string (edited_path_of photo_path) :=
             ImageFile "JPEG" 90
               (mkImage w h (omap (fun id => heap (scene st) !! id)
                                  (stacking_order (scene st))))]> (disk (world st)).
Proof.
  intros Hinv Hp Hne Hrect Hw Hh Hmk Hwr Hf Hl Hm.
  destruct (save_image_written st photo_path x y w h Hinv Hp Hne Hrect Hw Hh Hmk Hwr)
    as (st1 & E & Hv & Hs & Hwi & Hd & Hl1).
  exists (logged MsgFieldMissing Warning st1). rewrite E. unfold try_except.
  rewrite (update_field_missing _ st1 feature ly);
    [ | now rewrite Hwi | now rewrite Hl1 | exact Hm ].
  split; [reflexivity|]. cbn. rewrite Hwi, Hl1, Hd. cbn.
  repeat split; try assumption. apply last_snoc.
Qed.

Lemma missing_output_field_is_not_fatal_witness :
  exists st',
    _save_image sample_loaded = Ok tt st'
    /\ status_label (widget st')
       = mkStatus "✓ 保存完了: BLD001-girder_01.jpg" "color: #34C759;"
    /\ layer (world st') = Some (mkLayer false ∅ ∅)
    /\ last (messages (world st')) = Some (Warning, MsgFieldMissing).
Proof.
  destruct (missing_output_field_is_not_fatal sample_loaded
              "/data/original/BLD001-girder_01.jpg" 0 0 800 600 sample_feature
              (mkLayer false ∅ ∅))
    as (st' & E & Hs & Hl & _ & Hm & _);
    try (vm_compute; reflexivity); try lia; try discriminate.
  - apply Inv_sample_loaded.
  - exists st'. repeat split; assumption.
Defined.

(** Any absolute path whose parent directory is named [edited], and that
    has no segment named [original] before its last, is its own destination. *)
Lemma edited_parent_fixed dirs name src :
  PosixPath.of_string src = PosixPath.mk "/" (dirs ++ ["edited"; name]) ->
  ~ In "original" dirs ->
  edited_path_of src = PosixPath.of_string src.
Proof.
  intros Hsrc Hno. rewrite (edited_path_of_parsed src _ Hsrc), Hsrc.
  rewrite has_dir_absent.
  - replace (dirs ++ ["edited"; name]) with ((dirs ++ ["edited"]) ++ [name])
      by now rewrite <- app_assoc.
    rewrite removelast_last, removelast_last, last_last.
    destruct ((dirs ++ ["edited"]) ++ [name]) eqn:E; [now destruct dirs | now rewrite <- E].
  - replace (dirs ++ ["edited"; name]) with ((dirs ++ ["edited"]) ++ [name])
      by now rewrite <- app_assoc.
    rewrite removelast_last. intros [H|[H|[]]]%in_app_or; [tauto | discriminate].
Qed.

(** C10.  There is a source path with no segment named [original] whose
    parent directory is named [edited], the path [/data/edited/img.jpg],
    whose destination is the source path itself; a save of a photo loaded
    from it, when nothing fails, writes the composed image over the source
    file. *)
Theorem destination_can_be_the_source :
  exists src : string,
    src = "/data/edited/img.jpg"
    /\ ~ In "original" (PosixPath.parts (PosixPath.of_string src))
    /\ PosixPath.name (PosixPath.parent (PosixPath.of_string src)) = "edited"
    /\ PosixPath.to_string (edited_path_of src) = src
    /\ (forall (st : St) (x y w h : Z) (old : File),
          Inv st ->
          current_photo_path (widget st) = Some src ->
          disk (world st) !! src = Some old ->
          scene_rect (scene st) = Some (x, y, w, h) -> (0 < w)%Z -> (0 < h)%Z ->
          mkdir_error (world st) "/data/edited" = None ->
          write_ok (world st) src = true ->
          exists st',
            _save_image st = Ok tt st'
            /\ disk (world st') !! src
               = Some (ImageFile "JPEG" 90
                         (mkImage w h (omap (fun id => heap (scene st) !! id)
                                            (stacking_order (scene st)))))
            /\ forall other, other <> src ->
                 disk (world st') !! other = disk (world st) !! other).
Proof.
  exists "/data/edited/img.jpg". split; [reflexivity|].
  split; [cbn; intuition discriminate|].
  split; [reflexivity|]. split; [reflexivity|].
  intros st x y w h old Hinv Hp _ Hrect Hw Hh Hmk Hwr.
  destruct (save_image_success st "/data/edited/img.jpg" x y w h Hinv Hp)
    as (st' & E & _ & _ & _ & Hd); try assumption; try discriminate.
  exists st'. split; [exact E|]. rewrite Hd.
  change (PosixPath.to_string (edited_path_of "/data/edited/img.jpg"))
    with "/data/edited/img.jpg".
  split; [apply lookup_insert_eq|].
  intros other Hne. now apply lookup_insert_ne.
Qed.

End SaveClaims.

(* ================================================================== *)

(** * Further properties of the code *)

(** ** The file-name codec: what a successful parse says *)

Section CodecSoundness.
Import FileParser.

Lemma take_drop k s : Str.take k s +:+ Str.drop k s = s.
Proof.
  revert s. induction k as [|k IH]; intros s; [reflexivity|].
  destruct s as [|c s]; [reflexivity|]. cbn [Str.take Str.drop String.append].
  now rewrite IH.
Qed.

Lemma span_take c k s :
  k <= Str.span_not c s ->
  Str.has_char c (Str.take k s) = false /\ String.length (Str.take k s) = k.
Proof.
  revert s. induction k as [|k IH]; intros s Hk; [now split|].
  destruct s as [|x s]; cbn [Str.span_not] in Hk; [lia|].
  destruct (Ascii.eqb c x) eqn:E; [lia|].
  destruct (IH s) as [H1 H2]; [lia|].
  cbn [Str.take Str.has_char String.length]. rewrite E. now rewrite H1, H2.
Qed.

Lemma plus_loop_inv ts rest opens caps r : forall n,
  (fix try (k : nat) : option (list (string * string)) :=
     match k with
     | O => None
     | S k' =>
         match run ts (Str.drop k rest) opens caps with
         | Some r => Some r
         | None => try k'
         end
     end) n = Some r ->
  exists k,
    0 < k <= n
    /\ run ts (Str.drop k rest) opens caps = Some r
    /\ forall j, k < j <= n -> run ts (Str.drop j rest) opens caps = None.
Proof.
  induction n as [|n IH]; intros H; [discriminate|].
  destruct (run ts (Str.drop (S n) rest) opens caps) as [r'|] eqn:E.
  - injection H as <-. exists (S n). split; [lia|]. split; [exact E|]. intros j Hj. lia.
  - destruct (IH H) as (k & Hk & Hrun & Hnone).
    exists k. split; [lia|]. split; [exact Hrun|]. intros j Hj.
    destruct (Nat.eq_dec j (S n)) as [->|]; [exact E|]. apply Hnone. lia.
Qed.

(** The attempt of [[^c]+] that is kept is the longest one after which the
    rest of the pattern matches. *)
Lemma run_plus_inv c ts rest opens caps r :
  run (TPlusNot c :: ts) rest opens caps = Some r ->
  exists k,
    0 < k <= Str.span_not c rest
    /\ run ts (Str.drop k rest) opens caps = Some r
    /\ forall j, k < j <= Str.span_not c rest ->
                 run ts (Str.drop j rest) opens caps = None.
Proof. intros H. now apply plus_loop_inv. Qed.

Lemma run_lit_inv c ts rest opens caps r :
  run (TLit c :: ts) rest opens caps = Some r ->
  exists rest', rest = String c rest' /\ run ts rest' opens caps = Some r.
Proof.
  cbn [run]. destruct rest as [|x rest']; [discriminate|].
  destruct (Ascii.eqb c x) eqn:E; [|discriminate].
  apply Ascii.eqb_eq in E. subst x. eauto.
Qed.

Lemma at_end_cases rest : at_end rest = true -> rest = "" \/ rest = String "010" "".
Proof.
  destruct rest as [|c [|d rest]]; cbn [at_end]; try discriminate; [now left|].
  intros E. apply Ascii.eqb_eq in E. subst. now right.
Qed.

(** A piece [[^c]+] takes from the input. *)
Lemma plus_piece c k rest :
  0 < k <= Str.span_not c rest ->
  exists a, rest = a +:+ Str.drop k rest /\ a <> "" /\ Str.has_char c a = false
            /\ String.length a = k.
Proof.
  intros Hk. exists (Str.take k rest). destruct (span_take c k rest) as [H1 H2]; [lia|].
  split; [now rewrite take_drop|]. split; [|now split].
  intros E. rewrite E in H2. cbn in H2. lia.
Qed.

Lemma has_char_append c a b :
  Str.has_char c (a +:+ b) = Str.has_char c a || Str.has_char c b.
Proof.
  induction a as [|x a IH]; cbn [String.append Str.has_char]; [reflexivity|].
  now destruct (Ascii.eqb c x).
Qed.

Lemma drop_all s : Str.drop (String.length s) s = "".
Proof. rewrite <- (append_empty_r s) at 2. apply drop_append. Qed.

(** What a match of the pattern says about the name. *)
Lemma parse_inversion (filename : string) (r : list (string * string)) :
  parse filename = Some r ->
  exists bc fn num ext,
    r = components bc fn num ext
    /\ filename = build bc fn num ext
    /\ bc <> "" /\ Str.has_char "-" bc = false
    /\ fn <> "" /\ Str.has_char "_" fn = false
    /\ num <> "" /\ Str.has_char "." num = false
    /\ dotted_extension ext = true.
Proof.
  unfold parse, FILENAME_PATTERN. rewrite run_open. intros H.
  apply run_plus_inv in H as (k1 & Hk1 & H & _).
  destruct (plus_piece _ _ _ Hk1) as (a1 & Hf & Ha1 & Hc1 & _).
  remember (Str.drop k1 filename) as r1 eqn:E1. clear E1 Hk1. subst filename.
  rewrite run_close in H. apply run_lit_inv in H as (r2 & -> & H).
  rewrite run_open in H.
  apply run_plus_inv in H as (k2 & Hk2 & H & _).
  destruct (plus_piece _ _ _ Hk2) as (a2 & Hf & Ha2 & Hc2 & _).
  remember (Str.drop k2 r2) as r3 eqn:E3. clear E3 Hk2. subst r2.
  rewrite run_close in H. apply run_lit_inv in H as (r4 & -> & H).
  rewrite run_open in H.
  apply run_plus_inv in H as (k3 & Hk3 & H & _).
  destruct (plus_piece _ _ _ Hk3) as (a3 & Hf & Ha3 & Hc3 & _).
  remember (Str.drop k3 r4) as r5 eqn:E5. clear E5 Hk3. subst r4.
  rewrite run_close, run_open in H. apply run_lit_inv in H as (r6 & -> & H).
  apply run_plus_inv in H as (k4 & Hk4 & H & Hmax).
  destruct (plus_piece _ _ _ Hk4) as (a4 & Hf & Ha4 & Hc4 & Hlen).
  remember (Str.drop k4 r6) as r7 eqn:E7.
  assert (Hr7 : r7 = "").
  { rewrite Hf in H.
    change (String "." (a4 +:+ r7)) with (String "." a4 +:+ r7) in H.
    rewrite run_close in H. cbn [run] in H.
    destruct (at_end r7) eqn:Hend; [|discriminate].
    apply at_end_cases in Hend as [->|Hnl]; [reflexivity|]. exfalso.
    assert (Hspan : Str.span_not "." r6 = S k4).
    { rewrite Hf, Hnl, span_not_all.
      - rewrite length_append. cbn. lia.
      - rewrite has_char_append, Hc4. reflexivity. }
    specialize (Hmax (S k4)). rewrite Hspan in Hmax.
    assert (Hd : Str.drop (S k4) r6 = "").
    { rewrite Hf, Hnl. replace (S k4) with (String.length (a4 +:+ String "010" ""))
        by (rewrite length_append; cbn; lia).
      apply drop_all. }
    rewrite Hd in Hmax. cbn [run at_end] in Hmax.
    specialize (Hmax ltac:(lia)). discriminate Hmax. }
  subst r7. rewrite Hr7 in *. rewrite append_empty_r in Hf. subst r6.
  rewrite run_close_end in H. cbn [run at_end] in H. injection H as <-.
  exists a1, a2, a3, (String "." a4).
  split; [reflexivity|]. split; [reflexivity|].
  repeat (split; [assumption|]).
  cbn [dotted_extension]. rewrite Ascii.eqb_refl, Hc4. cbn [andb negb].
  destruct a4; [congruence | reflexivity].
Qed.

(** X1.  Whatever [parse] returns composes back to the name it was given:
    the result has the four groups, [build] of them is the input, and they
    satisfy the conditions of the pattern. *)
Theorem parse_sound (filename : string) (r : list (string * string)) :
  parse filename = Some r ->
  exists bc fn num ext,
    r = components bc fn num ext
    /\ filename = build bc fn num ext
    /\ bc <> "" /\ Str.has_char "-" bc = false
    /\ fn <> "" /\ Str.has_char "_" fn = false
    /\ num <> "" /\ Str.has_char "." num = false
    /\ dotted_extension ext = true.
Proof. exact (parse_inversion filename r). Qed.

(** X2.  A name without a hyphen, without an underscore or without a dot is
    not parsed. *)
Theorem parse_needs_separators (filename : string) :
  Str.has_char "-" filename = false
  \/ Str.has_char "_" filename = false
  \/ Str.has_char "." filename = false ->
  parse filename = None.
Proof.
  intros H. destruct (parse filename) as [r|] eqn:E; [exfalso | reflexivity].
  apply parse_inversion in E as (bc & fn & num & ext & _ & -> & _ & _ & _ & _ & _ & _ & Hext).
  destruct ext as [|c e]; [discriminate|]. cbn [dotted_extension] in Hext.
  apply andb_prop in Hext as [[Hc _]%andb_prop _]. apply Ascii.eqb_eq in Hc. subst c.
  unfold build in H. rewrite !has_char_append in H. cbn [Str.has_char] in H.
  rewrite !Ascii.eqb_refl in H. rewrite ?orb_true_r in H.
  destruct H as [H|[H|H]]; discriminate H.
Qed.

Lemma parse_needs_separators_witness : parse "IMG_0001.jpg" = None.
Proof. apply parse_needs_separators. left. reflexivity. Defined.

Lemma parse_sound_witness :
  exists bc fn num ext,
    FileParser.parse "A_B-C.D_E.jpg" = Some (components bc fn num ext)
    /\ "A_B-C.D_E.jpg" = build bc fn num ext.
Proof.
  destruct (parse_sound "A_B-C.D_E.jpg" _ eq_refl) as (bc & fn & num & ext & E & Hb & _).
  exists bc, fn, num, ext. split; [now rewrite <- E | exact Hb].
Defined.

End CodecSoundness.

(** ** The scene: what every handler keeps, and what deleting removes *)

Section SceneExtras.
Import Geometry Host Editor.
#[local] Open Scope py_scope.

(** X3.  In every state the widget reaches from its initial state, by any
    sequence of pointer events, button clicks and record bindings, with
    handlers that return or raise: the items of the scene are alive and
    pairwise distinct, every identity is below the counter, and the
    background item, once set, is in the scene and is not the item the view
    is drawing. *)
Theorem scene_invariant_reachable (w : World) (actions : list Action) :
  Inv (run actions (init w)).
Proof. apply Inv_run, Inv_init. Qed.

(** X4.  While no background photo is set, clearing the annotations
    returns and leaves the scene empty. *)
Theorem clear_without_background (st : St) :
  Inv st -> pixmap_item (widget st) = None ->
  exists st', _clear_drawings st = Ok tt st'
              /\ members (scene st') = []
              /\ heap (scene st') = heap (scene st).
Proof.
  intros H Hnone. eexists. split; [now apply clear_drawings_eval|].
  split; [|reflexivity]. cbn.
  assert (G : forall l, (forall x, In x l -> In x (members (scene st))) ->
              List.filter (fun x => negb (existsb (Nat.eqb x) (cleared st))) l = []).
  { induction l as [|x l IH]; intros Hl; [reflexivity|]. cbn [List.filter].
    assert (Hx : existsb (Nat.eqb x) (cleared st) = true).
    { apply existsb_exists. exists x. split; [|apply Nat.eqb_refl].
      apply In_cleared. split; [apply Hl; now left | now rewrite Hnone]. }
    rewrite Hx. cbn [negb]. apply IH. intros y Hy. apply Hl. now right. }
  now apply G.
Qed.

Lemma clear_without_background_witness :
  exists st',
    _clear_drawings (run [ToolButton TEXT; Press (quiet_event LeftButton 10 20)]
                         (init sample_world)) = Ok tt st'
    /\ members (scene st') = []
    /\ heap (scene st')
       = heap (scene (run [ToolButton TEXT; Press (quiet_event LeftButton 10 20)]
                          (init sample_world))).
Proof.
  apply clear_without_background; [apply Inv_run, Inv_init | reflexivity].
Defined.

(** X5.  Deleting the selected items returns; an item is in the scene
    afterwards exactly when it was in the scene before and either was not
    selected or is the background item; no item object is changed. *)
Theorem delete_selected_exact (st : St) :
  Inv st ->
  exists st',
    _delete_selected st = Ok tt st'
    /\ heap (scene st') = heap (scene st)
    /\ forall id, In id (members (scene st'))
                  <-> In id (members (scene st))
                      /\ (is_selected st id = false \/ pixmap_item (widget st) = Some id).
Proof.
  intros H. eexists. split; [now apply delete_selected_eval|]. split; [reflexivity|].
  intros id. cbn. rewrite filter_In. unfold deleted. fold (is_selected st).
  split.
  - intros [Hin Hkeep]. split; [exact Hin|].
    destruct (is_selected st id) eqn:Hsel; [right | now left].
    destruct (decide (pixmap_item (widget st) = Some id)) as [|Hne]; [assumption|].
    exfalso. apply negb_true_iff in Hkeep. apply not_true_iff_false in Hkeep.
    apply Hkeep, existsb_exists. exists id. split; [|apply Nat.eqb_refl].
    apply filter_In. split; [apply filter_In; now split | now apply not_pixmap_spec].
  - intros [Hin Hwhy]. split; [exact Hin|].
    apply negb_true_iff, not_true_iff_false.
    intros [y [[[_ Hsel]%filter_In Hnp]%filter_In E]]%existsb_exists.
    apply Nat.eqb_eq in E. subst y. apply not_pixmap_spec in Hnp.
    destruct Hwhy as [Hwhy|Hwhy]; [congruence | contradiction].
Qed.

End SceneExtras.

(** ** Saving: the failures *)

Section SaveExtras.
Import Geometry Host Editor.
#[local] Open Scope py_scope.

(** The common start of the evaluations of [_save_image]: up to the
    creation of the destination directory. *)
Ltac save_prefix Hinv Hp :=
  unfold _save_image; unfold bind at 1; unfold get at 1; rewrite Hp;
  unfold try_except at 1;
  unfold scene_items; unfold bind at 1; unfold bind at 1; unfold get at 1;
  unfold ret at 1;
  unfold bind at 1; unfold logMessage at 1; unfold modify at 1;
  unfold bind at 1;
  match goal with
  | |- context [for_each ?l ?body ?s] =>
      let more := fresh "more" in
      let Hloop := fresh "Hloop" in
      destruct (log_items_eval l s) as [more Hloop];
      [ intros ? ? Hin; apply in_combine_r in Hin;
        apply in_rev, In_stacking_order in Hin;
        now apply (inv_members _ Hinv)
      | rewrite Hloop; clear Hloop ]
  end;
  unfold sceneRect; unfold bind at 1; unfold bind at 1; unfold get at 1;
  unfold ret at 1; cbn [scene upd_world];
  destruct (default (0, 0, 0, 0)%Z (scene_rect (scene _))) as [[[? ?] ?] ?];
  lazy beta iota zeta;
  unfold bind at 1; unfold logMessage at 1; unfold modify at 1;
  unfold bind at 1; unfold get at 1;
  unfold bind at 1; unfold logMessage at 1; unfold modify at 1;
  unfold mkdir_parents; unfold bind at 1; unfold bind at 1; unfold get at 1;
  cbn [world upd_world mkdir_error with_messages].

(** X6.  When the destination directory cannot be made, the save returns
    without raising, the status area shows the error with the message of the
    exception, and no file is written, no directory is recorded, the layer
    and the scene are as before. *)
Theorem save_reports_mkdir_failure (st : St) (photo_path text : string) :
  Inv st ->
  current_photo_path (widget st) = Some photo_path -> photo_path <> "" ->
  mkdir_error (world st)
    (PosixPath.to_string (PosixPath.parent (edited_path_of photo_path))) = Some text ->
  exists st',
    _save_image st = Ok tt st'
    /\ status_label (widget st') = mkStatus ("❌ 保存エラー: " +:+ text) "color: #FF3B30;"
    /\ disk (world st') = disk (world st)
    /\ dirs (world st') = dirs (world st)
    /\ layer (world st') = layer (world st)
    /\ scene st' = scene st /\ view st' = view st.
Proof.
  intros Hinv Hp Hne Hmk. destruct photo_path as [|c0 s0]; [congruence|].
  save_prefix Hinv Hp. rewrite Hmk.
  eexists. split; [reflexivity|]. cbn. repeat split.
Qed.

(** X7.  When the directory is made but the file cannot be written, the
    save returns without raising, the status area shows that saving the image
    failed, no file is written and the layer and the scene are as before. *)
Theorem save_reports_write_failure (st : St) (photo_path : string) :
  Inv st ->
  current_photo_path (widget st) = Some photo_path -> photo_path <> "" ->
  mkdir_error (world st)
    (PosixPath.to_string (PosixPath.parent (edited_path_of photo_path))) = None ->
  write_ok (world st) (PosixPath.to_string (edited_path_of photo_path)) = false ->
  exists st',
    _save_image st = Ok tt st'
    /\ status_label (widget st') = mkStatus "❌ 保存エラー: 画像保存に失敗" "color: #FF3B30;"
    /\ disk (world st') = disk (world st)
    /\ layer (world st') = layer (world st)
    /\ scene st' = scene st /\ view st' = view st.
Proof.
  intros Hinv Hp Hne Hmk Hwr. destruct photo_path as [|c0 s0]; [congruence|].
  save_prefix Hinv Hp. rewrite Hmk.
  unfold modify at 1.
  unfold bind at 1. unfold logMessage at 1. unfold modify at 1.
  unfold image_save. unfold bind at 1. unfold bind at 1. unfold get at 1.
  cbn [world upd_world write_ok with_messages with_dirs]. rewrite Hwr.
  rewrite andb_false_r. unfold ret at 1.
  eexists. split; [reflexivity|]. cbn. repeat split.
Qed.

(** X8.  When the record has the field [photo_edited_path], a save in
    which nothing fails writes the destination path into it and leaves the
    edit session of the layer as it found it: on a layer that was being
    edited the new value waits in the edit buffer and nothing is committed;
    on a layer that was not, the value is committed and the layer is again
    not editable. *)
Theorem save_writes_edited_path
    (st : St) (photo_path : string) (x y w h : Z) (feature : Feature) (ly : Layer) :
  Inv st ->
  current_photo_path (widget st) = Some photo_path -> photo_path <> "" ->
  scene_rect (scene st) = Some (x, y, w, h) -> (0 < w)%Z -> (0 < h)%Z ->
  mkdir_error (world st)
    (PosixPath.to_string (PosixPath.parent (edited_path_of photo_path))) = None ->
  write_ok (world st) (PosixPath.to_string (edited_path_of photo_path)) = true ->
  _current_feature (widget st) = Some feature ->
  layer (world st) = Some ly ->
  has_field feature "photo_edited_path" = true ->
  exists st' ly',
    _save_image st = Ok tt st'
    /\ layer (world st') = Some ly'
    /\ editable ly' = editable ly
    /\ (if editable ly
        then edit_buffer ly' !! (f_id feature, "photo_edited_path")
             = Some (VStr (PosixPath.to_string (edited_path_of photo_path)))
             /\ committed ly' = committed ly
        else committed ly' !! (f_id feature, "photo_edited_path")
             = Some (VStr (PosixPath.to_string (edited_path_of photo_path)))
             /\ edit_buffer ly' = ∅).
Proof.
  intros Hinv Hp Hne Hrect Hw Hh Hmk Hwr Hf Hl Hm.
  destruct (save_image_written st photo_path x y w h Hinv Hp Hne Hrect Hw Hh Hmk Hwr)
    as (st1 & E & Hv & Hs & Hwi & Hd & Hl1).
  eexists. eexists. rewrite E. unfold try_except.
  rewrite (update_field_present _ st1 feature ly);
    [ | now rewrite Hwi | now rewrite Hl1 | exact Hm ].
  split; [reflexivity|]. split; [reflexivity|].
  unfold changeAttributeValue, commitChanges, startEditing.
  destruct (editable ly) eqn:Ed; cbn [editable edit_buffer committed]; rewrite ?Ed;
    cbn [editable edit_buffer committed].
  - split; [reflexivity|]. split; [apply lookup_insert_eq | reflexivity].
  - split; [reflexivity|]. split; [|reflexivity].
    apply lookup_union_Some_l, lookup_insert_eq.
Qed.

End SaveExtras.
